(** * scripts/build_site.py: the static-site builder of the chapters collection

    A shallow embedding of [build_site.py] and the properties of its
    title extraction, link rewriting, chapter discovery, index rendering
    and entry point.

    Python [str] values are sequences of Unicode code points: a character
    is a code point in [N] and a string, of type [str], is a list of
    them.  The markdown renderer is an external collaborator and appears
    as a section variable [markdown : str -> str]. *)

From Stdlib Require Import NArith Ascii String DecimalString.
From stdpp Require Import base list gmap sorting.

Local Open Scope N_scope.

(** ** Python strings *)

Abbreviation str := (list N) (only parsing).

Module PyStr.

(** Literals of this development are written as Rocq strings, which hold
    UTF-8 bytes; [lit] decodes them to code points.  A Rocq literal cannot
    hold a double quote here, so inside a literal a backquote (U+0060)
    stands for the double quote (U+0022).  No string of [build_site.py]
    contains a backquote. *)

Definition DQ : N := 34.

Fixpoint utf8_decode (acc : N) (need : nat) (bs : str) : str :=
  match bs with
  | [] => []
  | b :: bs' =>
      match need with
      | S k =>
          let acc' := acc * 64 + b mod 64 in
          match k with
          | O => acc' :: utf8_decode 0 0%nat bs'
          | S _ => utf8_decode acc' k bs'
          end
      | O =>
          if b <? 128 then b :: utf8_decode 0 0%nat bs'
          else if b <? 224 then utf8_decode (b mod 32) 1%nat bs'
          else if b <? 240 then utf8_decode (b mod 16) 2%nat bs'
          else utf8_decode (b mod 8) 3%nat bs'
      end
  end.

Definition lit (s : string) : str :=
  map (fun c => if c =? 96 then DQ else c)
      (utf8_decode 0 0%nat (map N_of_ascii (list_ascii_of_string s))).

(** [a == b] on strings, [s.startswith(p)], [c in s] for one character. *)

Fixpoint startswith (s p : str) {struct p} : bool :=
  match p, s with
  | [], _ => true
  | a :: p', b :: s' => (a =? b) && startswith s' p'
  | _ :: _, [] => false
  end.

Definition contains_char (c : N) (s : str) : bool :=
  existsb (N.eqb c) s.

(** [str.isspace] for one character: the code points CPython's
    [_PyUnicode_IsWhitespace] accepts. *)
Definition isspace (c : N) : bool :=
  ((9 <=? c) && (c <=? 13)) || ((28 <=? c) && (c <=? 32))
  || (c =? 133) || (c =? 160) || (c =? 5760)
  || ((8192 <=? c) && (c <=? 8202))
  || (c =? 8232) || (c =? 8233) || (c =? 8239) || (c =? 8287) || (c =? 12288).

Fixpoint lstrip (s : str) : str :=
  match s with
  | [] => []
  | c :: s' => if isspace c then lstrip s' else s
  end.

Definition rstrip (s : str) : str := rev (lstrip (rev s)).

(** [s.strip()] without arguments. *)
Definition strip (s : str) : str := rstrip (lstrip s).

(** The line boundaries of [str.splitlines]: LF, VT, FF, CR, FS, GS, RS,
    NEL, LS and PS; CR LF counts as one boundary. *)
Definition is_linebreak (c : N) : bool :=
  ((10 <=? c) && (c <=? 13)) || ((28 <=? c) && (c <=? 30))
  || (c =? 133) || (c =? 8232) || (c =? 8233).

(** [cur] is the line read so far.  A last line without a terminator is
    kept when it is not empty, as [splitlines] does. *)
Fixpoint splitlines_from (cur : str) (s : str) : list str :=
  match s with
  | [] => match cur with [] => [] | _ :: _ => [cur] end
  | c :: s' =>
      if is_linebreak c then
        if c =? 13 then
          match s' with
          | c2 :: s'' =>
              if c2 =? 10 then cur :: splitlines_from [] s''
              else cur :: splitlines_from [] s'
          | [] => cur :: splitlines_from [] s'
          end
        else cur :: splitlines_from [] s'
      else splitlines_from (cur ++ [c]) s'
  end.

Definition splitlines (s : str) : list str := splitlines_from [] s.

(** [s.split(sep)] for a separator of one character: never empty. *)
Fixpoint split_from (sep : N) (cur : str) (s : str) : list str :=
  match s with
  | [] => [cur]
  | c :: s' =>
      if c =? sep then cur :: split_from sep [] s'
      else split_from sep (cur ++ [c]) s'
  end.

Definition split (sep : N) (s : str) : list str := split_from sep [] s.

(** [sep.join(parts)]. *)
Fixpoint join (sep : str) (parts : list str) : str :=
  match parts with
  | [] => []
  | [p] => p
  | p :: ps => p ++ sep ++ join sep ps
  end.

(** [str(n)] for a non-negative integer. *)
Definition str_of_N (n : N) : str :=
  match n with
  | N0 => [48]
  | Npos _ =>
      map N_of_ascii (list_ascii_of_string (NilEmpty.string_of_uint (N.to_uint n)))
  end.

(** The code points that UTF-8 can hold: the Unicode scalar values.  A
    Python string may also hold lone surrogates (U+D800 to U+DFFF), which
    the strict codec refuses when it encodes; the same surrogates stand,
    in the text of a file, for bytes that are not UTF-8 (as the error
    handler [surrogateescape] reads them), which the strict codec refuses
    when it decodes. *)
Definition is_scalar (c : N) : bool :=
  (c <=? 1114111) && negb ((55296 <=? c) && (c <=? 57343)).

Definition utf8_text (s : str) : bool := forallb is_scalar s.

(** The translation of line ends that a file opened for reading as text
    with the default [newline=None] applies: CR LF and CR become LF. *)
Fixpoint universal_newlines (s : str) : str :=
  match s with
  | [] => []
  | c :: s' =>
      if c =? 13 then
        10 :: match s' with
              | c2 :: s'' =>
                  if c2 =? 10 then universal_newlines s'' else universal_newlines s'
              | [] => []
              end
      else c :: universal_newlines s'
  end.

End PyStr.
Import PyStr.

(** ** Regular expressions *)

(** The expressions of the two patterns of the builder, matched as the
    backtracking engine of [re] matches them: alternatives are tried in
    order and the first complete match wins.  A quantifier stands on a
    class of characters, as in both patterns. *)
Inductive regex :=
  | Bol                                              (* ^ *)
  | Chars (s : str)                                  (* literal characters *)
  | Many (cls : N -> bool) (least : nat) (greedy : bool)
      (* a class under + or its lazy form ([least] = 1), or under the
         star or its lazy form ([least] = 0) *)
  | Seq (r1 r2 : regex)
  | Group (n : nat) (r : regex)                      (* ( ... ), numbered *)
  | Opt (r : regex).                                 (* ( ... )?, greedy *)

(** The text of the groups that took part in the match so far. *)
Abbreviation captures := (list (nat * list N)) (only parsing).

Fixpoint capture (n : nat) (c : captures) : option str :=
  match c with
  | [] => None
  | (k, text) :: c' => if Nat.eqb k n then Some text else capture n c'
  end.

Section Engine.

Context {R : Type}.

(** The rest of the match: position, input left, groups. *)
Abbreviation continuation := (nat -> list N -> list (nat * list N) -> option R)
  (only parsing).

(** A greedy quantifier takes a character when it can, and gives it
    back when the rest fails after it. *)
Fixpoint many_greedy (cls : N -> bool) (least : nat) (pos : nat) (s : str)
    (c : captures) (k : continuation) {struct s} : option R :=
  let stop := match least with O => k pos s c | S _ => None end in
  match s with
  | x :: s' =>
      if cls x then
        match many_greedy cls (pred least) (S pos) s' c k with
        | Some r => Some r
        | None => stop
        end
      else stop
  | [] => stop
  end.

(** A lazy quantifier tries the rest first, and takes a character when
    the rest fails. *)
Fixpoint many_lazy (cls : N -> bool) (least : nat) (pos : nat) (s : str)
    (c : captures) (k : continuation) {struct s} : option R :=
  let more :=
    match s with
    | x :: s' => if cls x then many_lazy cls (pred least) (S pos) s' c k else None
    | [] => None
    end in
  match least with
  | O => match k pos s c with Some r => Some r | None => more end
  | S _ => more
  end.

Fixpoint run (r : regex) (pos : nat) (s : str) (c : captures) (k : continuation)
  : option R :=
  match r with
  | Bol => match pos with O => k pos s c | S _ => None end
  | Chars p =>
      if startswith s p then k (pos + length p)%nat (drop (length p) s) c else None
  | Many cls least greedy =>
      if greedy then many_greedy cls least pos s c k
      else many_lazy cls least pos s c k
  | Seq r1 r2 => run r1 pos s c (fun pos' s' c' => run r2 pos' s' c' k)
  | Group n r1 =>
      run r1 pos s c (fun pos' s' c' => k pos' s' ((n, take (pos' - pos) s) :: c'))
  | Opt r1 =>
      match run r1 pos s c k with
      | Some x => Some x
      | None => k pos s c
      end
  end.

End Engine.

(** A match object: [group(0)], [group(1)] and [group(2)].  [group(2)] is
    [None] when the group took no part in the match; [group1] is the
    text of group 1, which takes part in every match of the pattern that
    has one. *)
Record Match := mkMatch {
  group0 : str;
  group1 : str;
  group2 : option str
}.

Definition text_of_group (g : option str) : str :=
  match g with Some a => a | None => [] end.

(** [pattern.match(string, pos)] on the input [s] left at [pos]: the
    match and the input after it. *)
Definition re_match (r : regex) (pos : nat) (s : str) : option (Match * str) :=
  run r pos s []
    (fun pos' s' c =>
       Some (mkMatch (take (pos' - pos) s) (text_of_group (capture 1 c)) (capture 2 c),
             s')).

(** The scan that [sub] and [finditer] share: the leftmost match is
    taken and the scan resumes after it; a character at which no match
    starts is passed over.  Neither pattern of the builder matches the
    empty string, so the rule of [re] for empty matches is left out: the
    scan passes over the character as if no match started there. *)
Inductive piece :=
  | Lit (c : N)
  | Hit (m : Match).

Fixpoint re_scan (fuel : nat) (r : regex) (pos : nat) (s : str) : list piece :=
  match fuel with
  | O => []
  | S fuel' =>
      match s with
      | [] => []
      | c :: s' =>
          match re_match r pos s with
          | Some (m, rest) =>
              match group0 m with
              | _ :: _ => Hit m :: re_scan fuel' r (pos + length (group0 m)) rest
              | [] => Lit c :: re_scan fuel' r (S pos) s'
              end
          | None => Lit c :: re_scan fuel' r (S pos) s'
          end
      end
  end.


Definition piece_source (p : piece) : str :=
  match p with Lit c => [c] | Hit m => group0 m end.

Definition piece_output (repl : Match -> str) (p : piece) : str :=
  match p with Lit c => [c] | Hit m => repl m end.

(** [pattern.sub(repl, s)] and [re.sub(pattern, repl, s)]: every match
    is replaced by [repl] of it, the characters outside the matches are
    copied. *)
Definition re_sub (r : regex) (repl : Match -> str) (s : str) : str :=
  concat (map (piece_output repl) (re_scan (length s) r 0 s)).

(** ** Title extraction *)

Definition HASH : N := 35.
Definition BACKSLASH : N := 92.
Definition LETTER_s : N := 115.

(** The pattern of [extract_title], the raw string [^#+\\s*] (between
    the quotes of [r`...`]; a backquote stands for the double quote in
    comments too).  Its seven characters are [^ # + \ \ s *]: the start
    of the string, one or more [#], one backslash (written [\\] in a
    pattern), and zero or more letters [s]. *)
Definition TITLE_PATTERN : regex :=
  Seq Bol
      (Seq (Many (N.eqb HASH) 1 true)
           (Seq (Chars [BACKSLASH]) (Many (N.eqb LETTER_s) 0 true))).

Fixpoint extract_title_loop (lines : list str) (fallback : str) : str :=
  match lines with
  | [] => fallback
  | line :: lines' =>
      let stripped := strip line in
      if startswith stripped [HASH] then re_sub TITLE_PATTERN (fun _ => []) stripped
      else extract_title_loop lines' fallback
  end.

Definition extract_title (text fallback : str) : str :=
  extract_title_loop (splitlines text) fallback.

(** ** Link rewriting *)

Definition HREF_OPEN : str := Eval cbv in lit "href=`".
Definition DOT_MD : str := Eval cbv in lit ".md".
Definition DOT_HTML : str := Eval cbv in lit ".html".
Definition SLASH : N := 47.

(** The class of the characters other than the double quote. *)
Definition unquoted (c : N) : bool := negb (c =? DQ).

(** [LINK_PATTERN]: the raw pattern reads [href=], an escaped double
    quote, the lazy group 1 of one or more characters other than the
    double quote, [\.md], the optional group 2 made of [#] and a greedy
    run of characters other than the double quote, and an escaped double
    quote.  An escaped double quote matches a double quote, so with Q for
    it the expression is [href=Q([^Q]+?)\.md(#[^Q]* )?Q] (without the
    blank). *)
Definition LINK_PATTERN : regex :=
  Seq (Chars HREF_OPEN)
      (Seq (Group 1 (Many unquoted 1 false))
           (Seq (Chars DOT_MD)
                (Seq (Opt (Group 2 (Seq (Chars [HASH]) (Many unquoted 0 true))))
                     (Chars [DQ])))).

(** [_replace], the closure of [convert_links]. *)
Definition _replace (m : Match) : str :=
  let href := group1 m in
  (* anchor = match.group(2) or `` *)
  let anchor :=
    match group2 m with
    | Some a => match a with [] => [] | _ :: _ => a end
    | None => []
    end in
  if startswith href (lit "http://") || startswith href (lit "https://") then
    group0 m
  else
    let href := if startswith href (lit "chapters/") then drop 9 href else href in
    (* href.split(`/`)[-1]: the list is never empty *)
    let href := if contains_char SLASH href then default href (last (split SLASH href))
                else href in
    HREF_OPEN ++ href ++ DOT_HTML ++ anchor ++ [DQ].

Definition convert_links (html : str) : str := re_sub LINK_PATTERN _replace html.

(** ** Templates *)

Definition NAVIGATION_LINK : str :=
  lit "<nav class=`breadcrumbs`><a href=`index.html`>ホームに戻る</a></nav>".

Definition HTML_TEMPLATE : str :=
  lit "<!DOCTYPE html>
<html lang=`ja`>
<head>
  <meta charset=`utf-8` />
  <meta name=`viewport` content=`width=device-width, initial-scale=1` />
  <title>{title} | 貨幣論教科書</title>
  <link rel=`stylesheet` href=`assets/style.css` />
</head>
<body>
<header class=`site-header`>
  <h1><a href=`index.html`>貨幣論教科書</a></h1>
  <p class=`tagline`>古典から現代までの貨幣論を学ぶ</p>
</header>
<main class=`container`>
  {nav}
  <article class=`content`>
  {content}
  </article>
</main>
<footer class=`site-footer`>
  <p>&copy; {year} 貨幣論プロジェクト</p>
</footer>
</body>
</html>
".

Definition INDEX_TEMPLATE : str :=
  lit "<!DOCTYPE html>
<html lang=`ja`>
<head>
  <meta charset=`utf-8` />
  <meta name=`viewport` content=`width=device-width, initial-scale=1` />
  <title>貨幣論教科書 | 章一覧</title>
  <link rel=`stylesheet` href=`assets/style.css` />
</head>
<body>
<header class=`site-header`>
  <h1>貨幣論教科書</h1>
  <p class=`tagline`>古典から現代までの貨幣論を学ぶ</p>
</header>
<main class=`container`>
  <section>
    <h2>章一覧</h2>
    <ul class=`chapter-list`>
      {items}
    </ul>
  </section>
</main>
<footer class=`site-footer`>
  <p>&copy; {year} 貨幣論プロジェクト</p>
</footer>
</body>
</html>
".

Definition MD_EXTENSIONS : list str :=
  [lit "extra"; lit "toc"; lit "tables"; lit "codehilite"].

Definition STYLESHEET_TEXT : str :=
  lit "
:root {
  color-scheme: light;
  --text-color: #1a1a1a;
  --background-color: #fafafa;
  --accent-color: #0070f3;
  --border-color: #e0e0e0;
}

body {
  margin: 0;
  font-family: `Hiragino Sans`, `Noto Sans JP`, `Yu Gothic`, system-ui, -apple-system, BlinkMacSystemFont, sans-serif;
  color: var(--text-color);
  background-color: var(--background-color);
  line-height: 1.7;
}

.site-header, .site-footer {
  text-align: center;
  padding: 2rem 1rem;
  background-color: white;
  border-bottom: 1px solid var(--border-color);
}

.site-footer {
  border-top: 1px solid var(--border-color);
  border-bottom: none;
}

.site-header a {
  text-decoration: none;
  color: inherit;
}

.container {
  max-width: 960px;
  margin: 0 auto;
  padding: 2rem 1.5rem 4rem;
  background-color: white;
  box-shadow: 0 4px 16px rgba(0, 0, 0, 0.05);
}

.chapter-list {
  list-style: none;
  padding: 0;
  margin: 0;
  display: grid;
  grid-template-columns: repeat(auto-fit, minmax(240px, 1fr));
  gap: 1rem;
}

.chapter-list li {
  border: 1px solid var(--border-color);
  border-radius: 12px;
  padding: 1rem;
  background-color: #fff;
  transition: transform 0.2s ease, box-shadow 0.2s ease;
}

.chapter-list li:hover {
  transform: translateY(-4px);
  box-shadow: 0 8px 20px rgba(0, 0, 0, 0.1);
}

.chapter-list a {
  text-decoration: none;
  color: var(--text-color);
  font-weight: 600;
}

.breadcrumbs {
  margin-bottom: 1.5rem;
  font-size: 0.95rem;
}

.content h1 {
  font-size: 2.2rem;
  margin-top: 0;
}

.content img {
  max-width: 100%;
  height: auto;
}

pre code {
  display: block;
  padding: 1rem;
  background-color: #1e1e1e;
  color: #f4f4f4;
  overflow-x: auto;
  border-radius: 8px;
}

code {
  font-family: `Fira Code`, `Source Code Pro`, monospace;
  background-color: rgba(0, 112, 243, 0.1);
  padding: 0.1rem 0.3rem;
  border-radius: 4px;
}
        ".

Definition LBRACE : N := 123.
Definition RBRACE : N := 125.

Fixpoint lookup_field (name : str) (args : list (str * str)) : option str :=
  match args with
  | [] => None
  | (k, v) :: args' => if bool_decide (k = name) then Some v else lookup_field name args'
  end.

(** [template.format(name=value, ...)] for the replacement fields the
    templates use, a name between braces.  [field] holds the name being
    read.  [None] stands for the [KeyError] of a name without a value and
    the [ValueError] of a lone brace; the templates hold no doubled
    brace. *)
Fixpoint format_from (field : option str) (tpl : str) (args : list (str * str))
  : option str :=
  match tpl with
  | [] => match field with None => Some [] | Some _ => None end
  | c :: tpl' =>
      match field with
      | None =>
          if c =? LBRACE then format_from (Some []) tpl' args
          else if c =? RBRACE then None
          else
            match format_from None tpl' args with
            | Some out => Some (c :: out)
            | None => None
            end
      | Some name =>
          if c =? RBRACE then
            match lookup_field name args, format_from None tpl' args with
            | Some v, Some out => Some (v ++ out)
            | _, _ => None
            end
          else format_from (Some (name ++ [c])) tpl' args
      end
  end.

Definition format (tpl : str) (args : list (str * str)) : option str :=
  format_from None tpl args.

(** ** Paths *)

(** A path is the list of its parts below [BASE_DIR]; [[]] is [BASE_DIR]
    itself.  A part is a file name and holds no [/]. *)
Abbreviation path := (list (list N)) (only parsing).

Definition BASE_DIR : path := [].
Definition CHAPTERS_DIR : path := BASE_DIR ++ [lit "chapters"].
Definition OUTPUT_DIR : path := BASE_DIR ++ [lit "site"].
Definition ASSETS_DIR : path := OUTPUT_DIR ++ [lit "assets"].

(** [p.name] and [p.parent]. *)
Definition name (p : path) : str := default [] (last p).
Definition parent (p : path) : path := take (length p - 1) p.

Definition DOT : N := 46.

(** [s.rfind(c)], counting from [i]. *)
Fixpoint rfind_from (c : N) (i : nat) (s : str) : option nat :=
  match s with
  | [] => None
  | x :: s' =>
      match rfind_from c (S i) s' with
      | Some j => Some j
      | None => if x =? c then Some i else None
      end
  end.

(** [p.stem]: the name up to its last dot, when that dot is neither the
    first nor the last character of the name. *)
Definition stem (p : path) : str :=
  let nm := name p in
  match rfind_from DOT 0 nm with
  | Some i =>
      if bool_decide (0 < i)%nat && bool_decide (i < length nm - 1)%nat
      then take i nm else nm
  | None => nm
  end.

Definition endswith (s suffix : str) : bool :=
  startswith (rev s) (rev suffix).

(** The order of Python sequences: the first difference decides, and a
    proper prefix comes first.  Strings compare by code point, paths by
    their parts. *)
Fixpoint lex_compare {A} (cmp : A -> A -> comparison) (l1 l2 : list A)
  : comparison :=
  match l1, l2 with
  | [], [] => Eq
  | [], _ :: _ => Lt
  | _ :: _, [] => Gt
  | a :: l1', b :: l2' =>
      match cmp a b with
      | Eq => lex_compare cmp l1' l2'
      | Lt => Lt
      | Gt => Gt
      end
  end.

Definition str_compare : str -> str -> comparison := lex_compare N.compare.
Definition path_compare : path -> path -> comparison := lex_compare str_compare.

Definition str_le (a b : str) : Prop := str_compare a b <> Gt.
Definition path_le (p q : path) : Prop := path_compare p q <> Gt.

#[global] Instance comparison_eq_dec : EqDecision comparison.
Proof. solve_decision. Defined.

#[global] Instance str_le_dec : RelDecision str_le.
Proof. intros a b. unfold str_le. apply _. Defined.

#[global] Instance path_le_dec : RelDecision path_le.
Proof. intros p q. unfold path_le. apply _. Defined.

(** [sorted(paths)]: the paths of one listing are distinct, so the
    stable sort of Python and this merge sort return the same list. *)
Definition sorted (l : list path) : list path := merge_sort path_le l.

(** ** The file system *)

(** The tree below [BASE_DIR] is a finite map from paths to nodes, on a
    POSIX system.  A file holds the text that its bytes stand for in
    UTF-8, line ends as they are stored; a byte that is not UTF-8 stands
    in it as a lone surrogate, so the bytes of a file are UTF-8 exactly
    when [utf8_text] holds of its text. *)
Inductive node :=
  | File (content : str)
  | Dir.

#[global] Instance node_eq_dec : EqDecision node.
Proof. solve_decision. Defined.

Abbreviation fs := (gmap (list (list N)) node) (only parsing).

Inductive exn :=
  | SystemExit
  | FileNotFoundError
  | NotADirectoryError
  | IsADirectoryError
  | FileExistsError
  | ShutilError
  | UnicodeDecodeError
  | UnicodeEncodeError
  | FormatError.

Inductive outcome (A : Type) :=
  | Ok (a : A)
  | Raised (e : exn).
Arguments Ok {A} a.
Arguments Raised {A} e.

(** A computation on the file system: it returns or raises, and leaves a
    tree behind in both cases. *)
Definition io (A : Type) : Type := fs -> outcome A * fs.

Definition io_ret {A} (a : A) : io A := fun t => (Ok a, t).
Definition io_raise {A} (e : exn) : io A := fun t => (Raised e, t).
Definition io_bind {A B} (c : io A) (k : A -> io B) : io B :=
  fun t =>
    match c t with
    | (Ok a, t') => k a t'
    | (Raised e, t') => (Raised e, t')
    end.

Notation "x <- c1 ;; c2" := (io_bind c1 (fun x => c2))
  (at level 100, c1 at next level, right associativity).
Notation "c1 ;;; c2" := (io_bind c1 (fun _ => c2))
  (at level 100, right associativity).

(** [for x in l: body(x)]. *)
Fixpoint io_foreach {A} (body : A -> io unit) (l : list A) : io unit :=
  match l with
  | [] => io_ret tt
  | x :: l' => body x ;;; io_foreach body l'
  end.

(** [for x in l: out.append(f(x))]. *)
Fixpoint io_map {A B} (f : A -> io B) (l : list A) : io (list B) :=
  match l with
  | [] => io_ret []
  | x :: l' => y <- f x ;; ys <- io_map f l' ;; io_ret (y :: ys)
  end.

(** [BASE_DIR] holds the script and is a directory. *)
Definition node_at (t : fs) (p : path) : option node :=
  match p with
  | [] => Some Dir
  | _ :: _ => t !! p
  end.

(** [p.exists()]. *)
Definition path_exists (p : path) : io bool :=
  fun t => (Ok (bool_decide (is_Some (node_at t p))), t).

(** [shutil.rmtree(p)]. *)
Definition rmtree (p : path) : io unit :=
  fun t =>
    match node_at t p with
    | Some Dir => (Ok tt, filter (fun kv => ~ p `prefix_of` kv.1) t)
    | Some (File _) => (Raised NotADirectoryError, t)
    | None => (Raised FileNotFoundError, t)
    end.

(** [p.mkdir(parents=True, exist_ok=True)] and
    [os.makedirs(p, exist_ok=True)]: [done] is the part of the path that
    exists as a directory already. *)
Fixpoint makedirs_from (done todo : path) (t : fs) : outcome unit * fs :=
  match todo with
  | [] => (Ok tt, t)
  | n :: todo' =>
      let d := done ++ [n] in
      match t !! d with
      | Some Dir => makedirs_from d todo' t
      | Some (File _) =>
          (Raised (match todo' with [] => FileExistsError | _ :: _ => NotADirectoryError end), t)
      | None => makedirs_from d todo' (<[d := Dir]> t)
      end
  end.

Definition mkdir_parents_exist_ok (p : path) : io unit := makedirs_from [] p.

(** [p.read_text(encoding=utf-8)]: the bytes are decoded strictly and
    the line ends translated. *)
Definition read_text (p : path) : io str :=
  fun t =>
    match node_at t p with
    | Some (File c) =>
        if utf8_text c then (Ok (universal_newlines c), t)
        else (Raised UnicodeDecodeError, t)
    | Some Dir => (Raised IsADirectoryError, t)
    | None => (Raised FileNotFoundError, t)
    end.

(** [p.write_text(content, encoding=utf-8)]: the file is created or
    truncated when it is opened, then the text is encoded and written;
    LF is written as it is.  A text that cannot be encoded leaves the
    file empty. *)
Definition write_text (p : path) (content : str) : io unit :=
  fun t =>
    match node_at t p with
    | Some Dir => (Raised IsADirectoryError, t)
    | _ =>
        match node_at t (parent p) with
        | Some Dir =>
            if utf8_text content then (Ok tt, <[p := File content]> t)
            else (Raised UnicodeEncodeError, <[p := File []]> t)
        | Some (File _) => (Raised NotADirectoryError, t)
        | None => (Raised FileNotFoundError, t)
        end
    end.

(** [shutil.copytree(src, dst, dirs_exist_ok=True)], for a source that
    lies outside the destination, as in both calls of the builder.  The
    entries of [src] are listed, the directories of [dst] are made, then
    every entry is copied and the errors are collected: the copy goes on
    after an error and [shutil.Error] is raised at the end.

    [rel] is the path of an entry below [src].  The entry is reached when
    every directory on the way to it was entered: it is a directory of the
    source and no file stands at its place in the destination. *)
Definition entered (src dst : path) (t t1 : fs) (rel : path) : bool :=
  forallb
    (fun i =>
       match t !! (src ++ take i rel), t1 !! (dst ++ take i rel) with
       | Some Dir, Some (File _) => false
       | Some Dir, _ => true
       | _, _ => false
       end)
    (seq 1 (length rel - 1)).

Inductive copy_step :=
  | Wrote (target : path) (n : node)
  | Failed.

(** One entry.  A directory is made at its place unless a file stands
    there ([os.makedirs] raises [FileExistsError]).  A file is copied by
    [copy2]: to its place, over the file that may stand there; or, when a
    directory stands at its place, into that directory under its own
    name, unless a directory stands there too ([IsADirectoryError]). *)
Definition copy_entry (dst : path) (t1 : fs) (rel : path) (n : node) : copy_step :=
  match n with
  | Dir =>
      match t1 !! (dst ++ rel) with
      | Some (File _) => Failed
      | _ => Wrote (dst ++ rel) Dir
      end
  | File c =>
      match t1 !! (dst ++ rel) with
      | Some Dir =>
          let inside := dst ++ rel ++ [name rel] in
          match t1 !! inside with
          | Some Dir => Failed
          | _ => Wrote inside (File c)
          end
      | _ => Wrote (dst ++ rel) (File c)
      end
  end.

Definition copy_steps (src dst : path) (t t1 : fs) : list copy_step :=
  map (fun kv => copy_entry dst t1 (drop (length src) kv.1) kv.2)
      (filter (fun kv => src `prefix_of` kv.1 /\ kv.1 <> src
                         /\ entered src dst t t1 (drop (length src) kv.1) = true)
              (map_to_list t)).

Definition written (steps : list copy_step) : fs :=
  list_to_map
    (omap (fun st => match st with Wrote k n => Some (k, n) | Failed => None end)
          steps).

Definition failed (steps : list copy_step) : bool :=
  existsb (fun st => match st with Failed => true | Wrote _ _ => false end) steps.

Definition copytree (src dst : path) : io unit :=
  fun t =>
    match node_at t src with
    | Some Dir =>
        match makedirs_from [] dst t with
        | (Ok _, t1) =>
            let steps := copy_steps src dst t t1 in
            if failed steps then (Raised ShutilError, written steps ∪ t1)
            else (Ok tt, written steps ∪ t1)
        | (Raised e, t1) => (Raised e, t1)
        end
    | Some (File _) => (Raised NotADirectoryError, t)
    | None => (Raised FileNotFoundError, t)
    end.

(** [dir.glob] with the pattern star-dot-md: the entries of [dir] whose
    name ends in [.md], in the order the system lists them; nothing when
    [dir] is no directory. *)
Definition is_md_child (dir p : path) : bool :=
  bool_decide (p = dir ++ [name p]) && endswith (name p) DOT_MD.

Definition glob_md (dir : path) : io (list path) :=
  fun t =>
    match node_at t dir with
    | Some Dir => (Ok (filter (fun p => is_md_child dir p = true) (map_to_list t).*1), t)
    | _ => (Ok [], t)
    end.

(** ** The builder *)

Definition clean_output_dir : io unit :=
  ex <- path_exists OUTPUT_DIR ;;
  (if ex then rmtree OUTPUT_DIR else io_ret tt) ;;;
  mkdir_parents_exist_ok OUTPUT_DIR ;;;
  mkdir_parents_exist_ok ASSETS_DIR.

Record Chapter := mkChapter {
  source : path;
  title : str;
  output_name : str
}.

Definition load_markdown (p : path) : io str := read_text p.

Definition write_file (p : path) (content : str) : io unit := write_text p content.

(** The body of both loops of [build_chapters]. *)
Definition chapter_of (md_file : path) : io Chapter :=
  text <- load_markdown md_file ;;
  io_ret (mkChapter md_file (extract_title text (stem md_file)) (stem md_file ++ DOT_HTML)).

Definition additional_dirs : list path :=
  [BASE_DIR ++ [lit "glossary"]; BASE_DIR ++ [lit "references"]].

Definition chapters_of_dir (dir_path : path) : io (list Chapter) :=
  md_files <- glob_md dir_path ;;
  io_map chapter_of (sorted md_files).

Definition build_chapters : io (list Chapter) :=
  ex <- path_exists CHAPTERS_DIR ;;
  if negb ex then io_raise FileNotFoundError
  else
    chapters <- chapters_of_dir CHAPTERS_DIR ;;
    more <- io_map (fun dir_path =>
                      ex <- path_exists dir_path ;;
                      if ex then chapters_of_dir dir_path else io_ret [])
                   additional_dirs ;;
    io_ret (chapters ++ concat more).

(** The stylesheet is written with the default encoding, that of the
    locale.  Its text is ASCII; the model writes it as UTF-8 and the
    other ASCII-compatible encodings do. *)
Definition copy_static_assets : io unit :=
  let source_assets := BASE_DIR ++ [lit "assets"] in
  ex <- path_exists source_assets ;;
  (if ex then copytree source_assets (ASSETS_DIR ++ [lit "uploads"]) else io_ret tt) ;;;
  let figures_dir := BASE_DIR ++ [lit "figures"] in
  ex <- path_exists figures_dir ;;
  (if ex then copytree figures_dir (ASSETS_DIR ++ [lit "figures"]) else io_ret tt) ;;;
  write_text (ASSETS_DIR ++ [lit "style.css"]) (strip STYLESHEET_TEXT).

Definition io_format (tpl : str) (args : list (str * str)) : io str :=
  match format tpl args with
  | Some page => io_ret page
  | None => io_raise FormatError
  end.

Definition SITE_TITLE : str := lit "貨幣論教科書".

Section Builder.

(** [markdown.markdown(text, extensions=MD_EXTENSIONS, output_format=html5)],
    the external renderer. *)
Variable markdown : str -> str.

Definition render_chapter (chapter : Chapter) (year : N) : io str :=
  md_text <- load_markdown (source chapter) ;;
  let html_body := markdown md_text in
  let html_body := convert_links html_body in
  io_format HTML_TEMPLATE
    [(lit "title", title chapter); (lit "nav", NAVIGATION_LINK);
     (lit "content", html_body); (lit "year", str_of_N year)].

Definition chapter_item (chapter : Chapter) : str :=
  lit "<li><a href=`" ++ output_name chapter ++ lit "`>" ++ title chapter
  ++ lit "</a></li>".

Definition render_index_from_readme (chapters : list Chapter) (year : N) : io str :=
  let readme_path := BASE_DIR ++ [lit "README.md"] in
  ex <- path_exists readme_path ;;
  if ex then
    readme_content <- load_markdown readme_path ;;
    let html_content := markdown readme_content in
    let html_content := convert_links html_content in
    io_format HTML_TEMPLATE
      [(lit "title", SITE_TITLE); (lit "nav", []);
       (lit "content", html_content); (lit "year", str_of_N year)]
  else
    let items_html := join (lit "
      ") (map chapter_item chapters) in
    io_format INDEX_TEMPLATE [(lit "items", items_html); (lit "year", str_of_N year)].

(** [main]; [year] is what [datetime.utcnow().year] returns during the
    run. *)
Definition main (year : N) : io unit :=
  ex <- path_exists CHAPTERS_DIR ;;
  if negb ex then io_raise SystemExit
  else
    clean_output_dir ;;;
    copy_static_assets ;;;
    chapters <- build_chapters ;;
    io_foreach (fun chapter =>
                  html <- render_chapter chapter year ;;
                  let target_path := OUTPUT_DIR ++ [output_name chapter] in
                  write_file target_path html)
               chapters ;;;
    index_html <- render_index_from_readme chapters year ;;
    write_file (OUTPUT_DIR ++ [lit "index.html"]) index_html.

End Builder.

(** ** The two patterns, read directly *)

(** What the engine computes on [TITLE_PATTERN] and on [LINK_PATTERN],
    written as functions on the text alone.  They are proved below to
    agree with the engine on every input, and the properties of the
    rewriting are established on them. *)

Fixpoint drop_while (p : N -> bool) (s : str) : str :=
  match s with
  | [] => []
  | c :: s' => if p c then drop_while p s' else s
  end.

(** The longest run of characters of a class at the head of [s], and
    what follows it. *)
Fixpoint span (cls : N -> bool) (s : str) : str * str :=
  match s with
  | [] => ([], [])
  | c :: s' =>
      if cls c then let '(run, rest) := span cls s' in (c :: run, rest)
      else ([], s)
  end.

(** What is left of [s] after a match of the title pattern at position
    0: one or more [#], a backslash, letters [s]. *)
Definition TITLE_PATTERN_match (s : str) : option str :=
  match s with
  | c :: s' =>
      if c =? HASH then
        match drop_while (N.eqb HASH) s' with
        | b :: t => if b =? BACKSLASH then Some (drop_while (N.eqb LETTER_s) t) else None
        | [] => None
        end
      else None
  | [] => None
  end.

(** The substitution of the empty string: the pattern matches at
    position 0 only, so there is at most one replacement. *)
Definition TITLE_PATTERN_sub_empty (s : str) : str :=
  match TITLE_PATTERN_match s with
  | Some rest => rest
  | None => s
  end.

(** The longest run of characters other than the double quote, and what
    follows it: the greedy run of group 2. *)
Fixpoint span_unquoted (s : str) : str * str :=
  match s with
  | [] => ([], [])
  | c :: s' =>
      if c =? DQ then ([], s)
      else let '(run, rest) := span_unquoted s' in (c :: run, rest)
  end.

(** [\.md], the optional group 2 and the closing quote at the head of
    [s]: group 2 and the rest of the input.  The run of group 2 stops
    only at a double quote or at the end of the input, hence giving
    characters back, or leaving the group out, finds no closing quote
    where the first try found none. *)
Definition match_md_tail (s : str) : option (option str * str) :=
  if startswith s DOT_MD then
    match drop 3 s with
    | c :: t =>
        if c =? HASH then
          match span_unquoted t with
          | (run, q :: rest) => Some (Some (HASH :: run), rest)
          | (_, []) => None
          end
        else if c =? DQ then Some (None, t)
        else None
    | [] => None
    end
  else None.

(** Group 1 followed by the tail.  The group is lazy: it takes one
    character, tries the tail, and takes one more character each time the
    tail fails.  [g] is what the group holds already. *)
Fixpoint match_group1 (g : str) (s : str) : option (str * option str * str) :=
  match s with
  | [] => None
  | c :: s' =>
      if c =? DQ then None
      else
        match match_md_tail s' with
        | Some (a, rest) => Some (g ++ [c], a, rest)
        | None => match_group1 (g ++ [c]) s'
        end
  end.

(** The match of the link pattern that starts at the head of [s], with
    the input that follows it. *)
Definition LINK_PATTERN_match (s : str) : option (Match * str) :=
  if startswith s HREF_OPEN then
    match match_group1 [] (drop 6 s) with
    | Some (g1, g2, rest) =>
        Some (mkMatch (HREF_OPEN ++ g1 ++ DOT_MD ++ text_of_group g2 ++ [DQ]) g1 g2,
              rest)
    | None => None
    end
  else None.

(** The scan of the link pattern.  A match is never empty, so
    [length s] steps are enough. *)
Fixpoint scan_steps (fuel : nat) (s : str) : list piece :=
  match fuel with
  | O => []
  | S fuel' =>
      match s with
      | [] => []
      | c :: s' =>
          match LINK_PATTERN_match s with
          | Some (m, rest) => Hit m :: scan_steps fuel' rest
          | None => Lit c :: scan_steps fuel' s'
          end
      end
  end.

Definition LINK_PATTERN_scan (s : str) : list piece := scan_steps (length s) s.


Definition LINK_PATTERN_sub (repl : Match -> str) (s : str) : str :=
  concat (map (piece_output repl) (LINK_PATTERN_scan s)).

(** [convert_links], on the direct reading of the pattern. *)
Definition rewritten (html : str) : str := LINK_PATTERN_sub _replace html.

(** What follows group 1 in [LINK_PATTERN]: [\.md], the optional group
    2 and the closing quote. *)
Definition LINK_PATTERN_tail : regex :=
  Seq (Chars DOT_MD)
      (Seq (Opt (Group 2 (Seq (Chars [HASH]) (Many unquoted 0 true))))
           (Chars [DQ])).

(** The groups after the tail matched with group 2 equal to [a]. *)
Definition with_group2 (a : option str) (c : captures) : captures :=
  match a with Some f => (2%nat, f) :: c | None => c end.

(** The continuation that ends a match started at [pos] on [s]. *)
Definition finish (pos : nat) (s : str) : nat -> str -> captures -> option (Match * str) :=
  fun pos' s' c =>
    Some (mkMatch (take (pos' - pos) s) (text_of_group (capture 1 c)) (capture 2 c), s').

(** ** Vocabulary of the statements *)

(** The value of an [href] attribute is the text between its quotes; it
    holds no double quote.  [tail_value w] is what [\.md], group 2 and the
    end of the value make of a remainder [w] of the value, and
    [parse_value v] is how the pattern splits a whole value: group 1 and
    group 2, group 1 as short as possible. *)
Definition tail_value (w : str) : option (option str) :=
  if startswith w DOT_MD then
    match drop 3 w with
    | [] => Some None
    | c :: f => if c =? HASH then Some (Some (c :: f)) else None
    end
  else None.

Fixpoint parse_value_from (g v : str) : option (str * option str) :=
  match v with
  | [] => None
  | c :: v' =>
      match tail_value v' with
      | Some a => Some (g ++ [c], a)
      | None => parse_value_from (g ++ [c]) v'
      end
  end.

Definition parse_value (v : str) : option (str * option str) :=
  parse_value_from [] v.

(** The match object of a value that the pattern splits into [g1] and
    [g2]. *)
Definition match_of (g1 : str) (g2 : option str) : Match :=
  mkMatch (HREF_OPEN ++ g1 ++ DOT_MD ++ text_of_group g2 ++ [DQ]) g1 g2.

(** An [href] whose group 1 starts with [http://] or [https://]. *)
Definition is_external (href : str) : bool :=
  startswith href (lit "http://") || startswith href (lit "https://").

(** The final segment of a path: what follows its last [/]. *)
Definition final_segment (href : str) : str :=
  default href (last (split SLASH href)).

(** An attribute [href=Q value Q], Q the double quote. *)
Definition href_attr (value : str) : str := HREF_OPEN ++ value ++ [DQ].

(** A text is settled when every [href=Q] that opens in it is closed in
    it by a later double quote: no attribute value is left open at its
    end. *)
Definition settled (pre : str) : Prop :=
  forall p q, pre = p ++ HREF_OPEN ++ q -> DQ ∈ q.

(** [needle in s] for strings. *)
Fixpoint has_sub (needle s : str) : bool :=
  startswith s needle ||
  match s with
  | [] => false
  | _ :: s' => has_sub needle s'
  end.


(** A match whose text is an attribute [href=Q g1 .md fragment Q]. *)
Definition link_shaped (m : Match) : Prop :=
  exists g1 frag,
    group0 m = href_attr (g1 ++ DOT_MD ++ frag)
    /\ g1 <> [] /\ (DQ ∉ g1)
    /\ (frag = [] \/ exists f, frag = HASH :: f /\ (DQ ∉ f)).

Definition piece_shaped (p : piece) : Prop :=
  match p with
  | Lit _ => True
  | Hit m => link_shaped m
  end.

(** A fragment identifier as it stands in a value: nothing, or [#] and
    characters other than the double quote. *)
Definition is_fragment (frag : str) : bool :=
  match frag with
  | [] => true
  | c :: f => (c =? HASH) && negb (contains_char DQ f)
  end.

(** Group 2 of a match whose fragment is [frag]. *)
Definition group_of (frag : str) : option str :=
  match frag with
  | [] => None
  | _ :: _ => Some frag
  end.

(** The computable form of [settled]: wherever [href=Q] starts, a double
    quote follows later. *)
Fixpoint settledb (s : str) : bool :=
  match s with
  | [] => true
  | _ :: s' =>
      (if startswith s HREF_OPEN then contains_char DQ (drop 6 s) else true)
      && settledb s'
  end.


(** The pages that [format] makes of the two templates: the text of the
    template with the values in the place of its fields. *)
Definition HTML_PAGE (title nav content year : str) : str :=
  lit "<!DOCTYPE html>
<html lang=`ja`>
<head>
  <meta charset=`utf-8` />
  <meta name=`viewport` content=`width=device-width, initial-scale=1` />
  <title>"
  ++ title
  ++ lit " | 貨幣論教科書</title>
  <link rel=`stylesheet` href=`assets/style.css` />
</head>
<body>
<header class=`site-header`>
  <h1><a href=`index.html`>貨幣論教科書</a></h1>
  <p class=`tagline`>古典から現代までの貨幣論を学ぶ</p>
</header>
<main class=`container`>
  "
  ++ nav
  ++ lit "
  <article class=`content`>
  "
  ++ content
  ++ lit "
  </article>
</main>
<footer class=`site-footer`>
  <p>&copy; "
  ++ year
  ++ lit " 貨幣論プロジェクト</p>
</footer>
</body>
</html>
".

Definition INDEX_PAGE (items year : str) : str :=
  lit "<!DOCTYPE html>
<html lang=`ja`>
<head>
  <meta charset=`utf-8` />
  <meta name=`viewport` content=`width=device-width, initial-scale=1` />
  <title>貨幣論教科書 | 章一覧</title>
  <link rel=`stylesheet` href=`assets/style.css` />
</head>
<body>
<header class=`site-header`>
  <h1>貨幣論教科書</h1>
  <p class=`tagline`>古典から現代までの貨幣論を学ぶ</p>
</header>
<main class=`container`>
  <section>
    <h2>章一覧</h2>
    <ul class=`chapter-list`>
      "
  ++ items
  ++ lit "
    </ul>
  </section>
</main>
<footer class=`site-footer`>
  <p>&copy; "
  ++ year
  ++ lit " 貨幣論プロジェクト</p>
</footer>
</body>
</html>
".

(** ** Vocabulary of the statements about trees *)

Definition GLOSSARY_DIR : path := BASE_DIR ++ [lit "glossary"].
Definition REFERENCES_DIR : path := BASE_DIR ++ [lit "references"].
Definition README_PATH : path := BASE_DIR ++ [lit "README.md"].
Definition INDEX_PATH : path := OUTPUT_DIR ++ [lit "index.html"].

Definition SOURCE_ASSETS : path := BASE_DIR ++ [lit "assets"].
Definition FIGURES_DIR : path := BASE_DIR ++ [lit "figures"].
Definition UPLOADS_TARGET : path := ASSETS_DIR ++ [lit "uploads"].
Definition FIGURES_TARGET : path := ASSETS_DIR ++ [lit "figures"].
Definition STYLESHEET_PATH : path := ASSETS_DIR ++ [lit "style.css"].

(** Where [copy2] puts the file of the entry [rel] when it copies into
    [dst]: at its place, or inside the directory that stands there. *)
Definition file_target (t : fs) (dst rel : path) : path :=
  match t !! (dst ++ rel) with
  | Some Dir => dst ++ rel ++ [name rel]
  | _ => dst ++ rel
  end.

(** The node [n] of the entry [rel] is in its place below [dst] in [t']
    after a copy that started on [t]. *)
Definition placed (t t' : fs) (dst rel : path) (n : node) : Prop :=
  match n with
  | Dir => t' !! (dst ++ rel) = Some Dir
  | File c => t' !! (file_target t dst rel) = Some (File c)
  end.

(** The entry [rel] of [src] is listed: every node on the way from [src]
    to it is a directory. *)
Definition listed (t : fs) (src rel : path) : Prop :=
  forall i, (1 <= i < length rel)%nat -> t !! (src ++ take i rel) = Some Dir.

(** A map is a tree when every node but [BASE_DIR] lies in a
    directory. *)
Definition tree (t : fs) : Prop :=
  map_Forall (fun p _ => p <> [] /\ node_at t (parent p) = Some Dir) t.

(** Two trees agree when they differ below [OUTPUT_DIR] only. *)
Definition agree (t s : fs) : Prop :=
  forall p, ~ OUTPUT_DIR `prefix_of` p -> t !! p = s !! p.

(** The tree that [clean_output_dir] leaves: nothing of the old output,
    and the two fresh directories. *)
Definition cleaned (t : fs) : fs :=
  <[ASSETS_DIR := Dir]>
    (<[OUTPUT_DIR := Dir]>
       (filter (fun kv => ~ OUTPUT_DIR `prefix_of` kv.1) t)).

(** The markdown files of one directory, in the order of discovery. *)
Definition listing (t : fs) (dir : path) : list path :=
  match node_at t dir with
  | Some Dir => sorted (filter (fun p => is_md_child dir p = true) (map_to_list t).*1)
  | _ => []
  end.

Definition discovered (t : fs) : list path :=
  listing t CHAPTERS_DIR ++ listing t GLOSSARY_DIR ++ listing t REFERENCES_DIR.

(** The file at [p] holds UTF-8 and reads as [text]. *)
Definition text_file (t : fs) (p : path) (text : str) : Prop :=
  exists content, node_at t p = Some (File content)
    /\ utf8_text content = true /\ text = universal_newlines content.

(** A text made of scalar values: one that UTF-8 can hold. *)
Definition scalars (s : str) : Prop := Forall (fun c => is_scalar c = true) s.

(** The node at [p] is a file whose bytes are UTF-8. *)
Definition utf8_file (t : fs) (p : path) : Prop :=
  exists content, t !! p = Some (File content) /\ utf8_text content = true.

(** The renderer returns text that can be encoded when it is given
    such a text. *)
Definition text_renderer (markdown : str -> str) : Prop :=
  forall s, utf8_text s = true -> utf8_text (markdown s) = true.

(** The record of the markdown file at [p]. *)
Definition chapter_at (t : fs) (p : path) (c : Chapter) : Prop :=
  exists text, text_file t p text
    /\ c = mkChapter p (extract_title text (stem p)) (stem p ++ DOT_HTML).

(** The order of file names, strict. *)
Definition name_lt (p q : path) : Prop := str_compare (name p) (name q) = Lt.

Section Pages.

Variable markdown : str -> str.

(** The page of a chapter whose source holds [text]. *)
Definition chapter_page (c : Chapter) (text : str) (year : N) : str :=
  HTML_PAGE (title c) NAVIGATION_LINK (convert_links (markdown text)) (str_of_N year).

Definition page_of (t : fs) (year : N) (c : Chapter) : option str :=
  match node_at t (source c) with
  | Some (File content) =>
      if utf8_text content then Some (chapter_page c (universal_newlines content) year)
      else None
  | _ => None
  end.

(** The tree after the pages of [chapters] are written, in order. *)
Definition write_pages (t : fs) (year : N) (chapters : list Chapter) (s : fs) : fs :=
  foldl (fun s c =>
           match page_of t year c with
           | Some page => <[OUTPUT_DIR ++ [output_name c] := File page]> s
           | None => s
           end) s chapters.

(** The index page made of the README, and the one made of the list of
    chapters. *)
Definition readme_page (readme : str) (year : N) : str :=
  HTML_PAGE SITE_TITLE [] (convert_links (markdown readme)) (str_of_N year).

Definition chapter_list_page (chapters : list Chapter) (year : N) : str :=
  INDEX_PAGE (join (lit "
      ") (map chapter_item chapters)) (str_of_N year).

End Pages.

(** A computation stays in [P] when it leaves every node at a path
    outside [P] as it was, whether it returns or raises. *)
Definition stays_in {A} (P : path -> Prop) (c : io A) : Prop :=
  forall t r t', c t = (r, t') -> forall q, ~ P q -> t' !! q = t !! q.

(** A computation that only reads. *)
Definition reads {A} (c : io A) : Prop := forall t, (c t).2 = t.

(** The paths on the way to [dst] and below it. *)
Definition around (dst : path) (q : path) : Prop :=
  (q <> [] /\ q `prefix_of` dst) \/ dst `prefix_of` q.

Section Build.

Variable markdown : str -> str.

(** What [main] does once the output directory is clean. *)
Definition staged_build (year : N) : io unit :=
  copy_static_assets ;;;
  chapters <- build_chapters ;;
  io_foreach (fun chapter =>
                html <- render_chapter markdown chapter year ;;
                let target_path := OUTPUT_DIR ++ [output_name chapter] in
                write_file target_path html)
             chapters ;;;
  index_html <- render_index_from_readme markdown chapters year ;;
  write_file (OUTPUT_DIR ++ [lit "index.html"]) index_html.

End Build.

(** ** A small tree for the examples *)

(** Two chapters, a glossary entry with the name of a chapter, an asset
    and the output of an earlier run; the renderer of the examples
    returns its input. *)
Definition sample_tree : fs :=
  list_to_map
    [ ([lit "chapters"], Dir);
      ([lit "chapters"; lit "b.md"], File (lit "# B
see <a href=`chapters/a.md#x`>a</a>"));
      ([lit "chapters"; lit "a.md"], File (lit "no heading here"));
      ([lit "glossary"], Dir);
      ([lit "glossary"; lit "a.md"], File (lit "## Terms"));
      ([lit "assets"], Dir);
      ([lit "assets"; lit "logo.svg"], File (lit "<svg/>"));
      ([lit "site"], Dir);
      ([lit "site"; lit "old.html"], File (lit "stale")) ].

(** The same tree with a directory named as a markdown file, with a
    directory in the place of the README, and with a file left below
    [assets/uploads] by an earlier run. *)
Definition sample_tree_entry_directory : fs :=
  <[[lit "chapters"; lit "c.md"] := Dir]> sample_tree.

Definition sample_tree_readme_directory : fs :=
  <[README_PATH := Dir]> sample_tree.

Definition sample_tree_uploads : fs :=
  <[UPLOADS_TARGET ++ [lit "keep.png"] := File (lit "png")]>
    (<[UPLOADS_TARGET := Dir]> (<[ASSETS_DIR := Dir]> sample_tree)).

Definition plain_markdown (text : str) : str := text.

Definition sample_site (year : N) : fs :=
  (main plain_markdown year sample_tree).2.


#[local] Set Warnings "-clear-no-such-hyp".
#[local] Arguments N.eqb : simpl never.

(** * Properties *)

(** ** Strings *)

Ltac case_eqb :=
  repeat match goal with
  | |- context [N.eqb ?a ?b] => destruct (N.eqb_spec a b); simplify_eq/=
  | H : context [N.eqb ?a ?b] |- _ => destruct (N.eqb_spec a b); simplify_eq/=
  end.

Lemma startswith_iff (s p : str) :
  startswith s p = true <-> exists t, s = p ++ t.
Proof.
  revert s. induction p as [|a p IH]; intros s; simpl.
  - split; [intros _; by exists s | done].
  - destruct s as [|b s]; simpl.
    + split; [done | intros [t Ht]; done].
    + rewrite andb_true_iff, IH, N.eqb_eq. split.
      * intros [-> [t ->]]. eauto.
      * intros [t Ht]. simplify_eq. eauto.
Qed.

Lemma startswith_app (p t : str) : startswith (p ++ t) p = true.
Proof. apply startswith_iff. eauto. Qed.

Lemma startswith_false (s p : str) :
  startswith s p = false <-> forall t, s <> p ++ t.
Proof.
  rewrite <-not_true_iff_false, startswith_iff. split.
  - intros H t Ht. apply H. eauto.
  - intros H [t Ht]. by apply (H t).
Qed.

Lemma contains_char_iff (c : N) (s : str) :
  contains_char c s = true <-> c ∈ s.
Proof.
  unfold contains_char. rewrite existsb_exists. split.
  - intros [x [Hx Heq]]. apply N.eqb_eq in Heq as ->. by apply list_elem_of_In.
  - intros H. exists c. split; [by apply list_elem_of_In | apply N.eqb_refl].
Qed.

Lemma contains_char_false (c : N) (s : str) :
  contains_char c s = false <-> c ∉ s.
Proof. rewrite <-not_true_iff_false, contains_char_iff. done. Qed.

(** ** The pattern on one attribute *)

Lemma span_unquoted_app (w rest : str) :
  DQ ∉ w -> span_unquoted (w ++ DQ :: rest) = (w, DQ :: rest).
Proof.
  induction w as [|c w IH]; intros Hw; simpl.
  - done.
  - apply not_elem_of_cons in Hw as [Hc Hw].
    destruct (N.eqb_spec c DQ); [done|]. by rewrite IH.
Qed.

Lemma span_unquoted_unquoted (s : str) :
  DQ ∉ s -> span_unquoted s = (s, []).
Proof.
  induction s as [|c s IH]; intros Hs; simpl; [done|].
  apply not_elem_of_cons in Hs as [Hc Hs].
  destruct (N.eqb_spec c DQ); [done|]. by rewrite IH.
Qed.

Lemma match_md_tail_value (w rest : str) :
  DQ ∉ w ->
  match_md_tail (w ++ DQ :: rest) = (fun a => (a, rest)) <$> tail_value w.
Proof.
  intros Hw. unfold match_md_tail, tail_value.
  destruct w as [|c1 [|c2 [|c3 w]]]; simpl; case_eqb; try done.
  repeat (apply not_elem_of_cons in Hw as [? Hw]).
  destruct w as [|c f]; simpl; case_eqb; try done.
  - apply not_elem_of_cons in Hw as [Hc Hf]. by rewrite span_unquoted_app.
  - set_solver.
Qed.

Lemma match_md_tail_unquoted (s : str) :
  DQ ∉ s -> match_md_tail s = None.
Proof.
  intros Hs. unfold match_md_tail.
  destruct (startswith s DOT_MD) eqn:Hp; [|done].
  apply startswith_iff in Hp as [t ->].
  change (drop 3 (DOT_MD ++ t)) with t.
  assert (DQ ∉ t) as Ht by (intros Hin; apply Hs; set_solver).
  destruct t as [|c t]; [done|].
  apply not_elem_of_cons in Ht as [Hc Ht].
  destruct (c =? HASH).
  - by rewrite span_unquoted_unquoted.
  - destruct (N.eqb_spec c DQ); done.
Qed.

Lemma match_group1_value (g v rest : str) :
  DQ ∉ v ->
  match_group1 g (v ++ DQ :: rest)
  = (fun r => (r.1, r.2, rest)) <$> parse_value_from g v.
Proof.
  revert g. induction v as [|c v IH]; intros g Hv; simpl.
  - done.
  - apply not_elem_of_cons in Hv as [Hc Hv].
    destruct (N.eqb_spec c DQ); [done|].
    rewrite match_md_tail_value by done.
    destruct (tail_value v) as [a|]; simpl; [done|].
    by apply IH.
Qed.

Lemma match_group1_unquoted (g s : str) :
  DQ ∉ s -> match_group1 g s = None.
Proof.
  revert g. induction s as [|c s IH]; intros g Hs; simpl; [done|].
  apply not_elem_of_cons in Hs as [Hc Hs].
  destruct (N.eqb_spec c DQ); [done|].
  rewrite match_md_tail_unquoted by done. by apply IH.
Qed.

(** Group 1 of a match is never empty, holds no quote, and with [.md]
    and group 2 it makes up the whole value. *)
Lemma tail_value_Some (w : str) (a : option str) :
  tail_value w = Some a ->
  w = DOT_MD ++ text_of_group a
  /\ (a = None \/ exists f, a = Some (HASH :: f)).
Proof.
  unfold tail_value. destruct (startswith w DOT_MD) eqn:Hp; [|done].
  apply startswith_iff in Hp as [t ->].
  change (drop 3 (DOT_MD ++ t)) with t.
  destruct t as [|c f].
  - intros [= <-]. split; [done | by left].
  - destruct (N.eqb_spec c HASH) as [->|]; [|done].
    intros [= <-]. split; [done | right; eauto].
Qed.

Lemma parse_value_from_Some (g v g1 : str) (a : option str) :
  parse_value_from g v = Some (g1, a) ->
  exists g', g1 = g ++ g' /\ g' <> [] /\ v = g' ++ DOT_MD ++ text_of_group a
    /\ (a = None \/ exists f, a = Some (HASH :: f))
    /\ (forall h k, g' = h ++ k -> h <> [] -> k <> [] ->
          tail_value (k ++ DOT_MD ++ text_of_group a) = None).
Proof.
  revert g. induction v as [|c v IH]; intros g; simpl; [done|].
  destruct (tail_value v) as [a'|] eqn:Ht.
  - intros [= <- <-]. apply tail_value_Some in Ht as [-> Ha].
    exists [c]. repeat split; try done.
    intros h k Hhk Hh Hk. destruct h as [|x [|y h]]; simplify_eq/=; done.
  - intros H. apply IH in H as (g' & -> & Hg' & -> & Ha & Hmin).
    exists (c :: g'). rewrite <-app_assoc. repeat split; try done.
    intros h k Hhk Hh Hk. destruct h as [|x h]; [done|]. simplify_eq/=.
    destruct h as [|y h].
    + simpl in *. done.
    + by apply (Hmin (y :: h) k).
Qed.


Lemma parse_value_Some_eq (v g1 : str) (g2 : option str) :
  parse_value v = Some (g1, g2) -> v = g1 ++ DOT_MD ++ text_of_group g2.
Proof. by intros (g' & -> & _ & -> & _)%parse_value_from_Some. Qed.

Lemma match_of_group0 (v g1 : str) (g2 : option str) :
  parse_value v = Some (g1, g2) -> group0 (match_of g1 g2) = href_attr v.
Proof.
  intros ->%parse_value_Some_eq. unfold href_attr. simpl.
  by rewrite <-!app_assoc.
Qed.

Lemma LINK_PATTERN_match_attr (v rest : str) :
  DQ ∉ v ->
  LINK_PATTERN_match (href_attr v ++ rest)
  = (fun r => (match_of r.1 r.2, rest)) <$> parse_value v.
Proof.
  intros Hv. unfold LINK_PATTERN_match, href_attr, parse_value.
  rewrite <-!app_assoc, startswith_app.
  change (drop 6 (HREF_OPEN ++ ?t)) with t. simpl.
  rewrite match_group1_value by done.
  by destruct (parse_value_from [] v) as [[g1 g2]|].
Qed.

Lemma LINK_PATTERN_match_open (t : str) :
  DQ ∉ t -> LINK_PATTERN_match (HREF_OPEN ++ t) = None.
Proof.
  intros Ht. unfold LINK_PATTERN_match. rewrite startswith_app.
  change (drop 6 (HREF_OPEN ++ t)) with t.
  by rewrite match_group1_unquoted.
Qed.

Lemma LINK_PATTERN_match_Some (s : str) (m : Match) (rest : str) :
  LINK_PATTERN_match s = Some (m, rest) ->
  exists v g1 g2, (DQ ∉ v) /\ s = href_attr v ++ rest
    /\ parse_value v = Some (g1, g2)
    /\ m = match_of g1 g2.
Proof.
  intros H.
  assert (exists t, s = HREF_OPEN ++ t) as [t ->].
  { apply startswith_iff. unfold LINK_PATTERN_match in H.
    by destruct (startswith s HREF_OPEN). }
  destruct (decide (DQ ∈ t)) as [Hin|Hout].
  - apply list_elem_of_split_l in Hin as (v & r & -> & Hv).
    assert (HREF_OPEN ++ v ++ DQ :: r = href_attr v ++ r) as Heq.
    { unfold href_attr. by rewrite <-!app_assoc. }
    rewrite Heq in H. rewrite LINK_PATTERN_match_attr in H by done.
    destruct (parse_value v) as [[g1 g2]|] eqn:Hp; simplify_eq/=.
    exists v, g1, g2. by rewrite <-Heq.
  - by rewrite LINK_PATTERN_match_open in H.
Qed.

Lemma href_attr_length (v : str) : length (href_attr v) = (length v + 7)%nat.
Proof. unfold href_attr. rewrite !length_app. simpl. lia. Qed.

Lemma LINK_PATTERN_match_shorter (s : str) (m : Match) (rest : str) :
  LINK_PATTERN_match s = Some (m, rest) -> (length rest < length s)%nat.
Proof.
  intros (v & g1 & g2 & _ & -> & _)%LINK_PATTERN_match_Some.
  rewrite length_app, href_attr_length. lia.
Qed.

(** ** The scan *)

Lemma scan_steps_fuel (fuel1 fuel2 : nat) (s : str) :
  (length s <= fuel1)%nat -> (length s <= fuel2)%nat ->
  scan_steps fuel1 s = scan_steps fuel2 s.
Proof.
  revert fuel2 s. induction fuel1 as [|f1 IH]; intros fuel2 s H1 H2.
  - destruct s; [|simpl in H1; lia]. by destruct fuel2.
  - destruct fuel2 as [|f2]; [destruct s; [done | simpl in H2; lia]|].
    destruct s as [|c s]; [done|]. simpl in *.
    destruct (LINK_PATTERN_match (c :: s)) as [[m rest]|] eqn:Hm.
    + apply LINK_PATTERN_match_shorter in Hm. simpl in Hm.
      f_equal. apply IH; lia.
    + f_equal. apply IH; lia.
Qed.

Lemma scan_nil : LINK_PATTERN_scan [] = [].
Proof. done. Qed.

Lemma scan_hit (s : str) (m : Match) (rest : str) :
  LINK_PATTERN_match s = Some (m, rest) ->
  LINK_PATTERN_scan s = Hit m :: LINK_PATTERN_scan rest.
Proof.
  intros Hm. unfold LINK_PATTERN_scan.
  pose proof (LINK_PATTERN_match_shorter _ _ _ Hm) as Hlen.
  destruct s as [|c s]; [simpl in Hlen; lia|].
  simpl. rewrite Hm. f_equal. simpl in Hlen. apply scan_steps_fuel; lia.
Qed.

Lemma scan_miss (c : N) (s : str) :
  LINK_PATTERN_match (c :: s) = None ->
  LINK_PATTERN_scan (c :: s) = Lit c :: LINK_PATTERN_scan s.
Proof. intros Hm. unfold LINK_PATTERN_scan. simpl. by rewrite Hm. Qed.

(** Induction along the scan. *)
Lemma scan_ind (P : str -> Prop) :
  P [] ->
  (forall c s, LINK_PATTERN_match (c :: s) = None -> P s -> P (c :: s)) ->
  (forall s m rest, LINK_PATTERN_match s = Some (m, rest) -> P rest -> P s) ->
  forall s, P s.
Proof.
  intros Hnil Hmiss Hhit s.
  induction s as [s IH] using (induction_ltof1 _ (@length N)).
  unfold ltof in IH. destruct s as [|c s]; [done|].
  destruct (LINK_PATTERN_match (c :: s)) as [[m rest]|] eqn:Hm.
  - eapply Hhit; [done|]. apply IH. by eapply LINK_PATTERN_match_shorter.
  - apply Hmiss; [done|]. apply IH. simpl. lia.
Qed.

Lemma sub_nil (repl : Match -> str) : LINK_PATTERN_sub repl [] = [].
Proof. done. Qed.

Lemma sub_hit (repl : Match -> str) (s : str) (m : Match) (rest : str) :
  LINK_PATTERN_match s = Some (m, rest) ->
  LINK_PATTERN_sub repl s = repl m ++ LINK_PATTERN_sub repl rest.
Proof. intros Hm. unfold LINK_PATTERN_sub. by rewrite (scan_hit _ _ _ Hm). Qed.

Lemma sub_miss (repl : Match -> str) (c : N) (s : str) :
  LINK_PATTERN_match (c :: s) = None ->
  LINK_PATTERN_sub repl (c :: s) = c :: LINK_PATTERN_sub repl s.
Proof. intros Hm. unfold LINK_PATTERN_sub. by rewrite (scan_miss _ _ Hm). Qed.

(** The pieces of the scan make up the input. *)
Lemma scan_source (s : str) :
  concat (map piece_source (LINK_PATTERN_scan s)) = s.
Proof.
  induction s as [|c s Hm IH|s m rest Hm IH] using scan_ind.
  - done.
  - rewrite (scan_miss _ _ Hm). simpl. by rewrite IH.
  - rewrite (scan_hit _ _ _ Hm). simpl. rewrite IH.
    apply LINK_PATTERN_match_Some in Hm as (v & g1 & g2 & Hv & -> & Hp & ->).
    by rewrite (match_of_group0 v).
Qed.

(** ** The replacement *)

Lemma split_from_plain (sep : N) (cur s : str) :
  sep ∉ s -> split_from sep cur s = [cur ++ s].
Proof.
  revert cur. induction s as [|c s IH]; intros cur Hs; simpl.
  - by rewrite app_nil_r.
  - apply not_elem_of_cons in Hs as [Hc Hs].
    destruct (N.eqb_spec c sep); [done|].
    rewrite IH by done. by rewrite <-app_assoc.
Qed.

Lemma split_from_snoc (sep : N) (cur a b : str) :
  sep ∉ b -> exists l, split_from sep cur (a ++ sep :: b) = l ++ [b].
Proof.
  intros Hb. revert cur. induction a as [|c a IH]; intros cur; simpl.
  - rewrite N.eqb_refl, split_from_plain by done. by exists [cur].
  - destruct (c =? sep).
    + destruct (IH []) as [l ->]. by exists (cur :: l).
    + apply IH.
Qed.

Lemma final_segment_plain (href : str) :
  SLASH ∉ href -> final_segment href = href.
Proof.
  intros H. unfold final_segment, split. by rewrite split_from_plain.
Qed.

(** The final segment is what follows the last [/]. *)
Lemma final_segment_dirs (dirs seg : str) :
  SLASH ∉ seg -> final_segment (dirs ++ SLASH :: seg) = seg.
Proof.
  intros H. unfold final_segment, split.
  destruct (split_from_snoc SLASH [] dirs seg H) as [l ->].
  by rewrite last_snoc.
Qed.

Lemma text_of_group_of (frag : str) : text_of_group (group_of frag) = frag.
Proof. by destruct frag. Qed.

(** The replacement of a match that is not external. *)
Lemma _replace_internal (g1 : str) (g2 : option str) :
  is_external g1 = false ->
  _replace (match_of g1 g2)
  = href_attr (final_segment
                 (if startswith g1 (lit "chapters/") then drop 9 g1 else g1)
               ++ DOT_HTML ++ text_of_group g2).
Proof.
  unfold _replace, is_external. simpl group1. simpl group2. intros ->.
  assert (match g2 with
          | Some a => match a with [] => [] | _ :: _ => a end
          | None => []
          end = text_of_group g2) as -> by (by destruct g2 as [[|]|]).
  set (href := if startswith g1 (lit "chapters/") then drop 9 g1 else g1).
  assert ((if contains_char SLASH href
           then default href (last (split SLASH href)) else href)
          = final_segment href) as ->.
  { destruct (contains_char SLASH href) eqn:Hs; [done|].
    apply contains_char_false in Hs. by rewrite final_segment_plain. }
  unfold href_attr. by rewrite <-!app_assoc.
Qed.

Lemma _replace_external (g1 : str) (g2 : option str) :
  is_external g1 = true ->
  _replace (match_of g1 g2) = group0 (match_of g1 g2).
Proof. unfold _replace, is_external. simpl group1. by intros ->. Qed.

(** ** A value made of a path, [.md] and a fragment *)

Lemma tail_value_fragment (frag : str) :
  is_fragment frag = true -> tail_value (DOT_MD ++ frag) = Some (group_of frag).
Proof.
  unfold tail_value. rewrite startswith_app.
  change (drop 3 (DOT_MD ++ frag)) with frag.
  destruct frag as [|c f]; [done|]. simpl.
  intros [->%N.eqb_eq _]%andb_true_iff. done.
Qed.

Lemma tail_value_inside (c : N) (p frag : str) :
  HASH ∉ c :: p -> tail_value ((c :: p) ++ DOT_MD ++ frag) = None.
Proof.
  intros Hp. unfold tail_value.
  destruct p as [|c2 [|c3 [|c4 p]]]; simpl; case_eqb; try done.
  set_solver.
Qed.

Lemma parse_value_from_path (g path frag : str) :
  path <> [] -> HASH ∉ path -> is_fragment frag = true ->
  parse_value_from g (path ++ DOT_MD ++ frag) = Some (g ++ path, group_of frag).
Proof.
  intros Hne Hh Hf. revert g.
  induction path as [|c p IH]; intros g; [done|].
  change ((c :: p) ++ DOT_MD ++ frag) with (c :: (p ++ DOT_MD ++ frag)).
  cbn [parse_value_from]. destruct p as [|c' p].
  - change ([] ++ DOT_MD ++ frag) with (DOT_MD ++ frag).
    by rewrite tail_value_fragment.
  - rewrite tail_value_inside by set_solver.
    rewrite IH; [|done|set_solver]. by rewrite <-app_assoc.
Qed.

Lemma parse_value_path (path frag : str) :
  path <> [] -> HASH ∉ path -> is_fragment frag = true ->
  parse_value (path ++ DOT_MD ++ frag) = Some (path, group_of frag).
Proof. intros. unfold parse_value. by rewrite parse_value_from_path. Qed.

Lemma is_fragment_unquoted (frag : str) :
  is_fragment frag = true -> DQ ∉ frag.
Proof.
  destruct frag as [|c f]; [set_solver|]. simpl.
  intros [->%N.eqb_eq Hf%negb_true_iff]%andb_true_iff.
  apply contains_char_false in Hf. apply not_elem_of_cons. done.
Qed.

(** The match at an attribute whose value is a path, [.md] and a
    fragment. *)
Lemma LINK_PATTERN_match_path (path frag rest : str) :
  path <> [] -> DQ ∉ path -> HASH ∉ path -> is_fragment frag = true ->
  LINK_PATTERN_match (href_attr (path ++ DOT_MD ++ frag) ++ rest)
  = Some (match_of path (group_of frag), rest).
Proof.
  intros Hne Hq Hh Hf. rewrite LINK_PATTERN_match_attr.
  - by rewrite parse_value_path.
  - pose proof (is_fragment_unquoted _ Hf). set_solver.
Qed.

(** ** Attributes in their context *)


Lemma settled_suffix (a b : str) : settled (a ++ b) -> settled b.
Proof.
  intros H p q ->. apply (H (a ++ p) q). by rewrite <-app_assoc.
Qed.


(** A text that does not start with [href=Q] does not come to start with
    it when an attribute is put after it. *)
Lemma startswith_before_attr (pre t : str) :
  pre <> [] -> startswith pre HREF_OPEN = false ->
  startswith (pre ++ HREF_OPEN ++ t) HREF_OPEN = false.
Proof.
  intros Hne Hp.
  destruct pre as [|c1 [|c2 [|c3 [|c4 [|c5 [|c6 pre]]]]]];
    simpl in *; case_eqb; done.
Qed.

(** What follows a settled text does not change the match at its head. *)
Lemma LINK_PATTERN_match_settled (pre t : str) :
  pre <> [] -> settled pre ->
  LINK_PATTERN_match (pre ++ HREF_OPEN ++ t)
  = (fun r => (r.1, r.2 ++ HREF_OPEN ++ t)) <$> LINK_PATTERN_match pre.
Proof.
  intros Hne Hs.
  destruct (startswith pre HREF_OPEN) eqn:Hp.
  - apply startswith_iff in Hp as [q ->].
    pose proof (Hs [] q eq_refl) as Hin.
    apply list_elem_of_split_l in Hin as (v & r & -> & Hv).
    assert (HREF_OPEN ++ v ++ DQ :: r = href_attr v ++ r) as ->.
    { unfold href_attr. by rewrite <-!app_assoc. }
    rewrite <-app_assoc, !LINK_PATTERN_match_attr by done.
    by destruct (parse_value v) as [[g1 g2]|].
  - unfold LINK_PATTERN_match.
    by rewrite Hp, startswith_before_attr.
Qed.

Lemma sub_settled (repl : Match -> str) (pre t : str) :
  settled pre ->
  LINK_PATTERN_sub repl (pre ++ HREF_OPEN ++ t)
  = LINK_PATTERN_sub repl pre ++ LINK_PATTERN_sub repl (HREF_OPEN ++ t).
Proof.
  induction pre as [|c s Hm IH|s m rest Hm IH] using scan_ind; intros Hs.
  - done.
  - rewrite (sub_miss _ _ _ Hm).
    change ((c :: s) ++ HREF_OPEN ++ t) with (c :: (s ++ HREF_OPEN ++ t)).
    rewrite sub_miss.
    + rewrite IH; [done|]. by apply (settled_suffix [c]).
    + change (c :: (s ++ HREF_OPEN ++ t)) with ((c :: s) ++ HREF_OPEN ++ t).
      by rewrite LINK_PATTERN_match_settled, Hm.
  - rewrite (sub_hit _ _ _ _ Hm).
    assert (s <> []) as Hne by (intros ->; done).
    rewrite (sub_hit _ _ m (rest ++ HREF_OPEN ++ t)).
    + rewrite <-app_assoc. f_equal. apply IH.
      apply LINK_PATTERN_match_Some in Hm as (v & g1 & g2 & _ & -> & _).
      by eapply settled_suffix.
    + by rewrite LINK_PATTERN_match_settled, Hm.
Qed.

(** An attribute that starts after a settled text is rewritten on its
    own: the text before it and the text after it are rewritten as if
    they stood alone. *)
Lemma rewritten_attr (pre path frag post : str) :
  settled pre ->
  path <> [] -> DQ ∉ path -> HASH ∉ path -> is_fragment frag = true ->
  rewritten (pre ++ href_attr (path ++ DOT_MD ++ frag) ++ post)
  = rewritten pre ++ _replace (match_of path (group_of frag))
    ++ rewritten post.
Proof.
  intros Hs Hne Hq Hh Hf. unfold rewritten.
  assert (href_attr (path ++ DOT_MD ++ frag) ++ post
          = HREF_OPEN ++ (path ++ DOT_MD ++ frag) ++ DQ :: post) as Heq.
  { unfold href_attr. by rewrite <-!app_assoc. }
  rewrite Heq, sub_settled, <-Heq by done. f_equal.
  apply sub_hit. by apply LINK_PATTERN_match_path.
Qed.

Lemma settledb_settled (pre : str) : settledb pre = true -> settled pre.
Proof.
  intros H p. revert pre H. induction p as [|c p IH]; intros pre H q ->.
  - simpl in H. apply andb_true_iff in H as [H _].
    apply contains_char_iff in H. done.
  - simpl in H. apply andb_true_iff in H as [_ H]. by eapply IH.
Qed.

Lemma endswith_iff (s suffix : str) :
  endswith s suffix = true <-> exists p, s = p ++ suffix.
Proof.
  unfold endswith. rewrite startswith_iff. split.
  - intros [t Ht]. exists (rev t).
    by rewrite <-(rev_involutive s), Ht, rev_app_distr, rev_involutive.
  - intros [p ->]. exists (rev p). by rewrite rev_app_distr.
Qed.



(** ** Rewriting twice *)

Lemma LINK_PATTERN_match_quote (r : str) : LINK_PATTERN_match (DQ :: r) = None.
Proof. done. Qed.







Lemma final_segment_suffix (r : str) : exists p, r = p ++ final_segment r.
Proof.
  destruct (decide (SLASH ∈ r)) as [Hin|Hout].
  - apply list_elem_of_split_r in Hin as (dirs & seg & -> & Hseg).
    rewrite final_segment_dirs by done. exists (dirs ++ [SLASH]).
    by rewrite <-app_assoc.
  - rewrite final_segment_plain by done. by exists [].
Qed.











Lemma scan_shaped (s : str) : Forall piece_shaped (LINK_PATTERN_scan s).
Proof.
  induction s as [|c s Hm IH|s m rest Hm IH] using scan_ind.
  - constructor.
  - rewrite (scan_miss _ _ Hm). by constructor.
  - rewrite (scan_hit _ _ _ Hm). constructor; [|done].
    apply LINK_PATTERN_match_Some in Hm as (v & g1 & g2 & Hq & _ & Hp & ->).
    pose proof (match_of_group0 _ _ _ Hp) as H0.
    pose proof (parse_value_Some_eq _ _ _ Hp) as Hv.
    apply parse_value_from_Some in Hp as (g' & Hg' & Hne & _ & Ha & _).
    simpl in Hg'. subst g'. rewrite Hv in Hq.
    exists g1, (text_of_group g2). rewrite H0, Hv.
    repeat split; [done|set_solver|].
    destruct Ha as [->|[f ->]]; [by left|right].
    exists f. split; [done|]. simpl in Hq. set_solver.
Qed.

(** ** The engine on the two patterns *)

Lemma span_app (cls : N -> bool) (s : str) :
  s = (span cls s).1 ++ (span cls s).2.
Proof.
  induction s as [|x s IH]; simpl; [done|].
  destruct (cls x); [|done].
  destruct (span cls s) as [run rest]. simpl in *. by f_equal.
Qed.

Lemma span_stop (cls : N -> bool) (s : str) (x : N) (t : str) :
  (span cls s).2 = x :: t -> cls x = false.
Proof.
  induction s as [|y s IH]; simpl; [done|].
  destruct (cls y) eqn:Hy.
  - destruct (span cls s) as [run rest]. exact IH.
  - by intros [= -> _].
Qed.

Lemma drop_while_span (cls : N -> bool) (s : str) :
  drop_while cls s = (span cls s).2.
Proof.
  induction s as [|x s IH]; simpl; [done|].
  destruct (cls x); [|done]. by destruct (span cls s).
Qed.

Lemma span_unquoted_span (s : str) : span_unquoted s = span unquoted s.
Proof.
  induction s as [|x s IH]; simpl; [done|]. unfold unquoted at 1.
  destruct (x =? DQ); simpl; [done|]. by rewrite IH.
Qed.

(** A greedy run followed by something that cannot start with a
    character of the class: the run is the longest one, since giving
    characters back leaves one of them at the head. *)
Lemma many_greedy_stop {R : Type} (cls : N -> bool) (least pos : nat) (s : str)
    (c : captures) (k : nat -> str -> captures -> option R) :
  (forall x s' pos' c', cls x = true -> k pos' (x :: s') c' = None) ->
  many_greedy cls least pos s c k
  = if bool_decide (least <= length (span cls s).1)%nat
    then k (pos + length (span cls s).1)%nat (span cls s).2 c
    else None.
Proof.
  intros Hk. revert least pos.
  induction s as [|x s IH]; intros least pos; simpl.
  - destruct least; simpl; [|done]. by rewrite Nat.add_0_r.
  - destruct (cls x) eqn:Hx.
    + rewrite IH. destruct (span cls s) as [run rest]. simpl.
      replace (pos + S (length run))%nat with (S pos + length run)%nat by lia.
      destruct least as [|n]; simpl.
      * rewrite (Hk _ _ _ _ Hx).
        by destruct (k (S (pos + length run)) rest c).
      * rewrite (bool_decide_ext (n <= length run)%nat (S n <= S (length run))%nat)
          by lia.
        destruct (bool_decide (S n <= S (length run))%nat); [|done].
        by destruct (k (S (pos + length run)) rest c).
    + destruct least; simpl; [|done]. by rewrite Nat.add_0_r.
Qed.

(** A greedy run followed by something that always matches. *)
Lemma many_greedy_total {R : Type} (cls : N -> bool) (pos : nat) (s : str)
    (c : captures) (k : nat -> str -> captures -> option R) :
  (forall pos' s' c', is_Some (k pos' s' c')) ->
  many_greedy cls 0 pos s c k
  = k (pos + length (span cls s).1)%nat (span cls s).2 c.
Proof.
  intros Hk. revert pos.
  induction s as [|x s IH]; intros pos; simpl.
  - by rewrite Nat.add_0_r.
  - destruct (cls x) eqn:Hx.
    + rewrite IH. destruct (span cls s) as [run rest]. simpl.
      replace (pos + S (length run))%nat with (S pos + length run)%nat by lia.
      simpl. by destruct (Hk (S (pos + length run))%nat rest c) as [r ->].
    + by rewrite Nat.add_0_r.
Qed.

(** A lazy run whose rest fails takes one more character. *)
Lemma many_lazy_next {R : Type} (cls : N -> bool) (pos : nat) (s : str)
    (c : captures) (k : nat -> str -> captures -> option R) :
  k pos s c = None ->
  many_lazy cls 0 pos s c k = many_lazy cls 1 pos s c k.
Proof. intros Hk. destruct s; simpl; by rewrite Hk. Qed.

(** *** The link pattern *)

Lemma startswith_single (s : str) (x : N) :
  startswith s [x] = match s with y :: _ => y =? x | [] => false end.
Proof.
  destruct s as [|y s]; simpl; [done|]. rewrite andb_true_r. apply N.eqb_sym.
Qed.

Lemma run_LINK_PATTERN_tail {R : Type} (pos : nat) (s : str) (c : captures)
    (k : nat -> str -> captures -> option R) :
  run LINK_PATTERN_tail pos s c k
  = match match_md_tail s with
    | Some (a, rest) =>
        k (pos + 3 + length (text_of_group a) + 1)%nat rest (with_group2 a c)
    | None => None
    end.
Proof.
  unfold LINK_PATTERN_tail, match_md_tail. cbn [run].
  destruct (startswith s DOT_MD) eqn:Hp; [|done].
  apply startswith_iff in Hp as [t ->].
  change (drop (length DOT_MD) (DOT_MD ++ t)) with t.
  change (drop 3 (DOT_MD ++ t)) with t.
  change (length DOT_MD) with 3%nat.
  rewrite !startswith_single.
  destruct t as [|x t]; [done|].
  destruct (N.eqb_spec x HASH) as [->|Hx].
  - change (drop (length [HASH]) (HASH :: t)) with t.
    rewrite many_greedy_stop.
    2:{ intros y s' pos' c' Hy. cbn [run]. rewrite startswith_single.
        unfold unquoted in Hy. by destruct (y =? DQ). }
    rewrite span_unquoted_span.
    pose proof (span_app unquoted t) as Ht.
    pose proof (span_stop unquoted t) as Hstop.
    destruct (span unquoted t) as [run rest]. simpl in *.
    destruct rest as [|q rest]; [done|].
    specialize (Hstop q rest eq_refl). unfold unquoted in Hstop.
    rewrite (N.eqb_sym DQ q). destruct (N.eqb_spec q DQ) as [->|]; [|done].
    simpl.
    replace (pos + 3 + 1 + length run - (pos + 3))%nat
      with (S (length run)) by lia.
    replace (pos + 3 + 1 + length run + 1)%nat
      with (pos + 3 + S (length run) + 1)%nat by lia.
    rewrite Ht. simpl. rewrite take_app_length, drop_0.
    by destruct (k _ rest _).
  - destruct (N.eqb_spec x DQ) as [->|]; [|done].
    change (drop (length [DQ]) (DQ :: t)) with t. simpl.
    by rewrite Nat.add_0_r.
Qed.

Lemma run_group1 {R : Type} (p0 : nat) (s1 : str) (c0 : captures)
    (k : nat -> str -> captures -> option R) (s g : str) :
  (forall pos' s' c', is_Some (k pos' s' c')) ->
  s1 = g ++ s ->
  many_lazy unquoted 1 (p0 + length g)%nat s c0
    (fun pos' s' c' =>
       run LINK_PATTERN_tail pos' s' ((1%nat, take (pos' - p0) s1) :: c') k)
  = match match_group1 g s with
    | Some (g1, a, rest) =>
        k (p0 + length g1 + 3 + length (text_of_group a) + 1)%nat rest
          (with_group2 a ((1%nat, g1) :: c0))
    | None => None
    end.
Proof.
  intros Hk. revert g. induction s as [|x s IH]; intros g Hs; [done|].
  cbn [many_lazy match_group1 pred]. unfold unquoted at 1.
  destruct (N.eqb_spec x DQ) as [->|Hx]; [done|]. cbn [negb].
  assert (take (S (p0 + length g) - p0) s1 = g ++ [x]) as Htake.
  { replace (S (p0 + length g) - p0)%nat with (length (g ++ [x]))
      by (rewrite length_app; simpl; lia).
    rewrite Hs, (cons_middle x g s), app_assoc. apply take_app_length. }
  destruct (match_md_tail s) as [[a rest]|] eqn:Ht.
  - destruct s as [|y s];
      cbn [many_lazy]; rewrite run_LINK_PATTERN_tail, Ht, Htake;
      rewrite length_app; simpl length;
      replace (S (p0 + length g) + 3 + length (text_of_group a) + 1)%nat
        with (p0 + (length g + 1) + 3 + length (text_of_group a) + 1)%nat by lia;
      by destruct (Hk (p0 + (length g + 1) + 3 + length (text_of_group a) + 1)%nat
                    rest (with_group2 a ((1%nat, g ++ [x]) :: c0))) as [r ->].
  - rewrite many_lazy_next by (by rewrite run_LINK_PATTERN_tail, Ht).
    specialize (IH (g ++ [x])). rewrite length_app in IH. simpl in IH.
    replace (S (p0 + length g)) with (p0 + (length g + 1))%nat by lia.
    apply IH. by rewrite <-app_assoc.
Qed.

Lemma match_group1_Some (g s g1 : str) (a : option str) (rest : str) :
  match_group1 g s = Some (g1, a, rest) ->
  exists g', g1 = g ++ g' /\ s = g' ++ DOT_MD ++ text_of_group a ++ DQ :: rest.
Proof.
  revert g. induction s as [|x s IH]; intros g; simpl; [done|].
  destruct (x =? DQ); [done|].
  destruct (match_md_tail s) as [[a' rest']|] eqn:Ht.
  - intros [= <- <- <-]. exists [x]. split; [done|]. simpl. f_equal.
    unfold match_md_tail in Ht.
    destruct (startswith s DOT_MD) eqn:Hp; [|done].
    apply startswith_iff in Hp as [t ->].
    change (drop 3 (DOT_MD ++ t)) with t in Ht. f_equal.
    destruct t as [|y t]; [done|].
    destruct (N.eqb_spec y HASH) as [->|].
    + rewrite span_unquoted_span in Ht.
      pose proof (span_app unquoted t) as Happ.
      pose proof (span_stop unquoted t) as Hstop.
      destruct (span unquoted t) as [run [|q r]]; [done|].
      injection Ht as <- <-. simpl in *.
      specialize (Hstop q r eq_refl). unfold unquoted in Hstop.
      destruct (N.eqb_spec q DQ) as [->|]; [|done]. by rewrite Happ.
    + destruct (N.eqb_spec y DQ) as [->|]; [|done]. by injection Ht as <- <-.
  - intros (g' & -> & ->)%IH. exists (x :: g'). by rewrite <-app_assoc.
Qed.

(** The engine finds on [LINK_PATTERN] the match of the direct reading,
    at every position. *)
Lemma re_match_LINK_PATTERN (pos : nat) (s : str) :
  re_match LINK_PATTERN pos s = LINK_PATTERN_match s.
Proof.
  unfold re_match, LINK_PATTERN_match.
  change LINK_PATTERN
    with (Seq (Chars HREF_OPEN) (Seq (Group 1 (Many unquoted 1 false)) LINK_PATTERN_tail)).
  cbn [run].
  destruct (startswith s HREF_OPEN) eqn:Hp; [|done].
  apply startswith_iff in Hp as [t ->].
  change (drop (length HREF_OPEN) (HREF_OPEN ++ t)) with t.
  change (drop 6 (HREF_OPEN ++ t)) with t.
  change (length HREF_OPEN) with 6%nat.
  pose proof (run_group1 (pos + 6) t [] (finish pos (HREF_OPEN ++ t)) t []) as H.
  rewrite Nat.add_0_r in H.
  etrans; [apply H; [unfold finish; by eauto|done]|]. clear H.
  destruct (match_group1 [] t) as [[[g1 a] rest]|] eqn:Hm; [|done].
  apply match_group1_Some in Hm as (g' & -> & ->).
  change ([] ++ g') with g'. unfold finish.
  assert (take (pos + 6 + length g' + 3 + length (text_of_group a) + 1 - pos)
               (HREF_OPEN ++ g' ++ DOT_MD ++ text_of_group a ++ DQ :: rest)
          = HREF_OPEN ++ g' ++ DOT_MD ++ text_of_group a ++ [DQ]) as ->.
  { replace (pos + 6 + length g' + 3 + length (text_of_group a) + 1 - pos)%nat
      with (length (HREF_OPEN ++ g' ++ DOT_MD ++ text_of_group a ++ [DQ]))
      by (rewrite !length_app; simpl; lia).
    replace (HREF_OPEN ++ g' ++ DOT_MD ++ text_of_group a ++ DQ :: rest)
      with ((HREF_OPEN ++ g' ++ DOT_MD ++ text_of_group a ++ [DQ]) ++ rest)
      by (by rewrite <-!app_assoc).
    apply take_app_length. }
  by destruct a.
Qed.

Lemma re_scan_LINK_PATTERN (fuel pos : nat) (s : str) :
  re_scan fuel LINK_PATTERN pos s = scan_steps fuel s.
Proof.
  revert pos s. induction fuel as [|fuel IH]; intros pos s; [done|].
  destruct s as [|c s]; [done|].
  cbn [re_scan scan_steps]. rewrite re_match_LINK_PATTERN.
  destruct (LINK_PATTERN_match (c :: s)) as [[m rest]|] eqn:Hm.
  - apply LINK_PATTERN_match_Some in Hm as (v & g1 & g2 & _ & _ & _ & ->).
    simpl. by rewrite IH.
  - by rewrite IH.
Qed.


Lemma re_sub_LINK_PATTERN (repl : Match -> str) (s : str) :
  re_sub LINK_PATTERN repl s = LINK_PATTERN_sub repl s.
Proof.
  unfold re_sub, LINK_PATTERN_sub, LINK_PATTERN_scan.
  by rewrite re_scan_LINK_PATTERN.
Qed.

Lemma convert_links_rewritten (html : str) : convert_links html = rewritten html.
Proof. apply re_sub_LINK_PATTERN. Qed.

(** *** The title pattern *)

Lemma re_match_TITLE_PATTERN_later (pos : nat) (s : str) :
  re_match TITLE_PATTERN (S pos) s = None.
Proof. reflexivity. Qed.

Lemma re_match_TITLE_PATTERN_start (s : str) :
  match TITLE_PATTERN_match s with
  | Some rest =>
      exists m, re_match TITLE_PATTERN 0 s = Some (m, rest)
                /\ group0 m <> [] /\ s = group0 m ++ rest
  | None => re_match TITLE_PATTERN 0 s = None
  end.
Proof.
  unfold re_match, TITLE_PATTERN, TITLE_PATTERN_match. cbn [run].
  rewrite many_greedy_stop.
  2:{ intros x s' pos' c' Hx. apply N.eqb_eq in Hx as <-. reflexivity. }
  destruct s as [|x s]; [done|]. simpl span.
  rewrite (N.eqb_sym x HASH). rewrite drop_while_span.
  destruct (N.eqb_spec HASH x) as [<-|Hx]; [|done].
  pose proof (span_app (N.eqb HASH) s) as Hs.
  destruct (span (N.eqb HASH) s) as [hs rest]. simpl in Hs. simpl fst. simpl snd.
  rewrite bool_decide_true by (simpl; lia).
  cbn [run]. rewrite startswith_single.
  destruct rest as [|b t]; [done|].
  destruct (N.eqb_spec b BACKSLASH) as [->|]; [|done].
  change (drop (length [BACKSLASH]) (BACKSLASH :: t)) with t.
  rewrite many_greedy_total by eauto.
  rewrite drop_while_span.
  pose proof (span_app (N.eqb LETTER_s) t) as Ht.
  destruct (span (N.eqb LETTER_s) t) as [ss rest2]. simpl in Ht. simpl fst. simpl snd.
  eexists. split; [reflexivity|]. cbn [group0]. split; [done|].
  rewrite Nat.sub_0_r. simpl length.
  rewrite Hs, Ht.
  replace (0 + S (length hs) + 1 + length ss)%nat
    with (length (HASH :: hs ++ BACKSLASH :: ss))
    by (simpl; rewrite length_app; simpl; lia).
  rewrite (app_comm_cons hs), (app_comm_cons ss rest2 BACKSLASH), app_assoc.
  rewrite take_app_length. done.
Qed.

Lemma re_scan_TITLE_PATTERN_later (fuel pos : nat) (s : str) :
  (length s <= fuel)%nat ->
  re_scan fuel TITLE_PATTERN (S pos) s = Lit <$> s.
Proof.
  revert pos s. induction fuel as [|fuel IH]; intros pos s Hf.
  - destruct s; [done | simpl in Hf; lia].
  - destruct s as [|c s]; [done|]. cbn [re_scan].
    rewrite re_match_TITLE_PATTERN_later. simpl in Hf.
    rewrite IH by lia. done.
Qed.

Lemma concat_Lit (repl : Match -> str) (s : str) :
  concat (map (piece_output repl) (Lit <$> s)) = s.
Proof. induction s as [|c s IH]; [done|]. simpl. f_equal. exact IH. Qed.

(** The substitution of [extract_title] is the one of the direct
    reading. *)
Lemma re_sub_TITLE_PATTERN (s : str) :
  re_sub TITLE_PATTERN (fun _ => []) s = TITLE_PATTERN_sub_empty s.
Proof.
  unfold re_sub, TITLE_PATTERN_sub_empty.
  pose proof (re_match_TITLE_PATTERN_start s) as H.
  destruct s as [|c s]; [done|]. cbn [length re_scan].
  destruct (TITLE_PATTERN_match (c :: s)) as [rest|].
  - destruct H as (m & -> & Hne & Hs).
    destruct (group0 m) as [|x g] eqn:Hg; [done|].
    change (0 + length (x :: g))%nat with (S (length g)).
    rewrite re_scan_TITLE_PATTERN_later.
    + simpl. apply concat_Lit.
    + apply (f_equal length) in Hs. rewrite length_app in Hs. simpl in Hs. lia.
  - rewrite H, re_scan_TITLE_PATTERN_later by done.
    simpl. f_equal. apply concat_Lit.
Qed.

(** ** The order of strings and paths *)

Section LexCompare.
Context {A : Type} (cmp : A -> A -> comparison).
Hypothesis cmp_eq : forall a b, cmp a b = Eq <-> a = b.
Hypothesis cmp_antisym : forall a b, cmp b a = CompOpp (cmp a b).
Hypothesis cmp_trans : forall a b c, cmp a b = Lt -> cmp b c = Lt -> cmp a c = Lt.

Lemma lex_compare_eq (l1 l2 : list A) :
  lex_compare cmp l1 l2 = Eq <-> l1 = l2.
Proof.
  revert l2. induction l1 as [|a l1 IH]; intros [|b l2]; simpl; try done.
  destruct (cmp a b) eqn:Hab.
  - apply cmp_eq in Hab as ->. rewrite IH. naive_solver.
  - split; [done|]. intros [= -> ->].
    assert (cmp b b = Eq) as Hbb by (by apply cmp_eq). congruence.
  - split; [done|]. intros [= -> ->].
    assert (cmp b b = Eq) as Hbb by (by apply cmp_eq). congruence.
Qed.

Lemma lex_compare_antisym (l1 l2 : list A) :
  lex_compare cmp l2 l1 = CompOpp (lex_compare cmp l1 l2).
Proof.
  revert l2. induction l1 as [|a l1 IH]; intros [|b l2]; simpl; try done.
  rewrite (cmp_antisym a b). destruct (cmp a b); simpl; auto.
Qed.

Lemma lex_compare_trans (l1 l2 l3 : list A) :
  lex_compare cmp l1 l2 = Lt -> lex_compare cmp l2 l3 = Lt ->
  lex_compare cmp l1 l3 = Lt.
Proof.
  revert l2 l3. induction l1 as [|a l1 IH]; intros [|b l2] [|c l3]; simpl;
    try done.
  destruct (cmp a b) eqn:Hab; [|by destruct (cmp b c) eqn:Hbc;
    [apply cmp_eq in Hbc as <-; rewrite Hab
    |rewrite (cmp_trans a b c Hab Hbc)|]|done].
  apply cmp_eq in Hab as <-.
  destruct (cmp a c); [by apply IH|done|done].
Qed.

Lemma lex_compare_le_trans (l1 l2 l3 : list A) :
  lex_compare cmp l1 l2 <> Gt -> lex_compare cmp l2 l3 <> Gt ->
  lex_compare cmp l1 l3 <> Gt.
Proof.
  intros H12 H23.
  destruct (lex_compare cmp l1 l2) eqn:E12; [|clear H12|done].
  - apply lex_compare_eq in E12 as ->. done.
  - destruct (lex_compare cmp l2 l3) eqn:E23; [|clear H23|done].
    + apply lex_compare_eq in E23 as <-. by rewrite E12.
    + by rewrite (lex_compare_trans _ _ _ E12 E23).
Qed.

Lemma lex_compare_le_total (l1 l2 : list A) :
  lex_compare cmp l1 l2 <> Gt \/ lex_compare cmp l2 l1 <> Gt.
Proof.
  rewrite (lex_compare_antisym l1 l2).
  destruct (lex_compare cmp l1 l2); simpl; auto.
Qed.

Lemma lex_compare_le_antisym (l1 l2 : list A) :
  lex_compare cmp l1 l2 <> Gt -> lex_compare cmp l2 l1 <> Gt -> l1 = l2.
Proof.
  rewrite (lex_compare_antisym l1 l2). intros H1 H2.
  apply lex_compare_eq. by destruct (lex_compare cmp l1 l2).
Qed.

(** Two lists with a common beginning compare as what follows it. *)
Lemma lex_compare_app (d l1 l2 : list A) :
  lex_compare cmp (d ++ l1) (d ++ l2) = lex_compare cmp l1 l2.
Proof.
  induction d as [|a d IH]; simpl; [done|].
  assert (cmp a a = Eq) as -> by (by apply cmp_eq). done.
Qed.
End LexCompare.

Lemma N_compare_antisym (a b : N) : (b ?= a) = CompOpp (a ?= b).
Proof. apply N.compare_antisym. Qed.

Lemma N_compare_trans (a b c : N) :
  (a ?= b) = Lt -> (b ?= c) = Lt -> (a ?= c) = Lt.
Proof. rewrite !N.compare_lt_iff. lia. Qed.

Ltac N_order :=
  first [apply N.compare_eq_iff | apply N_compare_antisym | apply N_compare_trans].

Lemma str_compare_eq (a b : str) : str_compare a b = Eq <-> a = b.
Proof. apply lex_compare_eq; N_order. Qed.

Lemma str_compare_antisym (a b : str) :
  str_compare b a = CompOpp (str_compare a b).
Proof. apply lex_compare_antisym; N_order. Qed.

Lemma str_compare_trans (a b c : str) :
  str_compare a b = Lt -> str_compare b c = Lt -> str_compare a c = Lt.
Proof. apply lex_compare_trans; N_order. Qed.

Ltac str_order :=
  first [apply str_compare_eq | apply str_compare_antisym | apply str_compare_trans].

#[global] Instance path_le_trans : Transitive path_le.
Proof. intros p q r. apply lex_compare_le_trans; str_order. Qed.

#[global] Instance path_le_total : Total path_le.
Proof. intros p q. apply lex_compare_le_total; str_order. Qed.

#[global] Instance path_le_antisym : AntiSymm (=) path_le.
Proof. intros p q. apply lex_compare_le_antisym; str_order. Qed.

(** In one directory paths compare as their names. *)
Lemma path_compare_siblings (dir : path) (a b : str) :
  path_compare (dir ++ [a]) (dir ++ [b]) = str_compare a b.
Proof.
  unfold path_compare. rewrite lex_compare_app by apply str_compare_eq.
  simpl. by destruct (str_compare a b).
Qed.

Lemma sorted_sorted (l : list path) : StronglySorted path_le (sorted l).
Proof. apply StronglySorted_merge_sort; apply _. Qed.

Lemma sorted_perm (l : list path) : sorted l ≡ₚ l.
Proof. apply merge_sort_Permutation. Qed.

(** [sorted] returns the one sorted arrangement of its argument. *)
Lemma sorted_unique (l1 l2 : list path) : l1 ≡ₚ l2 -> sorted l1 = sorted l2.
Proof.
  intros H. apply (StronglySorted_unique path_le); try apply sorted_sorted.
  by rewrite !sorted_perm.
Qed.

(** ** Templates *)

Lemma format_HTML_TEMPLATE (a b c d : str) :
  format HTML_TEMPLATE
    [(lit "title", a); (lit "nav", b); (lit "content", c); (lit "year", d)]
  = Some (HTML_PAGE a b c d).
Proof. vm_compute. reflexivity. Qed.

Lemma format_INDEX_TEMPLATE (a b : str) :
  format INDEX_TEMPLATE [(lit "items", a); (lit "year", b)]
  = Some (INDEX_PAGE a b).
Proof. vm_compute. reflexivity. Qed.

(** ** Computations on the tree *)

Lemma io_bind_Ok {A B} (c : io A) (k : A -> io B) (t t' : fs) (b : B) :
  io_bind c k t = (Ok b, t') ->
  exists a t1, c t = (Ok a, t1) /\ k a t1 = (Ok b, t').
Proof.
  unfold io_bind. destruct (c t) as [[a|e] t1]; [|done]. eauto.
Qed.

Lemma io_bind_eq {A B} (c : io A) (k : A -> io B) (t t1 : fs) (a : A) :
  c t = (Ok a, t1) -> io_bind c k t = k a t1.
Proof. unfold io_bind. by intros ->. Qed.

Lemma lookup_path_nonempty (t : fs) (p : path) :
  p <> [] -> node_at t p = t !! p.
Proof. by destruct p. Qed.

(** *** [clean_output_dir] *)

Lemma prefix_site_child (nm : str) : OUTPUT_DIR `prefix_of` OUTPUT_DIR ++ [nm].
Proof. by apply prefix_app_r. Qed.

Lemma tree_no_orphans (t : fs) (d p : path) :
  tree t -> d <> [] -> t !! d = None -> d `prefix_of` p -> t !! p = None.
Proof.
  intros Ht Hd Hnone [k ->].
  induction k as [|x k IH] using rev_ind.
  - by rewrite app_nil_r.
  - destruct (t !! (d ++ k ++ [x])) as [n|] eqn:Hn; [exfalso|done].
    apply Ht in Hn as [_ Hpar]. simpl in Hpar.
    unfold parent in Hpar. rewrite !length_app in Hpar. simpl in Hpar.
    replace (length d + (length k + 1) - 1)%nat with (length (d ++ k)) in Hpar
      by (rewrite length_app; lia).
    rewrite (assoc_L (++)), take_app_length in Hpar.
    rewrite lookup_path_nonempty in Hpar by (by destruct d).
    by rewrite IH in Hpar.
Qed.

Lemma filter_site_absent (t : fs) :
  tree t -> t !! OUTPUT_DIR = None ->
  filter (fun kv => ~ OUTPUT_DIR `prefix_of` kv.1) t = t.
Proof.
  intros Ht Hnone. apply map_eq. intros p.
  rewrite map_lookup_filter.
  destruct (t !! p) as [n|] eqn:Hp; simpl; [|done].
  rewrite option_guard_True; [done|]. simpl. intros Hpre.
  by rewrite (tree_no_orphans t OUTPUT_DIR p) in Hp.
Qed.

Lemma cleaned_site (t : fs) : cleaned t !! OUTPUT_DIR = Some Dir.
Proof. unfold cleaned. rewrite lookup_insert_ne by done. by rewrite lookup_insert_eq. Qed.

Lemma mkdirs_after_filter (f : fs) :
  f !! OUTPUT_DIR = None -> f !! ASSETS_DIR = None ->
  (mkdir_parents_exist_ok OUTPUT_DIR ;;; mkdir_parents_exist_ok ASSETS_DIR) f
  = (Ok tt, <[ASSETS_DIR := Dir]> (<[OUTPUT_DIR := Dir]> f)).
Proof.
  intros H1 H2. unfold io_bind, mkdir_parents_exist_ok. simpl.
  change [lit "site"] with OUTPUT_DIR. rewrite H1.
  rewrite lookup_insert_eq.
  change [lit "site"; lit "assets"] with ASSETS_DIR.
  rewrite lookup_insert_ne by done. by rewrite H2.
Qed.

Lemma clean_output_dir_site (t : fs) :
  t !! OUTPUT_DIR = Some Dir -> clean_output_dir t = (Ok tt, cleaned t).
Proof.
  intros Hs. unfold clean_output_dir.
  rewrite (io_bind_eq (path_exists OUTPUT_DIR) _ t t true).
  2:{ unfold path_exists. by rewrite (lookup_path_nonempty t OUTPUT_DIR), Hs. }
  rewrite (io_bind_eq (rmtree OUTPUT_DIR) _ t
             (filter (fun kv => ~ OUTPUT_DIR `prefix_of` kv.1) t) tt).
  2:{ unfold rmtree. by rewrite (lookup_path_nonempty t OUTPUT_DIR), Hs. }
  apply mkdirs_after_filter.
  - apply map_lookup_filter_None. right. intros n _ Hp. by apply Hp.
  - apply map_lookup_filter_None. right. intros n _ Hp. apply Hp.
    simpl. by exists [lit "assets"].
Qed.

Lemma clean_output_dir_Ok (t t1 : fs) :
  tree t -> clean_output_dir t = (Ok tt, t1) -> t1 = cleaned t.
Proof.
  intros Ht H. destruct (t !! OUTPUT_DIR) as [[c|]|] eqn:Hs.
  - unfold clean_output_dir in H.
    rewrite (io_bind_eq (path_exists OUTPUT_DIR) _ t t true) in H.
    2:{ unfold path_exists. by rewrite (lookup_path_nonempty t OUTPUT_DIR), Hs. }
    unfold io_bind, rmtree in H.
    by rewrite (lookup_path_nonempty t OUTPUT_DIR), Hs in H.
  - rewrite clean_output_dir_site in H by done. congruence.
  - unfold clean_output_dir in H.
    rewrite (io_bind_eq (path_exists OUTPUT_DIR) _ t t false) in H.
    2:{ unfold path_exists. by rewrite (lookup_path_nonempty t OUTPUT_DIR), Hs. }
    rewrite (io_bind_eq (io_ret tt) _ t t tt) in H by done.
    rewrite mkdirs_after_filter in H.
    + unfold cleaned. rewrite filter_site_absent by done. congruence.
    + done.
    + apply (tree_no_orphans t OUTPUT_DIR); [done..|]. by exists [lit "assets"].
Qed.

(** *** What a computation leaves alone *)

Lemma stays_in_weaken {A} (P Q : path -> Prop) (c : io A) :
  (forall q, P q -> Q q) -> stays_in P c -> stays_in Q c.
Proof. intros HPQ Hc t r t' H q Hq. eapply Hc; eauto. Qed.

Lemma stays_in_ret {A} (P : path -> Prop) (a : A) : stays_in P (io_ret a).
Proof. by intros t r t' [= <- <-] q _. Qed.

Lemma stays_in_raise {A} (P : path -> Prop) (e : exn) : stays_in P (@io_raise A e).
Proof. by intros t r t' [= <- <-] q _. Qed.

Lemma stays_in_bind {A B} (P : path -> Prop) (c : io A) (k : A -> io B) :
  stays_in P c -> (forall a, stays_in P (k a)) -> stays_in P (io_bind c k).
Proof.
  intros Hc Hk t r t' H q Hq. unfold io_bind in H.
  destruct (c t) as [[a|e] t1] eqn:Hct.
  - rewrite (Hk a _ _ _ H q Hq). by eapply Hc.
  - injection H as <- <-. by eapply Hc.
Qed.

Lemma stays_in_foreach {A} (P : path -> Prop) (body : A -> io unit) (l : list A) :
  (forall x, stays_in P (body x)) -> stays_in P (io_foreach body l).
Proof.
  intros Hb. induction l as [|x l IH]; simpl.
  - apply stays_in_ret.
  - apply stays_in_bind; auto.
Qed.

Lemma stays_in_map {A B} (P : path -> Prop) (f : A -> io B) (l : list A) :
  (forall x, stays_in P (f x)) -> stays_in P (io_map f l).
Proof.
  intros Hf. induction l as [|x l IH]; simpl.
  - apply stays_in_ret.
  - apply stays_in_bind; [done|]. intros y.
    apply stays_in_bind; [done|]. intros ys. apply stays_in_ret.
Qed.

Lemma reads_stays_in {A} (P : path -> Prop) (c : io A) : reads c -> stays_in P c.
Proof. intros Hc t r t' H q _. specialize (Hc t). rewrite H in Hc. by subst. Qed.

Lemma reads_ret {A} (a : A) : reads (io_ret a).
Proof. done. Qed.

Lemma reads_raise {A} (e : exn) : reads (@io_raise A e).
Proof. done. Qed.

Lemma reads_bind {A B} (c : io A) (k : A -> io B) :
  reads c -> (forall a, reads (k a)) -> reads (io_bind c k).
Proof.
  intros Hc Hk t. unfold io_bind. specialize (Hc t).
  destruct (c t) as [[a|e] t1]; simpl in *; subst; [apply Hk|done].
Qed.

Lemma reads_map {A B} (f : A -> io B) (l : list A) :
  (forall x, reads (f x)) -> reads (io_map f l).
Proof.
  intros Hf. induction l as [|x l IH]; simpl; [apply reads_ret|].
  apply reads_bind; [done|]. intros y.
  apply reads_bind; [done|]. intros ys. apply reads_ret.
Qed.

Lemma reads_path_exists (p : path) : reads (path_exists p).
Proof. done. Qed.

Lemma reads_read_text (p : path) : reads (read_text p).
Proof.
  intros t. unfold read_text.
  destruct (node_at t p) as [[c|]|]; [|done..]. by destruct (utf8_text c).
Qed.

Lemma reads_glob_md (dir : path) : reads (glob_md dir).
Proof. intros t. unfold glob_md. by destruct (node_at t dir) as [[c|]|]. Qed.

Lemma reads_io_format (tpl : str) (args : list (str * str)) : reads (io_format tpl args).
Proof. intros t. unfold io_format. by destruct (format tpl args). Qed.

Lemma reads_chapter_of (p : path) : reads (chapter_of p).
Proof.
  apply reads_bind; [apply reads_read_text|]. intros text. apply reads_ret.
Qed.

Lemma reads_chapters_of_dir (dir : path) : reads (chapters_of_dir dir).
Proof.
  apply reads_bind; [apply reads_glob_md|]. intros l.
  apply reads_map, reads_chapter_of.
Qed.

Lemma reads_build_chapters : reads build_chapters.
Proof.
  apply reads_bind; [apply reads_path_exists|]. intros ex.
  destruct ex; cbn [negb]; [|apply reads_raise].
  apply reads_bind; [apply reads_chapters_of_dir|]. intros chs.
  apply reads_bind; [|intros; apply reads_ret].
  apply reads_map. intros d.
  apply reads_bind; [apply reads_path_exists|].
  intros [|]; [apply reads_chapters_of_dir | apply reads_ret].
Qed.

Lemma stays_in_write_text (P : path -> Prop) (p : path) (content : str) :
  P p -> stays_in P (write_text p content).
Proof.
  intros Hp t r t' H q Hq. unfold write_text in H.
  assert (q <> p) by (intros ->; done).
  destruct (node_at t p) as [[c|]|], (node_at t (parent p)) as [[c'|]|],
    (utf8_text content);
    simplify_eq; try done; by rewrite lookup_insert_ne.
Qed.

Lemma makedirs_from_lookup (done todo : path) (t t' : fs)
    (r : outcome unit) (q : path) :
  makedirs_from done todo t = (r, t') ->
  t' !! q = t !! q \/ (q <> [] /\ q `prefix_of` done ++ todo).
Proof.
  revert done t. induction todo as [|n todo IH]; intros done t H; simpl in H.
  - left. congruence.
  - destruct (t !! (done ++ [n])) as [[c|]|] eqn:Hd.
    + left. congruence.
    + apply IH in H. rewrite <-app_assoc in H. done.
    + apply IH in H. rewrite <-app_assoc in H. simpl in H.
      destruct H as [H|H]; [|by right].
      destruct (decide (q = done ++ [n])) as [->|Hne].
      * right. split; [by destruct done|]. by exists todo; rewrite <-app_assoc.
      * left. by rewrite H, lookup_insert_ne.
Qed.

Lemma stays_in_mkdir (p : path) : stays_in (around p) (mkdir_parents_exist_ok p).
Proof.
  intros t r t' H q Hq. unfold mkdir_parents_exist_ok in H.
  destruct (makedirs_from_lookup _ _ _ _ _ q H) as [|[Hne Hpre]]; [done|].
  exfalso. apply Hq. by left.
Qed.

Lemma copy_entry_target (dst : path) (t1 : fs) (rel : path) (n n' : node) (k : path) :
  copy_entry dst t1 rel n = Wrote k n' ->
  n' = n /\ (k = dst ++ rel
             \/ (k = dst ++ rel ++ [name rel] /\ t1 !! (dst ++ rel) = Some Dir
                 /\ exists c, n = File c)).
Proof.
  unfold copy_entry. intros H.
  destruct n as [c|].
  - destruct (t1 !! (dst ++ rel)) as [[c'|]|] eqn:Hd; simplify_eq; [by auto| |by auto].
    destruct (t1 !! (dst ++ rel ++ [name rel])) as [[c'|]|]; simplify_eq;
      split; try done; right; eauto.
  - destruct (t1 !! (dst ++ rel)) as [[c'|]|]; simplify_eq; by auto.
Qed.

(** What the copy writes comes from an entry of the source that was
    reached. *)
Lemma written_lookup_Some (src dst : path) (t t1 : fs) (k : path) (n : node) :
  written (copy_steps src dst t t1) !! k = Some n ->
  exists rel, rel <> [] /\ t !! (src ++ rel) = Some n
    /\ entered src dst t t1 rel = true
    /\ copy_entry dst t1 rel n = Wrote k n.
Proof.
  unfold written, copy_steps. intros H%elem_of_list_to_map_2.
  apply list_elem_of_omap in H as (st & Hst & Hk).
  destruct st as [k' n'|]; [|done]. injection Hk as -> ->.
  apply list_elem_of_fmap in Hst as ([p m] & Hw & Hin).
  apply list_elem_of_filter in Hin as [([rel Hp] & Hne & He) Hin].
  simpl in *. subst p. rewrite drop_app_length in *.
  apply elem_of_map_to_list in Hin.
  pose proof (copy_entry_target _ _ _ _ _ _ (eq_sym Hw)) as [-> _].
  exists rel. split; [|done]. intros ->. by rewrite app_nil_r in Hne.
Qed.

Lemma written_below (src dst : path) (t t1 : fs) (k : path) (n : node) :
  written (copy_steps src dst t t1) !! k = Some n ->
  exists q, q <> [] /\ k = dst ++ q.
Proof.
  intros (rel & Hne & _ & _ & Hw)%written_lookup_Some.
  apply copy_entry_target in Hw as [_ [->|(-> & _)]].
  - by exists rel.
  - exists (rel ++ [name rel]). split; [by destruct rel|done].
Qed.

Lemma stays_in_copytree (src dst : path) : stays_in (around dst) (copytree src dst).
Proof.
  intros t r t' H q Hq. unfold copytree in H.
  destruct (node_at t src) as [[c|]|]; [congruence| |congruence].
  destruct (makedirs_from [] dst t) as [[u|e] t1] eqn:Hmk.
  - assert (t1 !! q = t !! q) as Ht1.
    { destruct (makedirs_from_lookup _ _ _ _ _ q Hmk) as [|[Hne Hpre]]; [done|].
      exfalso. apply Hq. by left. }
    assert ((written (copy_steps src dst t t1) ∪ t1) !! q = t !! q) as Hw.
    { rewrite lookup_union_r; [done|].
      destruct (written (copy_steps src dst t t1) !! q) as [n|] eqn:Hm; [exfalso|done].
      apply written_below in Hm as (k & _ & ->). apply Hq. right. by exists k. }
    destruct (failed _); by simplify_eq.
  - simplify_eq.
    destruct (makedirs_from_lookup _ _ _ _ _ q Hmk) as [|[Hne Hpre]]; [done|].
    exfalso. apply Hq. by left.
Qed.

(** *** Chapter discovery *)

Lemma io_map_chapter_of (l : list path) (t t' : fs)
    (chs : list Chapter) :
  io_map chapter_of l t = (Ok chs, t') ->
  t' = t /\ Forall2 (chapter_at t) l chs.
Proof.
  revert chs. induction l as [|p l IH]; intros chs H; simpl in H.
  - injection H as <- <-. split; [done|constructor].
  - apply io_bind_Ok in H as (c & t1 & Hc & H).
    apply io_bind_Ok in H as (cs & t2 & Hcs & H). injection H as <- <-.
    unfold chapter_of, io_bind, load_markdown, read_text in Hc.
    destruct (node_at t p) as [[content|]|] eqn:Htp; [|done..].
    destruct (utf8_text content) eqn:Hu; [|done].
    injection Hc as <- <-.
    apply IH in Hcs as [-> Hcs]. split; [done|].
    constructor; [|done]. exists (universal_newlines content).
    split; [by exists content|done].
Qed.

Lemma chapter_of_text (p : path) (t : fs) (text : str) :
  text_file t p text ->
  chapter_of p t
  = (Ok (mkChapter p (extract_title text (stem p)) (stem p ++ DOT_HTML)), t).
Proof.
  intros (content & Hp & Hu & ->).
  unfold chapter_of, io_bind, load_markdown, read_text. by rewrite Hp, Hu.
Qed.

Lemma io_map_chapter_of_complete (l : list path) (t : fs)
    (chs : list Chapter) :
  Forall2 (chapter_at t) l chs -> io_map chapter_of l t = (Ok chs, t).
Proof.
  induction 1 as [|p c l chs (text & Hp & ->) _ IH]; simpl; [done|].
  rewrite (io_bind_eq _ _ _ _ _ (chapter_of_text p t text Hp)).
  rewrite (io_bind_eq _ _ _ _ _ IH). done.
Qed.

Lemma sorted_nil : sorted [] = [].
Proof. done. Qed.

Lemma chapters_of_dir_spec (dir : path) (t : fs) :
  chapters_of_dir dir t = io_map chapter_of (listing t dir) t.
Proof.
  unfold chapters_of_dir, io_bind, glob_md, listing.
  by destruct (node_at t dir) as [[c|]|].
Qed.

Lemma optional_dir_spec (dir : path) (t : fs) :
  dir <> [] ->
  (ex <- path_exists dir ;; if ex then chapters_of_dir dir else io_ret []) t
  = io_map chapter_of (listing t dir) t.
Proof.
  intros Hd. unfold io_bind, path_exists.
  rewrite lookup_path_nonempty by done.
  destruct (t !! dir) as [n|] eqn:Hn; simpl.
  - apply chapters_of_dir_spec.
  - unfold listing. by rewrite lookup_path_nonempty, Hn.
Qed.

Lemma build_chapters_Ok (t t' : fs) (chs : list Chapter) :
  build_chapters t = (Ok chs, t') ->
  t' = t /\ is_Some (t !! CHAPTERS_DIR) /\ Forall2 (chapter_at t) (discovered t) chs.
Proof.
  intros H. unfold build_chapters in H.
  apply io_bind_Ok in H as (ex & t1 & Hex & H).
  injection Hex as <- <-.
  destruct (decide (is_Some (t !! CHAPTERS_DIR))) as [Hc|Hc].
  2:{ by rewrite bool_decide_false in H. }
  rewrite bool_decide_true in H by done. cbn [negb] in H.
  apply io_bind_Ok in H as (chs1 & t1 & H1 & H).
  rewrite chapters_of_dir_spec in H1. apply io_map_chapter_of in H1 as [-> H1].
  apply io_bind_Ok in H as (more & t2 & Hmore & H). injection H as <- <-.
  unfold additional_dirs in Hmore. cbn [io_map] in Hmore.
  apply io_bind_Ok in Hmore as (chs2 & t2' & H2 & Hmore).
  rewrite optional_dir_spec in H2 by done.
  apply io_map_chapter_of in H2 as [-> H2].
  apply io_bind_Ok in Hmore as (rest & t3 & Hrest & Hmore).
  injection Hmore as <- <-.
  apply io_bind_Ok in Hrest as (chs3 & t3' & H3 & Hrest).
  rewrite optional_dir_spec in H3 by done.
  apply io_map_chapter_of in H3 as [-> H3].
  apply io_bind_Ok in Hrest as (nil & t4 & Hnil & Hrest).
  injection Hnil as <- <-. injection Hrest as <- <-.
  split; [done|]. split; [done|]. simpl. rewrite app_nil_r.
  unfold discovered. by repeat apply Forall2_app.
Qed.

Lemma build_chapters_complete (t : fs) (chs : list Chapter) :
  is_Some (t !! CHAPTERS_DIR) -> Forall2 (chapter_at t) (discovered t) chs ->
  build_chapters t = (Ok chs, t).
Proof.
  intros Hc H. unfold discovered in H.
  apply Forall2_app_inv_l in H as (chs1 & chs' & H1 & H & ->).
  apply Forall2_app_inv_l in H as (chs2 & chs3 & H2 & H3 & ->).
  apply io_map_chapter_of_complete in H1, H2, H3.
  unfold build_chapters.
  rewrite (io_bind_eq (path_exists CHAPTERS_DIR) _ t t true).
  2:{ unfold path_exists. rewrite lookup_path_nonempty by done.
      by rewrite bool_decide_true. }
  cbn [negb]. rewrite <-chapters_of_dir_spec in H1.
  rewrite (io_bind_eq _ _ _ _ _ H1).
  unfold additional_dirs. cbn [io_map].
  rewrite <-(optional_dir_spec GLOSSARY_DIR) in H2 by done.
  rewrite <-(optional_dir_spec REFERENCES_DIR) in H3 by done.
  unfold io_bind at 1. unfold io_bind at 1.
  unfold GLOSSARY_DIR, REFERENCES_DIR, BASE_DIR in H2, H3. simpl app in H2, H3.
  simpl app. rewrite H2.
  unfold io_bind at 1. unfold io_bind at 1. rewrite H3.
  simpl. by rewrite app_nil_r.
Qed.

Lemma name_snoc (dir : path) (nm : str) : name (dir ++ [nm]) = nm.
Proof. unfold name. by rewrite last_snoc. Qed.

Lemma is_md_child_iff (dir p : path) :
  is_md_child dir p = true <->
  exists nm, p = dir ++ [nm] /\ endswith nm DOT_MD = true.
Proof.
  unfold is_md_child. rewrite andb_true_iff, bool_decide_eq_true. split.
  - intros [Hp He]. eauto.
  - intros (nm & -> & He). by rewrite name_snoc.
Qed.

Lemma keys_elem (t : fs) (p : path) :
  p ∈ (map_to_list t).*1 <-> is_Some (t !! p).
Proof.
  rewrite list_elem_of_fmap. split.
  - intros ([q n] & -> & Hin). apply elem_of_map_to_list in Hin. eauto.
  - intros [n Hn]. exists (p, n). split; [done|]. by apply elem_of_map_to_list.
Qed.

(** The listing of a directory holds its markdown files, all of them and
    nothing else. *)
Lemma listing_elem (t : fs) (dir p : path) :
  p ∈ listing t dir <->
  node_at t dir = Some Dir /\ is_Some (t !! p)
  /\ exists nm, p = dir ++ [nm] /\ endswith nm DOT_MD = true.
Proof.
  unfold listing. destruct (node_at t dir) as [[c|]|].
  - rewrite elem_of_nil. naive_solver.
  - rewrite sorted_perm, list_elem_of_filter, keys_elem, is_md_child_iff.
    naive_solver.
  - rewrite elem_of_nil. naive_solver.
Qed.

Lemma listing_NoDup (t : fs) (dir : path) :
  NoDup (listing t dir).
Proof.
  unfold listing. destruct (node_at t dir) as [[c|]|]; try constructor.
  rewrite sorted_perm. apply NoDup_filter, NoDup_fst_map_to_list.
Qed.

Lemma siblings_lt (dir : path) (a b : str) :
  path_le (dir ++ [a]) (dir ++ [b]) -> a <> b ->
  name_lt (dir ++ [a]) (dir ++ [b]).
Proof.
  unfold path_le, name_lt. rewrite path_compare_siblings, !name_snoc.
  intros Hle Hne. destruct (str_compare a b) eqn:Hc; [|done..].
  by apply str_compare_eq in Hc.
Qed.

(** The listing is in the order of the file names, without repetition. *)
Lemma listing_sorted (t : fs) (dir : path) :
  StronglySorted name_lt (listing t dir).
Proof.
  assert (forall l, StronglySorted path_le l -> NoDup l ->
            (forall p, p ∈ l -> exists nm, p = dir ++ [nm]) ->
            StronglySorted name_lt l) as Hgen.
  { induction 1 as [|x l Hl IH Hx]; intros Hnd Hdir; constructor.
    - apply IH; [by apply NoDup_cons in Hnd as [_ ?]|].
      intros p Hp. apply Hdir. by right.
    - apply NoDup_cons in Hnd as [Hxl _].
      apply Forall_forall. intros y Hy.
      destruct (Hdir x) as [a ->]; [by left|].
      destruct (Hdir y) as [b ->]; [by right|].
      apply siblings_lt.
      + rewrite Forall_forall in Hx. by apply Hx.
      + intros ->. done. }
  apply Hgen.
  - unfold listing. destruct (node_at t dir) as [[c|]|]; try constructor.
    apply sorted_sorted.
  - apply listing_NoDup.
  - intros p (_ & _ & nm & -> & _)%listing_elem. eauto.
Qed.

Lemma not_under_site (d : str) (k : path) :
  d <> lit "site" -> ~ OUTPUT_DIR `prefix_of` d :: k.
Proof. intros Hd [k' Hk]. injection Hk as -> _. done. Qed.

Lemma agree_node_at (t s : fs) (p : path) :
  agree t s -> ~ OUTPUT_DIR `prefix_of` p -> node_at t p = node_at s p.
Proof. intros Ha Hp. destruct p; [done|]. by apply Ha. Qed.

Lemma agree_sym (t s : fs) : agree t s -> agree s t.
Proof. intros H p Hp. symmetry. by apply H. Qed.

Lemma agree_trans (t s u : fs) :
  agree t s -> agree s u -> agree t u.
Proof. intros H1 H2 p Hp. rewrite H1 by done. by apply H2. Qed.

(** A listing outside the output directory reads the input only. *)
Lemma listing_agree (t s : fs) (d : str) :
  agree t s -> d <> lit "site" -> listing t [d] = listing s [d].
Proof.
  intros Ha Hd. unfold listing.
  rewrite (agree_node_at t s [d] Ha (not_under_site d [] Hd)).
  destruct (node_at s [d]) as [[c|]|]; try done.
  apply sorted_unique, NoDup_Permutation.
  - apply NoDup_filter, NoDup_fst_map_to_list.
  - apply NoDup_filter, NoDup_fst_map_to_list.
  - intros p. rewrite !list_elem_of_filter, !keys_elem, !is_md_child_iff.
    split; intros [(nm & -> & He) Hp]; (split; [by eauto|]).
    + simpl in *. by rewrite <-(Ha _ (not_under_site d [nm] Hd)).
    + simpl in *. by rewrite (Ha _ (not_under_site d [nm] Hd)).
Qed.

Lemma discovered_agree (t s : fs) :
  agree t s -> discovered t = discovered s.
Proof.
  intros Ha. unfold discovered, CHAPTERS_DIR, GLOSSARY_DIR, REFERENCES_DIR.
  simpl. by rewrite !(listing_agree t s).
Qed.

Lemma discovered_input (t : fs) (p : path) :
  p ∈ discovered t -> ~ OUTPUT_DIR `prefix_of` p.
Proof.
  unfold discovered. rewrite !elem_of_app, !listing_elem.
  intros [H|[H|H]]; destruct H as (_ & _ & nm & -> & _);
    intros [k Hk]; vm_compute in Hk; simplify_eq.
Qed.

(** ** The builder *)

Section BuilderProps.

Variable markdown : str -> str.

Lemma main_eq (year : N) (t : fs) :
  main markdown year t
  = if bool_decide (is_Some (t !! CHAPTERS_DIR))
    then (clean_output_dir ;;; staged_build markdown year) t
    else (Raised SystemExit, t).
Proof.
  unfold main, io_bind at 1, path_exists.
  rewrite lookup_path_nonempty by done.
  by destruct (bool_decide (is_Some (t !! CHAPTERS_DIR))).
Qed.

Lemma render_chapter_spec (c : Chapter) (year : N) (t : fs) :
  render_chapter markdown c year t
  = match node_at t (source c) with
    | Some (File content) =>
        if utf8_text content
        then (Ok (chapter_page markdown c (universal_newlines content) year), t)
        else (Raised UnicodeDecodeError, t)
    | Some Dir => (Raised IsADirectoryError, t)
    | None => (Raised FileNotFoundError, t)
    end.
Proof.
  unfold render_chapter, io_bind, load_markdown, read_text.
  destruct (node_at t (source c)) as [[content|]|]; [|reflexivity..].
  destruct (utf8_text content); [|reflexivity].
  unfold io_format. rewrite format_HTML_TEMPLATE.
  unfold chapter_page. reflexivity.
Qed.

Lemma render_index_spec (chs : list Chapter) (year : N) (t : fs) :
  render_index_from_readme markdown chs year t
  = match t !! README_PATH with
    | Some (File readme) =>
        if utf8_text readme
        then (Ok (readme_page markdown (universal_newlines readme) year), t)
        else (Raised UnicodeDecodeError, t)
    | Some Dir => (Raised IsADirectoryError, t)
    | None => (Ok (chapter_list_page chs year), t)
    end.
Proof.
  unfold render_index_from_readme, io_bind at 1, path_exists.
  rewrite lookup_path_nonempty by done.
  change (BASE_DIR ++ [lit "README.md"]) with README_PATH.
  destruct (t !! README_PATH) as [[readme|]|] eqn:Hr; simpl.
  - unfold io_bind, load_markdown, read_text.
    rewrite lookup_path_nonempty by done.
    change [lit "README.md"] with README_PATH. rewrite Hr.
    destruct (utf8_text readme); [|reflexivity].
    unfold io_format. rewrite format_HTML_TEMPLATE.
    unfold readme_page. reflexivity.
  - unfold io_bind, load_markdown, read_text.
    rewrite lookup_path_nonempty by done.
    change [lit "README.md"] with README_PATH. by rewrite Hr.
  - unfold io_format. rewrite format_INDEX_TEMPLATE.
    unfold chapter_list_page. reflexivity.
Qed.

Lemma page_of_agree (t s : fs) (year : N) (c : Chapter) :
  agree t s -> ~ OUTPUT_DIR `prefix_of` source c ->
  page_of markdown t year c = page_of markdown s year c.
Proof. intros Ha Hc. unfold page_of. by rewrite (agree_node_at t s). Qed.

Lemma agree_insert (t s : fs) (p : path) (n : node) :
  agree t s -> OUTPUT_DIR `prefix_of` p -> agree t (<[p := n]> s).
Proof.
  intros Ha Hp q Hq. rewrite lookup_insert_ne by (intros ->; done).
  by apply Ha.
Qed.

Lemma agree_cleaned (t : fs) : agree t (cleaned t).
Proof.
  intros q Hq. unfold cleaned.
  rewrite !lookup_insert_ne.
  - rewrite map_lookup_filter. destruct (t !! q) as [n|]; simpl; [|done].
    by rewrite option_guard_True.
  - intros <-. by apply Hq.
  - intros <-. apply Hq. by exists [lit "assets"].
Qed.

Lemma cleaned_agree (t s : fs) :
  agree t s -> cleaned t = cleaned s.
Proof.
  intros Ha. unfold cleaned. do 2 f_equal. apply map_eq. intros q.
  rewrite !map_lookup_filter.
  destruct (decide (OUTPUT_DIR `prefix_of` q)) as [Hq|Hq].
  - destruct (t !! q), (s !! q); simpl; by rewrite ?option_guard_False by auto.
  - by rewrite (Ha q Hq).
Qed.

Lemma around_site (p q : path) :
  OUTPUT_DIR `prefix_of` p -> around p q -> OUTPUT_DIR `prefix_of` q.
Proof.
  intros [k ->] [[Hne Hq]|Hq].
  - destruct q as [|x q]; [done|].
    apply prefix_cons_inv_1 in Hq as ->. by exists q.
  - etrans; [|done]. by exists k.
Qed.

Lemma prefix_snoc_inv (q l : path) (x : str) :
  q `prefix_of` l ++ [x] -> q `prefix_of` l \/ q = l ++ [x].
Proof.
  intros [k Hk]. destruct k as [|y k _] using rev_ind.
  - right. by rewrite app_nil_r in Hk.
  - left. rewrite (assoc_L (++)) in Hk.
    apply app_inj_tail in Hk as [-> _]. by exists k.
Qed.

Lemma stays_in_copy_static_assets :
  stays_in (around ASSETS_DIR) copy_static_assets.
Proof.
  assert (forall nm q, around (ASSETS_DIR ++ [nm]) q -> around ASSETS_DIR q) as Hsub.
  { intros nm q [[Hne Hq]|Hq].
    - apply prefix_snoc_inv in Hq as [Hq| ->]; [by left|right]. by exists [nm].
    - right. etrans; [|done]. by exists [nm]. }
  unfold copy_static_assets.
  apply stays_in_bind; [apply reads_stays_in, reads_path_exists|]. intros ex1.
  apply stays_in_bind.
  { destruct ex1; [|apply stays_in_ret].
    eapply stays_in_weaken; [apply Hsub|apply stays_in_copytree]. }
  intros _.
  apply stays_in_bind; [apply reads_stays_in, reads_path_exists|]. intros ex2.
  apply stays_in_bind.
  { destruct ex2; [|apply stays_in_ret].
    eapply stays_in_weaken; [apply Hsub|apply stays_in_copytree]. }
  intros _. apply stays_in_write_text. right. by exists [lit "style.css"].
Qed.

End BuilderProps.

Lemma write_text_Ok (p : path) (content : str) (t t' : fs) :
  write_text p content t = (Ok tt, t') ->
  t' = <[p := File content]> t /\ node_at t (parent p) = Some Dir.
Proof.
  unfold write_text. intros H.
  destruct (node_at t p) as [[c|]|], (node_at t (parent p)) as [[c'|]|],
    (utf8_text content);
    by simplify_eq.
Qed.

Lemma stays_in_apply {A} (P : path -> Prop) (c : io A)
    (t t' : fs) (r : outcome A) :
  stays_in P c -> (forall q, P q -> OUTPUT_DIR `prefix_of` q) ->
  c t = (r, t') -> agree t t'.
Proof.
  intros Hc HP H q Hq. symmetry. eapply Hc; [done|]. intros HPq. by apply Hq, HP.
Qed.

Section BuilderMain.

Variable markdown : str -> str.

Lemma foreach_pages (t : fs) (year : N)
    (chs : list Chapter) (s s3 : fs) :
  agree t s ->
  Forall (fun c => ~ OUTPUT_DIR `prefix_of` source c) chs ->
  io_foreach (fun chapter =>
                html <- render_chapter markdown chapter year ;;
                let target_path := OUTPUT_DIR ++ [output_name chapter] in
                write_file target_path html) chs s = (Ok tt, s3) ->
  s3 = write_pages markdown t year chs s
  /\ Forall (fun c => is_Some (page_of markdown t year c)) chs
  /\ agree t s3
  /\ (s !! OUTPUT_DIR = Some Dir -> s3 !! OUTPUT_DIR = Some Dir).
Proof.
  revert s. induction chs as [|c chs IH]; intros s Ha Hin H.
  - injection H as <-. by repeat split.
  - apply Forall_cons in Hin as [Hc Hin]. cbn [io_foreach] in H.
    apply io_bind_Ok in H as ([] & s1 & Hbody & H).
    apply io_bind_Ok in Hbody as (html & s' & Hr & Hw).
    rewrite render_chapter_spec in Hr.
    assert (page_of markdown t year c = Some html /\ s' = s) as [Hpage ->].
    { unfold page_of. rewrite (agree_node_at t s) by done.
      destruct (node_at s (source c)) as [[text|]|]; [|done..].
      destruct (utf8_text text); by simplify_eq. }
    cbn zeta in Hw. apply write_text_Ok in Hw as [-> _].
    destruct (IH (<[OUTPUT_DIR ++ [output_name c] := File html]> s))
      as (-> & Hall & Ha3 & Hs3); [|done..|].
    { apply agree_insert; [done|]. by apply prefix_app_r. }
    split; [|split; [|split]].
    + unfold write_pages. simpl. by rewrite Hpage.
    + constructor; [by rewrite Hpage|done].
    + done.
    + intros Hs. apply Hs3. by rewrite lookup_insert_ne.
Qed.

Lemma chapters_input (t : fs) (chs : list Chapter) :
  Forall2 (chapter_at t) (discovered t) chs ->
  Forall (fun c => ~ OUTPUT_DIR `prefix_of` source c) chs.
Proof.
  intros H. apply Forall_forall. intros c Hc.
  apply list_elem_of_lookup in Hc as [i Hi].
  eapply Forall2_lookup_r in H as (p & Hp & text & _ & ->); [|done].
  simpl. eapply discovered_input. by eapply list_elem_of_lookup_2.
Qed.

Lemma chapter_at_agree (t s : fs) (chs : list Chapter) :
  agree t s ->
  Forall2 (chapter_at s) (discovered s) chs ->
  Forall2 (chapter_at t) (discovered t) chs.
Proof.
  intros Ha H. rewrite (discovered_agree t s Ha).
  assert (Forall (fun p => ~ OUTPUT_DIR `prefix_of` p) (discovered s)) as Hin.
  { apply Forall_forall. intros p. apply discovered_input. }
  induction H as [|p c l chs' Hpc _ IH]; [constructor|].
  apply Forall_cons in Hin as [Hp Hin]. constructor; [|by apply IH].
  destruct Hpc as (text & (content & Ht & Hu & ->) & ->).
  exists (universal_newlines content). split; [|done].
  exists content. by rewrite (agree_node_at t s).
Qed.

(** What a successful run is made of. *)
Lemma main_Ok (year : N) (t t' : fs) :
  tree t -> main markdown year t = (Ok tt, t') ->
  exists s2 chs idx,
    is_Some (t !! CHAPTERS_DIR)
    /\ staged_build markdown year (cleaned t) = (Ok tt, t')
    /\ copy_static_assets (cleaned t) = (Ok tt, s2)
    /\ build_chapters t = (Ok chs, t)
    /\ Forall2 (chapter_at t) (discovered t) chs
    /\ Forall (fun c => is_Some (page_of markdown t year c)) chs
    /\ render_index_from_readme markdown chs year t = (Ok idx, t)
    /\ t' = <[INDEX_PATH := File idx]> (write_pages markdown t year chs s2)
    /\ agree t t'
    /\ t' !! OUTPUT_DIR = Some Dir.
Proof.
  intros Ht H. rewrite main_eq in H.
  destruct (decide (is_Some (t !! CHAPTERS_DIR))) as [Hc|Hc].
  2:{ by rewrite bool_decide_false in H. }
  rewrite bool_decide_true in H by done.
  apply io_bind_Ok in H as ([] & s1 & Hclean & H).
  apply clean_output_dir_Ok in Hclean as ->; [|done].
  pose proof H as Hbuild. unfold staged_build in H.
  apply io_bind_Ok in H as ([] & s2 & Hcopy & H).
  assert (agree t s2) as Ha2.
  { eapply agree_trans; [apply agree_cleaned|].
    eapply stays_in_apply; [apply stays_in_copy_static_assets| |done].
    intros q. apply around_site. by exists [lit "assets"]. }
  apply io_bind_Ok in H as (chs & s2' & Hchs & H).
  apply build_chapters_Ok in Hchs as (-> & _ & Hchs).
  apply chapter_at_agree with (t := t) in Hchs; [|done].
  apply io_bind_Ok in H as ([] & s3 & Hloop & H).
  apply foreach_pages with (t := t) in Hloop as (-> & Hpages & Ha3 & Hs3);
    [|done|by eapply chapters_input].
  apply io_bind_Ok in H as (idx & s3' & Hidx & Hw).
  rewrite render_index_spec in Hidx.
  assert (render_index_from_readme markdown chs year t = (Ok idx, t)
          /\ s3' = write_pages markdown t year chs s2) as [Hidx' ->].
  { rewrite render_index_spec. rewrite (Ha3 README_PATH) by (by intros [k Hk]).
    destruct (write_pages markdown t year chs s2 !! README_PATH) as [[r|]|];
      [|done|by simplify_eq].
    destruct (utf8_text r); by simplify_eq. }
  apply write_text_Ok in Hw as [-> Hpar].
  exists s2, chs, idx. repeat split; try done.
  - by apply build_chapters_complete.
  - apply agree_insert; [done|]. by apply prefix_app_r.
  - rewrite lookup_insert_ne by done. exact Hpar.
Qed.

(** *** The pages in the output directory *)

Lemma write_pages_app (t : fs) (year : N)
    (l1 l2 : list Chapter) (s : fs) :
  write_pages markdown t year (l1 ++ l2) s
  = write_pages markdown t year l2 (write_pages markdown t year l1 s).
Proof. unfold write_pages. by rewrite foldl_app. Qed.

Lemma write_pages_other (t : fs) (year : N)
    (chs : list Chapter) (s : fs) (q : path) :
  Forall (fun c => q <> OUTPUT_DIR ++ [output_name c]) chs ->
  write_pages markdown t year chs s !! q = s !! q.
Proof.
  revert s. induction chs as [|c chs IH]; intros s Hq; [done|].
  apply Forall_cons in Hq as [Hc Hq]. unfold write_pages in *. simpl.
  rewrite IH by done.
  destruct (page_of markdown t year c); [|done].
  by rewrite lookup_insert_ne.
Qed.

(** The page at an output name is that of the last chapter with this
    name. *)
Lemma write_pages_last (t : fs) (year : N)
    (l1 l2 : list Chapter) (c : Chapter) (s : fs) (page : str) :
  Forall (fun c' => output_name c' <> output_name c) l2 ->
  page_of markdown t year c = Some page ->
  write_pages markdown t year (l1 ++ c :: l2) s !! (OUTPUT_DIR ++ [output_name c])
  = Some (File page).
Proof.
  intros Hl2 Hpage.
  rewrite write_pages_app. change (c :: l2) with ([c] ++ l2).
  rewrite write_pages_app, write_pages_other.
  - unfold write_pages at 1. simpl. rewrite Hpage. by rewrite lookup_insert_eq.
  - eapply Forall_impl; [done|]. intros c' Hne Heq. apply Hne.
    by apply app_inj_tail in Heq as [_ ->].
Qed.

Lemma last_with_name (chs : list Chapter) (c : Chapter) :
  c ∈ chs ->
  exists l1 c' l2, chs = l1 ++ c' :: l2
    /\ output_name c' = output_name c
    /\ Forall (fun x => output_name x <> output_name c) l2.
Proof.
  induction chs as [|x chs IH] using rev_ind; [by intros ?%elem_of_nil|].
  intros Hin.
  destruct (decide (output_name x = output_name c)) as [Heq|Hne].
  - exists chs, x, []. by repeat split.
  - apply elem_of_app in Hin as [Hin|Hin%list_elem_of_singleton].
    + destruct (IH Hin) as (l1 & c' & l2 & -> & Hc' & Hl2).
      exists l1, c', (l2 ++ [x]). rewrite <-app_assoc. repeat split; [done|].
      apply Forall_app. by repeat constructor.
    + by subst.
Qed.

Lemma cleaned_child (t : fs) (nm : str) :
  nm <> lit "assets" -> cleaned t !! (OUTPUT_DIR ++ [nm]) = None.
Proof.
  intros Hnm. unfold cleaned.
  rewrite !lookup_insert_ne.
  - apply map_lookup_filter_None. right. intros n _ Hp. apply Hp.
    by apply prefix_app_r.
  - done.
  - intros Heq. apply Hnm. by injection Heq.
Qed.

Lemma around_assets_child (nm : str) :
  around ASSETS_DIR (OUTPUT_DIR ++ [nm]) -> nm = lit "assets".
Proof.
  intros [[_ [k Hk]]|[k Hk]].
  - destruct k as [|x k]; [by injection Hk|].
    destruct k; by simplify_eq/=.
  - by injection Hk.
Qed.

(** After the assets are staged the output directory holds [assets] and
    nothing else. *)
Lemma staged_children (t s2 : fs) (nm : str) :
  copy_static_assets (cleaned t) = (Ok tt, s2) ->
  is_Some (s2 !! (OUTPUT_DIR ++ [nm])) <-> nm = lit "assets".
Proof.
  intros H. split.
  - intros Hs. destruct (decide (nm = lit "assets")) as [|Hne]; [done|].
    rewrite (stays_in_copy_static_assets _ _ _ H) in Hs.
    + rewrite cleaned_child in Hs by done. by destruct Hs.
    + intros Har. by apply Hne, around_assets_child.
  - intros ->. unfold copy_static_assets in H.
    apply io_bind_Ok in H as (ex1 & u1 & _ & H).
    apply io_bind_Ok in H as ([] & u2 & _ & H).
    apply io_bind_Ok in H as (ex2 & u3 & _ & H).
    apply io_bind_Ok in H as ([] & u4 & _ & H).
    apply write_text_Ok in H as [-> Hpar].
    change (u4 !! ASSETS_DIR = Some Dir) in Hpar.
    change (OUTPUT_DIR ++ [lit "assets"]) with ASSETS_DIR.
    rewrite lookup_insert_ne by done. by rewrite Hpar.
Qed.

End BuilderMain.

(** * The claims *)

(** ** Title extraction *)

(** A line whose run of [#] is not followed by a backslash is returned
    as it was stripped: the pattern asks for a backslash there. *)
Lemma TITLE_PATTERN_sub_no_backslash (hashes rest : str) (c : N) :
  Forall (fun x => x = HASH) hashes -> c <> HASH -> c <> BACKSLASH ->
  re_sub TITLE_PATTERN (fun _ => []) (HASH :: hashes ++ c :: rest)
  = HASH :: hashes ++ c :: rest.
Proof.
  intros Hh Hc Hb. rewrite re_sub_TITLE_PATTERN.
  unfold TITLE_PATTERN_sub_empty, TITLE_PATTERN_match.
  cbv iota beta. rewrite N.eqb_refl.
  assert (drop_while (N.eqb HASH) (hashes ++ c :: rest) = c :: rest) as ->.
  { induction Hh as [|x l -> _ IH]; simpl.
    - destruct (N.eqb_spec HASH c); [done|reflexivity].
    - rewrite ?N.eqb_refl. exact IH. }
  destruct (N.eqb_spec c BACKSLASH); done.
Qed.

Lemma extract_title_fallback (text fallback : str) :
  Forall (fun line => startswith (strip line) [HASH] = false) (splitlines text) ->
  extract_title text fallback = fallback.
Proof.
  unfold extract_title.
  induction 1 as [|line lines Hl _ IH]; cbn [extract_title_loop]; [done|].
  cbv zeta. by rewrite Hl.
Qed.

(** C1 (the code departs from it).  On a file that begins with the
    heading [# Chapter One], [extract_title] returns the heading with its
    mark, [# Chapter One], and not [Chapter One]: the substitution written
    to strip the marks never applies to such a line. *)
Theorem extract_title_keeps_heading_mark :
  extract_title (lit "# Chapter One

Money is a social relation.
") (lit "chapter-one") = lit "# Chapter One"
  /\ extract_title (lit "# Chapter One

Money is a social relation.
") (lit "chapter-one") <> lit "Chapter One".
Proof. split; [reflexivity|]. vm_compute. discriminate. Qed.

(** ** Link rewriting *)










Lemma sub_no_href (repl : Match -> str) (s : str) :
  has_sub HREF_OPEN s = false -> LINK_PATTERN_sub repl s = s.
Proof.
  induction s as [|c s IH]; [done|]. cbn [has_sub].
  intros [Hp Hs]%orb_false_iff. rewrite sub_miss.
  - by rewrite IH.
  - unfold LINK_PATTERN_match. by rewrite Hp.
Qed.

(** C10.  Every text is made of pieces, each one a character or a match
    of the form [href=Q g1 .md fragment Q]; the rewritten text is made of
    the same pieces in the same order, every character as it was and
    every match replaced.  A text in which [href=Q] does not occur, such
    as one with single-quoted attributes only, is returned as it is. *)
Theorem convert_links_frame (html : str) :
  (exists pieces : list piece,
      html = concat (map piece_source pieces)
      /\ convert_links html = concat (map (piece_output _replace) pieces)
      /\ Forall piece_shaped pieces)
  /\ (has_sub HREF_OPEN html = false -> convert_links html = html).
Proof.
  rewrite convert_links_rewritten. split.
  - exists (LINK_PATTERN_scan html).
    split; [by rewrite scan_source|]. split; [done|apply scan_shaped].
  - apply sub_no_href.
Qed.

Lemma convert_links_frame_witness :
  convert_links (lit "<a href='x.md'>x.md</a> <img src=`y.md`>")
  = lit "<a href='x.md'>x.md</a> <img src=`y.md`>".
Proof. apply (proj2 (convert_links_frame _)). reflexivity. Defined.

(** ** The builder *)

Section BuilderClaims.

Variable markdown : str -> str.

(** C5.  When the chapters directory does not exist, [main] raises
    [SystemExit] and leaves the whole tree as it was: the output
    directory is neither removed nor made, and no file is written. *)
Theorem main_missing_chapters (year : N) (t : fs) :
  t !! CHAPTERS_DIR = None ->
  main markdown year t = (Raised SystemExit, t).
Proof.
  intros H. rewrite main_eq, bool_decide_false; [done|].
  rewrite H. by intros [? ?].
Qed.


(** C7.  The records that [build_chapters] returns follow the files of
    the chapters directory, then those of the glossary, then those of the
    references; the listing of a directory holds exactly its entries
    named [*.md], in the strict order of their names. *)
Theorem build_chapters_order (t t' : fs) (chs : list Chapter) :
  build_chapters t = (Ok chs, t') ->
  map source chs
  = listing t CHAPTERS_DIR ++ listing t GLOSSARY_DIR ++ listing t REFERENCES_DIR
  /\ forall dir,
       (forall p, p ∈ listing t dir <->
          node_at t dir = Some Dir /\ is_Some (t !! p)
          /\ exists nm, p = dir ++ [nm] /\ endswith nm DOT_MD = true)
       /\ StronglySorted name_lt (listing t dir).
Proof.
  intros (_ & _ & Hat)%build_chapters_Ok. split.
  - clear -Hat. fold (discovered t).
    induction Hat as [|p c l chs' (text & _ & ->) _ IH]; [done|].
    simpl. by rewrite IH.
  - intros dir. split; [apply listing_elem | apply listing_sorted].
Qed.



(** C9 (as amended).  A second run that reads the same year from the
    clock, on the tree that a run left, returns and leaves the very same
    tree: the output is built anew from the input alone. *)
Theorem main_rebuild (year : N) (t t1 : fs) :
  tree t -> main markdown year t = (Ok tt, t1) ->
  main markdown year t1 = (Ok tt, t1).
Proof.
  intros Ht H.
  destruct (main_Ok markdown year t t1 Ht H)
    as (s2 & chs & idx & Hc & Hbuild & _ & _ & _ & _ & _ & _ & Ha & Hsite).
  rewrite main_eq. rewrite bool_decide_true.
  - rewrite (io_bind_eq _ _ _ _ _ (clean_output_dir_site t1 Hsite)).
    by rewrite <-(cleaned_agree t t1 Ha).
  - rewrite <-(Ha CHAPTERS_DIR); [done|]. by intros [k Hk].
Qed.

End BuilderClaims.


Lemma sample_tree_tree : tree sample_tree.
Proof. unfold tree. compute_done. Qed.

(** A run returns when its outcome is [Ok]; the tree it leaves is then
    the second component. *)
Lemma returns_split {A} (r : outcome A * fs) (a : A) :
  r.1 = Ok a -> r = (Ok a, r.2).
Proof. destruct r as [o t]. simpl. by intros ->. Qed.

Lemma build_chapters_fst (t : fs) (chs : list Chapter) :
  (build_chapters t).1 = Ok chs -> build_chapters t = (Ok chs, t).
Proof.
  intros H. pose proof (reads_build_chapters t) as Ht.
  destruct (build_chapters t) as [r t']. simpl in *. by subst.
Qed.

Lemma sample_main_2024 :
  main plain_markdown 2024 sample_tree = (Ok tt, sample_site 2024).
Proof. unfold sample_site. apply returns_split. vm_compute. reflexivity. Qed.

Lemma main_missing_chapters_witness :
  main plain_markdown 2024 (delete CHAPTERS_DIR sample_tree)
  = (Raised SystemExit, delete CHAPTERS_DIR sample_tree).
Proof. apply main_missing_chapters. apply lookup_delete_eq. Defined.


Lemma build_chapters_order_witness :
  map source
    [mkChapter [lit "chapters"; lit "a.md"] (lit "a") (lit "a.html");
     mkChapter [lit "chapters"; lit "b.md"] (lit "# B") (lit "b.html");
     mkChapter [lit "glossary"; lit "a.md"] (lit "## Terms") (lit "a.html")]
  = listing sample_tree CHAPTERS_DIR ++ listing sample_tree GLOSSARY_DIR
    ++ listing sample_tree REFERENCES_DIR.
Proof.
  apply (build_chapters_order sample_tree sample_tree).
  apply build_chapters_fst. vm_compute. reflexivity.
Defined.


Lemma main_rebuild_witness :
  main plain_markdown 2024 (sample_site 2024) = (Ok tt, sample_site 2024).
Proof.
  apply (main_rebuild plain_markdown 2024 sample_tree).
  - apply sample_tree_tree.
  - apply sample_main_2024.
Defined.

(** C9 as stated fails: the input is unchanged, the year is not, and the
    second run leaves another index page. *)
Lemma main_rebuild_year_cex :
  main plain_markdown 2024 sample_tree = (Ok tt, sample_site 2024)
  /\ (forall p, ~ OUTPUT_DIR `prefix_of` p -> sample_site 2024 !! p = sample_tree !! p)
  /\ (main plain_markdown 2025 (sample_site 2024)).1 = Ok tt
  /\ (main plain_markdown 2025 (sample_site 2024)).2 !! INDEX_PATH
     <> sample_site 2024 !! INDEX_PATH.
Proof.
  split; [apply sample_main_2024|]. split; [|split].
  - intros p Hp. symmetry. revert p Hp.
    change (agree sample_tree (sample_site 2024)).
    destruct (main_Ok plain_markdown 2024 sample_tree (sample_site 2024))
      as (_ & _ & _ & _ & _ & _ & _ & _ & _ & _ & _ & Ha & _);
      [apply sample_tree_tree|apply sample_main_2024|done].
  - vm_compute. reflexivity.
  - compute_done.
Qed.

(** * Further properties of the builder *)

(** ** Title extraction *)

Lemma drop_while_all (cls : N -> bool) (run rest : str) :
  Forall (fun x => cls x = true) run ->
  match rest with [] => True | c :: _ => cls c = false end ->
  drop_while cls (run ++ rest) = rest.
Proof.
  intros Hrun Hrest. induction Hrun as [|x l Hx _ IH]; simpl.
  - destruct rest as [|c rest]; [done|]. simpl. by rewrite Hrest.
  - by rewrite Hx.
Qed.

Lemma extract_title_at_heading (before after : list str) (line fallback : str) :
  Forall (fun l => startswith (strip l) [HASH] = false) before ->
  startswith (strip line) [HASH] = true ->
  extract_title_loop (before ++ line :: after) fallback
  = TITLE_PATTERN_sub_empty (strip line).
Proof.
  intros Hb Hl. induction Hb as [|l ls Hl' _ IH]; cbn [extract_title_loop app].
  - cbv zeta. by rewrite Hl, re_sub_TITLE_PATTERN.
  - cbv zeta. by rewrite Hl'.
Qed.

(** X1.  A text none of whose lines starts, once stripped, with [#]
    has the fallback as its title. *)
Theorem extract_title_no_heading (text fallback : str) :
  Forall (fun line => startswith (strip line) [HASH] = false) (splitlines text) ->
  extract_title text fallback = fallback.
Proof.
  unfold extract_title.
  induction 1 as [|line lines Hl _ IH]; cbn [extract_title_loop]; [done|].
  cbv zeta. by rewrite Hl.
Qed.

Lemma extract_title_no_heading_witness :
  extract_title (lit "Money and credit
  a second line, no mark") (lit "chapter-two") = lit "chapter-two".
Proof. apply extract_title_no_heading. vm_compute. repeat constructor. Defined.

(** X2.  The title is read off the first line that starts with [#] once
    stripped, whatever follows that line.  When the run of [#] at its
    head is followed by nothing, or by a character other than a
    backslash, the title is the whole stripped line, marks included. *)
Theorem extract_title_heading_kept
    (text fallback : str) (before after : list str) (line hashes tail : str) :
  splitlines text = before ++ line :: after ->
  Forall (fun l => startswith (strip l) [HASH] = false) before ->
  strip line = HASH :: hashes ++ tail ->
  Forall (fun x => x = HASH) hashes ->
  match tail with [] => True | c :: _ => c <> HASH /\ c <> BACKSLASH end ->
  extract_title text fallback = strip line.
Proof.
  intros Hlines Hb Hline Hh Htail. unfold extract_title.
  rewrite Hlines, extract_title_at_heading; [|done|by rewrite Hline].
  rewrite Hline. unfold TITLE_PATTERN_sub_empty, TITLE_PATTERN_match.
  rewrite N.eqb_refl, drop_while_all.
  - destruct tail as [|c tail]; [done|]. destruct Htail as [_ Hc].
    by destruct (N.eqb_spec c BACKSLASH).
  - eapply Forall_impl; [done|]. intros x ->. apply N.eqb_refl.
  - destruct tail as [|c tail]; [done|]. destruct Htail as [Hc _].
    by destruct (N.eqb_spec HASH c).
Qed.

Lemma extract_title_heading_kept_witness :
  extract_title (lit "intro

  ## Money and credit
# later heading") (lit "ch") = strip (lit "  ## Money and credit").
Proof.
  apply (extract_title_heading_kept _ _ [lit "intro"; []] [lit "# later heading"]
           (lit "  ## Money and credit") [HASH] (lit " Money and credit")).
  - reflexivity.
  - repeat constructor.
  - reflexivity.
  - repeat constructor.
  - split; discriminate.
Defined.

(** X3.  What the substitution of [extract_title] removes: when the run
    of [#] at the head of the first heading line is followed by a
    backslash, the title is what follows the backslash and the letters
    [s] after it. *)
Theorem extract_title_backslash
    (text fallback : str) (before after : list str) (line hashes letters rest : str) :
  splitlines text = before ++ line :: after ->
  Forall (fun l => startswith (strip l) [HASH] = false) before ->
  strip line = HASH :: hashes ++ BACKSLASH :: letters ++ rest ->
  Forall (fun x => x = HASH) hashes ->
  Forall (fun x => x = LETTER_s) letters ->
  match rest with [] => True | c :: _ => c <> LETTER_s end ->
  extract_title text fallback = rest.
Proof.
  intros Hlines Hb Hline Hh Hs Hrest. unfold extract_title.
  rewrite Hlines, extract_title_at_heading; [|done|by rewrite Hline].
  rewrite Hline. unfold TITLE_PATTERN_sub_empty, TITLE_PATTERN_match.
  rewrite N.eqb_refl, drop_while_all.
  - rewrite N.eqb_refl. apply drop_while_all.
    + eapply Forall_impl; [done|]. intros x ->. apply N.eqb_refl.
    + destruct rest as [|c rest]; [done|]. by destruct (N.eqb_spec LETTER_s c).
  - eapply Forall_impl; [done|]. intros x ->. apply N.eqb_refl.
  - reflexivity.
Qed.

Lemma extract_title_backslash_witness :
  extract_title (lit "#\ss Notes") (lit "ch") = lit " Notes".
Proof.
  apply (extract_title_backslash _ _ [] [] (lit "#\ss Notes") [] (lit "ss") (lit " Notes")).
  - reflexivity.
  - constructor.
  - reflexivity.
  - constructor.
  - repeat constructor.
  - discriminate.
Defined.

(** ** Link rewriting *)

Lemma startswith_elem (s p : str) (c : N) :
  startswith s p = true -> c ∈ p -> c ∈ s.
Proof. intros [t ->]%startswith_iff Hc. set_solver. Qed.

Lemma plain_not_external (nm : str) : SLASH ∉ nm -> is_external nm = false.
Proof.
  intros Hs. unfold is_external. apply orb_false_iff. split.
  - destruct (startswith nm (lit "http://")) eqn:Hp; [exfalso|done].
    apply Hs, (startswith_elem _ _ _ Hp). compute_done.
  - destruct (startswith nm (lit "https://")) eqn:Hp; [exfalso|done].
    apply Hs, (startswith_elem _ _ _ Hp). compute_done.
Qed.

Lemma plain_not_chapters (nm : str) :
  SLASH ∉ nm -> startswith nm (lit "chapters/") = false.
Proof.
  intros Hs. destruct (startswith nm (lit "chapters/")) eqn:Hp; [exfalso|done].
  apply Hs, (startswith_elem _ _ _ Hp). compute_done.
Qed.

(** X4.  An attribute [href=Q name .md fragment Q] whose name holds no
    [/], and which starts where no earlier attribute value is open, is
    rewritten to [href=Q name .html fragment Q]; the text before it and
    the text after it are rewritten on their own. *)
Theorem convert_links_plain_name (pre nm frag post : str) :
  settled pre ->
  nm <> [] -> DQ ∉ nm -> HASH ∉ nm -> SLASH ∉ nm -> is_fragment frag = true ->
  convert_links (pre ++ href_attr (nm ++ DOT_MD ++ frag) ++ post)
  = convert_links pre ++ href_attr (nm ++ DOT_HTML ++ frag) ++ convert_links post.
Proof.
  intros Hs Hne Hq Hh Hsl Hf.
  rewrite !convert_links_rewritten, rewritten_attr by done.
  rewrite _replace_internal by (by apply plain_not_external).
  by rewrite plain_not_chapters, final_segment_plain, text_of_group_of.
Qed.

Lemma convert_links_plain_name_witness :
  convert_links (lit "<p>see <a " ++ href_attr (lit "02-credit" ++ DOT_MD ++ lit "#banks")
                 ++ lit ">credit</a></p>")
  = convert_links (lit "<p>see <a ")
    ++ href_attr (lit "02-credit" ++ DOT_HTML ++ lit "#banks")
    ++ convert_links (lit ">credit</a></p>").
Proof.
  apply convert_links_plain_name.
  - apply settledb_settled. reflexivity.
  - discriminate.
  - compute_done.
  - compute_done.
  - compute_done.
  - reflexivity.
Defined.




Lemma last_slash (r : str) :
  (SLASH ∉ final_segment r) /\ exists p, r = p ++ final_segment r.
Proof.
  split; [|apply final_segment_suffix].
  destruct (decide (SLASH ∈ r)) as [Hin|Hout].
  - apply list_elem_of_split_r in Hin as (dirs & seg & -> & Hseg).
    by rewrite final_segment_dirs.
  - by rewrite final_segment_plain.
Qed.

(** X6.  The replacement of a match that is not external names a file
    beside the page: it is [href=Q segment .html fragment Q] where the
    segment is the end of group 1 and holds no [/], whatever directories
    group 1 went through. *)
Theorem _replace_flat (m : Match) :
  is_external (group1 m) = false ->
  exists dirs seg,
    group1 m = dirs ++ seg /\ (SLASH ∉ seg)
    /\ _replace m = href_attr (seg ++ DOT_HTML ++ text_of_group (group2 m)).
Proof.
  intros He. destruct m as [g0 g1 g2]. simpl in He. simpl group1. simpl group2.
  assert (_replace (mkMatch g0 g1 g2) = _replace (match_of g1 g2)) as ->.
  { unfold _replace, is_external in *. simpl group1. simpl group2. by rewrite !He. }
  rewrite _replace_internal by done.
  set (href := if startswith g1 (lit "chapters/") then drop 9 g1 else g1).
  destruct (last_slash href) as [Hseg [p Hp]].
  assert (exists q, g1 = q ++ href) as [q Hq].
  { unfold href. destruct (startswith g1 (lit "chapters/")).
    - exists (take 9 g1). by rewrite take_drop.
    - by exists []. }
  exists (q ++ p), (final_segment href). split; [|done].
  by rewrite Hq at 1; rewrite Hp at 1; rewrite app_assoc.
Qed.

Lemma _replace_flat_witness :
  exists dirs seg,
    group1 (match_of (lit "HTTP://example.org/docs/a") (Some (lit "#x")))
    = dirs ++ seg
    /\ (SLASH ∉ seg)
    /\ _replace (match_of (lit "HTTP://example.org/docs/a") (Some (lit "#x")))
       = href_attr (seg ++ DOT_HTML
                    ++ text_of_group
                         (group2 (match_of (lit "HTTP://example.org/docs/a")
                                           (Some (lit "#x"))))).
Proof. apply _replace_flat. vm_compute. reflexivity. Defined.

(** ** Files *)

Lemma write_text_Ok_text (p : path) (content : str) (t t' : fs) :
  write_text p content t = (Ok tt, t') -> utf8_text content = true.
Proof.
  unfold write_text. intros H.
  destruct (node_at t p) as [[c|]|], (node_at t (parent p)) as [[c'|]|],
    (utf8_text content);
    by simplify_eq.
Qed.

Lemma universal_newlines_plain (s : str) :
  13 ∉ s -> universal_newlines s = s.
Proof.
  induction s as [|c s IH]; intros Hs; [done|].
  apply not_elem_of_cons in Hs as [Hc Hs]. cbn [universal_newlines].
  destruct (N.eqb_spec c 13); [done|]. by rewrite IH.
Qed.

(** X7.  What [write_file] wrote, [load_markdown] reads back with the
    line ends CR LF and CR read as LF, hence as it was written when it
    holds no CR; the write changes the node at its path and nothing
    else. *)
Theorem write_file_load_markdown (p : path) (content : str) (t t' : fs) :
  write_file p content t = (Ok tt, t') ->
  load_markdown p t' = (Ok (universal_newlines content), t')
  /\ (13 ∉ content -> load_markdown p t' = (Ok content, t'))
  /\ forall q, q <> p -> t' !! q = t !! q.
Proof.
  intros H. assert (p <> []) as Hp.
  { intros ->. unfold write_file, write_text in H. simpl in H. done. }
  pose proof (write_text_Ok_text _ _ _ _ H) as Hu.
  apply write_text_Ok in H as [-> _].
  assert (load_markdown p (<[p := File content]> t)
          = (Ok (universal_newlines content), <[p := File content]> t)) as Hload.
  { unfold load_markdown, read_text.
    by rewrite lookup_path_nonempty, lookup_insert_eq, Hu. }
  split; [done|]. split.
  - intros Hcr. by rewrite Hload, universal_newlines_plain.
  - intros q Hq. by rewrite lookup_insert_ne.
Qed.

Lemma write_file_load_markdown_witness :
  load_markdown [lit "site"; lit "a.html"]
    (<[[lit "site"; lit "a.html"] := File (lit "<p>a</p>" ++ [13; 10] ++ lit "<p>b</p>")]>
       {[ [lit "site"] := Dir ]})
  = (Ok (universal_newlines (lit "<p>a</p>" ++ [13; 10] ++ lit "<p>b</p>")),
     <[[lit "site"; lit "a.html"] := File (lit "<p>a</p>" ++ [13; 10] ++ lit "<p>b</p>")]>
       {[ [lit "site"] := Dir ]}).
Proof.
  apply (write_file_load_markdown [lit "site"; lit "a.html"]
           (lit "<p>a</p>" ++ [13; 10] ++ lit "<p>b</p>") {[ [lit "site"] := Dir ]}).
  reflexivity.
Defined.

(** ** Chapter discovery *)

Lemma rfind_from_None (c : N) (i : nat) (s : str) :
  c ∉ s -> rfind_from c i s = None.
Proof.
  revert i. induction s as [|x s IH]; intros i Hs; simpl; [done|].
  apply not_elem_of_cons in Hs as [Hx Hs]. rewrite IH by done.
  destruct (N.eqb_spec x c); [by subst|done].
Qed.

Lemma rfind_from_last (c : N) (i : nat) (a b : str) :
  c ∉ b -> rfind_from c i (a ++ c :: b) = Some (i + length a)%nat.
Proof.
  intros Hb. revert i. induction a as [|x a IH]; intros i; simpl.
  - rewrite rfind_from_None by done. rewrite N.eqb_refl. f_equal. lia.
  - rewrite IH. f_equal. lia.
Qed.

(** The stem of a name that ends in [.md]. *)
Lemma stem_md (dir : path) (base : str) :
  stem (dir ++ [base ++ DOT_MD])
  = match base with [] => DOT_MD | _ :: _ => base end.
Proof.
  unfold stem. rewrite name_snoc.
  change DOT_MD with (DOT :: lit "md") at 1.
  rewrite rfind_from_last by compute_done.
  rewrite length_app. change (length (DOT :: lit "md")) with 3%nat.
  destruct base as [|x base]; [reflexivity|].
  rewrite !bool_decide_true by (simpl; lia). cbn [andb].
  change (0 + length (x :: base))%nat with (length (x :: base)).
  by rewrite take_app_length.
Qed.

Lemma reads_io_map_chapter_of (l : list path) (t : fs) :
  (io_map chapter_of l t).2 = t.
Proof. apply reads_map. intros p. apply reads_chapter_of. Qed.

Lemma io_map_chapter_of_app (l1 l2 : list path) (t : fs) :
  io_map chapter_of (l1 ++ l2) t
  = match (io_map chapter_of l1 t).1 with
    | Ok chs1 =>
        match (io_map chapter_of l2 t).1 with
        | Ok chs2 => (Ok (chs1 ++ chs2), t)
        | Raised e => (Raised e, t)
        end
    | Raised e => (Raised e, t)
    end.
Proof.
  induction l1 as [|p l1 IH]; cbn [app].
  - cbn [io_map io_ret fst]. pose proof (reads_io_map_chapter_of l2 t) as Hr.
    destruct (io_map chapter_of l2 t) as [[chs2|e] t']; simpl in *; by subst.
  - cbn [io_map]. unfold io_bind, io_ret.
    pose proof (reads_chapter_of p t) as Hp.
    destruct (chapter_of p t) as [[c|e] t']; simpl in Hp; subst t'; [|done].
    rewrite IH.
    destruct (io_map chapter_of l1 t) as [[chs1|e] t1]; [|done]. cbn [fst].
    by destruct (io_map chapter_of l2 t) as [[chs2|e] t2].
Qed.

(** [build_chapters] reads the discovered files in order. *)
Lemma build_chapters_discovered (t : fs) :
  is_Some (t !! CHAPTERS_DIR) ->
  build_chapters t = io_map chapter_of (discovered t) t.
Proof.
  intros Hc. unfold discovered. rewrite !io_map_chapter_of_app.
  unfold build_chapters.
  rewrite (io_bind_eq (path_exists CHAPTERS_DIR) _ t t true).
  2:{ unfold path_exists. rewrite lookup_path_nonempty by done.
      by rewrite bool_decide_true. }
  cbn [negb]. unfold additional_dirs. cbn [io_map].
  pose proof (chapters_of_dir_spec CHAPTERS_DIR t) as H1.
  pose proof (optional_dir_spec GLOSSARY_DIR t) as H2.
  pose proof (optional_dir_spec REFERENCES_DIR t) as H3.
  pose proof (reads_io_map_chapter_of (listing t CHAPTERS_DIR) t) as R1.
  pose proof (reads_io_map_chapter_of (listing t GLOSSARY_DIR) t) as R2.
  pose proof (reads_io_map_chapter_of (listing t REFERENCES_DIR) t) as R3.
  unfold GLOSSARY_DIR, REFERENCES_DIR, BASE_DIR in H2, H3. simpl app in H2, H3.
  simpl app.
  unfold io_bind at 1. rewrite H1.
  destruct (io_map chapter_of (listing t CHAPTERS_DIR) t) as [[chs1|e] t1];
    simpl in R1; subst t1; [|done]. cbn [fst].
  unfold io_bind at 1. unfold io_bind at 1. rewrite H2 by done.
  change (listing t [lit "glossary"]) with (listing t GLOSSARY_DIR).
  destruct (io_map chapter_of (listing t GLOSSARY_DIR) t) as [[chs2|e] t2];
    simpl in R2; subst t2; [|done]. cbn [fst].
  unfold io_bind at 1. unfold io_bind at 1. rewrite H3 by done.
  change (listing t [lit "references"]) with (listing t REFERENCES_DIR).
  destruct (io_map chapter_of (listing t REFERENCES_DIR) t) as [[chs3|e] t3];
    simpl in R3; subst t3; [|done]. cbn [fst].
  simpl. by rewrite app_nil_r.
Qed.

(** The loop stops at the first entry that cannot be read. *)
Lemma io_map_chapter_of_first (before after : list path) (p : path) (t : fs) (e : exn) :
  Forall (fun q => exists text, text_file t q text) before ->
  chapter_of p t = (Raised e, t) ->
  io_map chapter_of (before ++ p :: after) t = (Raised e, t).
Proof.
  intros Hb Hp. induction Hb as [|q l [text Hq] _ IH]; cbn [app io_map].
  - unfold io_bind at 1. by rewrite Hp.
  - rewrite (io_bind_eq _ _ _ _ _ (chapter_of_text q t text Hq)).
    unfold io_bind at 1. by rewrite IH.
Qed.

Lemma discovered_elem (t : fs) (p : path) :
  p ∈ discovered t ->
  is_Some (t !! p) /\ exists dir base, p = dir ++ [base ++ DOT_MD].
Proof.
  unfold discovered. rewrite !elem_of_app, !listing_elem.
  intros [H|[H|H]]; destruct H as (_ & Hp & nm & -> & [base ->]%endswith_iff);
    eauto.
Qed.

Lemma discovered_node_at (t : fs) (p : path) :
  p ∈ discovered t -> node_at t p = t !! p.
Proof.
  intros (_ & dir & base & ->)%discovered_elem.
  apply lookup_path_nonempty. by destruct dir.
Qed.

Lemma utf8_file_text (t : fs) (p : path) :
  p <> [] -> utf8_file t p -> exists text, text_file t p text.
Proof.
  intros Hp (content & Hc & Hu). exists (universal_newlines content), content.
  by rewrite lookup_path_nonempty.
Qed.

Lemma utf8_files_text (t : fs) (l : list path) :
  Forall (fun p => p <> []) l -> Forall (utf8_file t) l ->
  Forall (fun p => exists text, text_file t p text) l.
Proof.
  intros Hne Hf. apply Forall_forall. intros p Hp.
  rewrite Forall_forall in Hne, Hf. apply utf8_file_text; auto.
Qed.

Lemma discovered_nonempty (t : fs) : Forall (fun p => p <> []) (discovered t).
Proof.
  apply Forall_forall. intros p (_ & dir & base & ->)%discovered_elem.
  by destruct dir.
Qed.

Lemma files_chapters (t : fs) (l : list path) :
  Forall (fun p => exists text, text_file t p text) l ->
  exists chs, Forall2 (chapter_at t) l chs.
Proof.
  induction 1 as [|p l [text Hp] _ [chs IH]]; [by exists []|].
  exists (mkChapter p (extract_title text (stem p)) (stem p ++ DOT_HTML) :: chs).
  constructor; [|done]. by exists text.
Qed.

(** X8.  When the chapters directory exists and every entry named
    [*.md] of the three directories is a file whose bytes are UTF-8,
    [build_chapters] returns one record for each of them, in the order of
    discovery: the source, the title read from its text, line ends
    translated, with the stem as the fallback, and the stem followed by
    [.html]; the tree is left as it was. *)
Theorem build_chapters_returns (t : fs) :
  is_Some (t !! CHAPTERS_DIR) ->
  Forall (utf8_file t) (discovered t) ->
  exists chs,
    build_chapters t = (Ok chs, t)
    /\ Forall2 (fun p c =>
                  exists content, t !! p = Some (File content)
                    /\ c = mkChapter p
                             (extract_title (universal_newlines content) (stem p))
                             (stem p ++ DOT_HTML))
               (discovered t) chs.
Proof.
  intros Hc Hfiles.
  destruct (files_chapters t (discovered t)) as [chs Hchs].
  { apply utf8_files_text; [apply discovered_nonempty|done]. }
  exists chs. split; [by apply build_chapters_complete|].
  apply Forall2_same_length_lookup. split; [by eapply Forall2_length|].
  intros i p c Hp Hci.
  destruct (Forall2_lookup_lr _ _ _ _ _ _ Hchs Hp Hci)
    as (text & (content & Ht & _ & ->) & ->).
  exists content. split; [|done].
  rewrite <-discovered_node_at; [done|]. by eapply list_elem_of_lookup_2.
Qed.

Lemma build_chapters_first (t : fs) (before after : list path) (p : path) (e : exn) :
  is_Some (t !! CHAPTERS_DIR) ->
  discovered t = before ++ p :: after ->
  Forall (utf8_file t) before ->
  chapter_of p t = (Raised e, t) ->
  build_chapters t = (Raised e, t).
Proof.
  intros Hc Hd Hb Hp. rewrite build_chapters_discovered, Hd by done.
  apply io_map_chapter_of_first; [|done].
  apply utf8_files_text; [|done].
  pose proof (discovered_nonempty t) as Hne. rewrite Hd in Hne.
  by apply Forall_app in Hne as [Hne _].
Qed.

Lemma chapter_of_directory (t : fs) (p : path) :
  p <> [] -> t !! p = Some Dir -> chapter_of p t = (Raised IsADirectoryError, t).
Proof.
  intros Hne Hp. unfold chapter_of, io_bind, load_markdown, read_text.
  by rewrite lookup_path_nonempty, Hp.
Qed.

Lemma chapter_of_undecodable (t : fs) (p : path) (c : str) :
  p <> [] -> t !! p = Some (File c) -> utf8_text c = false ->
  chapter_of p t = (Raised UnicodeDecodeError, t).
Proof.
  intros Hne Hp Hu. unfold chapter_of, io_bind, load_markdown, read_text.
  by rewrite lookup_path_nonempty, Hp, Hu.
Qed.

(** X9.  [build_chapters] raises [FileNotFoundError] when the chapters
    directory does not exist.  When it exists, the entries named [*.md]
    are read in the order of discovery and the first one that is not a
    UTF-8 file decides: [IsADirectoryError] when it is a directory,
    [UnicodeDecodeError] when it is a file whose bytes are not UTF-8.  In
    every case the tree is left as it was. *)
Theorem build_chapters_raises (t : fs) :
  (t !! CHAPTERS_DIR = None -> build_chapters t = (Raised FileNotFoundError, t))
  /\ (is_Some (t !! CHAPTERS_DIR) ->
      forall before p after,
        discovered t = before ++ p :: after ->
        Forall (utf8_file t) before ->
        (t !! p = Some Dir -> build_chapters t = (Raised IsADirectoryError, t))
        /\ (forall c, t !! p = Some (File c) -> utf8_text c = false ->
              build_chapters t = (Raised UnicodeDecodeError, t))).
Proof.
  split.
  - intros Hc. unfold build_chapters.
    rewrite (io_bind_eq (path_exists CHAPTERS_DIR) _ t t false); [done|].
    unfold path_exists. rewrite lookup_path_nonempty by done.
    rewrite bool_decide_false; [done|]. rewrite Hc. by intros [? ?].
  - intros Hc before p after Hd Hb.
    assert (p <> []) as Hne.
    { pose proof (discovered_nonempty t) as H. rewrite Hd in H.
      apply Forall_app in H as [_ H]. by apply Forall_cons in H as [H _]. }
    split.
    + intros Hp. eapply build_chapters_first; [done..|].
      by apply chapter_of_directory.
    + intros c Hp Hu. eapply build_chapters_first; [done..|].
      by eapply chapter_of_undecodable.
Qed.

(** X10.  The output name of a record that [build_chapters] returns is
    the name of its source with [.html] in the place of the final [.md];
    for the one name that is nothing but [.md] it is [.md.html]. *)
Theorem build_chapters_output_names (t t' : fs) (chs : list Chapter) :
  build_chapters t = (Ok chs, t') ->
  Forall (fun c =>
            exists dir base,
              source c = dir ++ [base ++ DOT_MD]
              /\ output_name c
                 = match base with [] => DOT_MD | _ :: _ => base end ++ DOT_HTML)
         chs.
Proof.
  intros (_ & _ & Hchs)%build_chapters_Ok.
  apply Forall_forall. intros c Hc.
  apply list_elem_of_lookup in Hc as [i Hi].
  destruct (Forall2_lookup_r _ _ _ _ _ Hchs Hi) as (p & Hp & text & _ & ->).
  apply list_elem_of_lookup_2, discovered_elem in Hp as (_ & dir & base & ->).
  exists dir, base. split; [done|]. cbn [output_name]. by rewrite stem_md.
Qed.

(** ** The output directory *)

Lemma clean_output_dir_returns (t : fs) :
  tree t ->
  (forall c, t !! OUTPUT_DIR <> Some (File c)) ->
  clean_output_dir t = (Ok tt, cleaned t).
Proof.
  intros Ht Hf. destruct (t !! OUTPUT_DIR) as [[c|]|] eqn:Hs.
  - by destruct (Hf c).
  - by apply clean_output_dir_site.
  - unfold clean_output_dir.
    rewrite (io_bind_eq (path_exists OUTPUT_DIR) _ t t false).
    2:{ unfold path_exists. by rewrite (lookup_path_nonempty t OUTPUT_DIR), Hs. }
    rewrite (io_bind_eq (io_ret tt) _ t t tt) by done.
    rewrite mkdirs_after_filter.
    + unfold cleaned. by rewrite filter_site_absent.
    + done.
    + apply (tree_no_orphans t OUTPUT_DIR); [done..|]. by exists [lit "assets"].
Qed.

Lemma cleaned_below (t : fs) (p : path) :
  OUTPUT_DIR `prefix_of` p -> p <> OUTPUT_DIR -> p <> ASSETS_DIR ->
  cleaned t !! p = None.
Proof.
  intros Hp H1 H2. unfold cleaned. rewrite !lookup_insert_ne by done.
  apply map_lookup_filter_None. right. intros n _ Hn. by apply Hn.
Qed.

Lemma cleaned_assets (t : fs) : cleaned t !! ASSETS_DIR = Some Dir.
Proof. unfold cleaned. by rewrite lookup_insert_eq. Qed.

(** X11.  On a tree, [clean_output_dir] raises [NotADirectoryError] and
    changes nothing when the output path is a file.  Otherwise it
    returns, and leaves the output directory with the empty directory
    [assets] in it and nothing else, whatever was there before; every
    node outside the output directory is as it was. *)
Theorem clean_output_dir_outcome (t : fs) :
  tree t ->
  match t !! OUTPUT_DIR with
  | Some (File _) => clean_output_dir t = (Raised NotADirectoryError, t)
  | _ =>
      exists t',
        clean_output_dir t = (Ok tt, t')
        /\ t' !! OUTPUT_DIR = Some Dir /\ t' !! ASSETS_DIR = Some Dir
        /\ (forall p, OUTPUT_DIR `prefix_of` p -> p <> OUTPUT_DIR -> p <> ASSETS_DIR ->
              t' !! p = None)
        /\ (forall p, ~ OUTPUT_DIR `prefix_of` p -> t' !! p = t !! p)
  end.
Proof.
  intros Ht.
  assert ((forall c, t !! OUTPUT_DIR <> Some (File c)) ->
          exists t',
            clean_output_dir t = (Ok tt, t')
            /\ t' !! OUTPUT_DIR = Some Dir /\ t' !! ASSETS_DIR = Some Dir
            /\ (forall p, OUTPUT_DIR `prefix_of` p -> p <> OUTPUT_DIR ->
                  p <> ASSETS_DIR -> t' !! p = None)
            /\ (forall p, ~ OUTPUT_DIR `prefix_of` p -> t' !! p = t !! p)) as Hok.
  { intros Hf. exists (cleaned t). split; [by apply clean_output_dir_returns|].
    split; [apply cleaned_site|]. split; [apply cleaned_assets|].
    split; [apply cleaned_below|].
    intros p Hp. symmetry. by apply agree_cleaned. }
  destruct (t !! OUTPUT_DIR) as [[c|]|] eqn:Hs; [|by apply Hok..].
  unfold clean_output_dir.
  rewrite (io_bind_eq (path_exists OUTPUT_DIR) _ t t true).
  2:{ unfold path_exists. by rewrite (lookup_path_nonempty t OUTPUT_DIR), Hs. }
  unfold io_bind, rmtree. by rewrite (lookup_path_nonempty t OUTPUT_DIR), Hs.
Qed.

Lemma cleaned_cleaned (t : fs) : cleaned (cleaned t) = cleaned t.
Proof.
  apply map_eq. intros p.
  destruct (decide (p = ASSETS_DIR)) as [->|Ha]; [by rewrite !cleaned_assets|].
  destruct (decide (p = OUTPUT_DIR)) as [->|Ho]; [by rewrite !cleaned_site|].
  destruct (decide (OUTPUT_DIR `prefix_of` p)) as [Hp|Hp].
  - by rewrite !cleaned_below.
  - symmetry. by apply agree_cleaned.
Qed.

(** X12.  Cleaning twice is cleaning once: on the tree that
    [clean_output_dir] leaves, it returns and changes nothing. *)
Theorem clean_output_dir_twice (t t1 : fs) :
  tree t -> clean_output_dir t = (Ok tt, t1) ->
  clean_output_dir t1 = (Ok tt, t1).
Proof.
  intros Ht ->%clean_output_dir_Ok; [|done].
  rewrite clean_output_dir_site by apply cleaned_site.
  by rewrite cleaned_cleaned.
Qed.

(** ** Copies *)

Lemma copy_steps_elem (src dst : path) (t t1 : fs) (rel : path) (n : node) :
  rel <> [] -> t !! (src ++ rel) = Some n -> entered src dst t t1 rel = true ->
  copy_entry dst t1 rel n ∈ copy_steps src dst t t1.
Proof.
  intros Hne Hn He. unfold copy_steps. apply list_elem_of_fmap.
  exists (src ++ rel, n). simpl. rewrite drop_app_length. split; [done|].
  apply list_elem_of_filter. simpl. rewrite drop_app_length. split.
  - split; [by apply prefix_app_r|]. split; [|done].
    intros Heq. apply Hne. rewrite <-(app_nil_r src) in Heq at 2.
    by apply app_inv_head in Heq.
  - by apply elem_of_map_to_list.
Qed.

Lemma copy_steps_inv (src dst : path) (t t1 : fs) (st : copy_step) :
  st ∈ copy_steps src dst t t1 ->
  exists rel n, rel <> [] /\ t !! (src ++ rel) = Some n
    /\ entered src dst t t1 rel = true /\ st = copy_entry dst t1 rel n.
Proof.
  unfold copy_steps. intros Hst.
  apply list_elem_of_fmap in Hst as ([p m] & Hw & Hin).
  apply list_elem_of_filter in Hin as [([rel Hp] & Hne & He) Hin].
  simpl in *. subst p. rewrite drop_app_length in *.
  apply elem_of_map_to_list in Hin.
  exists rel, m. split; [|done]. intros ->. by rewrite app_nil_r in Hne.
Qed.

Lemma entered_ancestor (src dst : path) (t t1 : fs) (rel : path) (i : nat) :
  entered src dst t t1 rel = true -> (1 <= i < length rel)%nat ->
  t !! (src ++ take i rel) = Some Dir
  /\ forall c, t1 !! (dst ++ take i rel) <> Some (File c).
Proof.
  unfold entered. rewrite forallb_forall. intros H Hi.
  specialize (H i). rewrite <-list_elem_of_In, elem_of_seq in H.
  specialize (H ltac:(lia)).
  destruct (t !! (src ++ take i rel)) as [[c|]|]; [done| |done].
  split; [done|]. intros c Hc. by rewrite Hc in H.
Qed.

Lemma entered_listed (src dst : path) (t t1 : fs) (rel : path) :
  listed t src rel ->
  (forall i c, (1 <= i < length rel)%nat -> t1 !! (dst ++ take i rel) <> Some (File c)) ->
  entered src dst t t1 rel = true.
Proof.
  intros Hl Hd. unfold entered. apply forallb_forall. intros i Hi.
  rewrite <-list_elem_of_In, elem_of_seq in Hi.
  rewrite Hl by lia.
  destruct (t1 !! (dst ++ take i rel)) as [[c|]|] eqn:Hc; [|done..].
  exfalso. apply (Hd i c); [lia|done].
Qed.

(** No two entries are written at the same place. *)
Lemma copy_entry_unique (src dst : path) (t t1 : fs)
    (rel rel2 : path) (n n2 : node) (k : path) :
  rel <> [] -> rel2 <> [] ->
  t !! (src ++ rel) = Some n -> t !! (src ++ rel2) = Some n2 ->
  entered src dst t t1 rel = true -> entered src dst t t1 rel2 = true ->
  copy_entry dst t1 rel n = Wrote k n -> copy_entry dst t1 rel2 n2 = Wrote k n2 ->
  rel = rel2.
Proof.
  intros Hne Hne2 Hn Hn2 He He2 Hw Hw2.
  assert (forall (r r2 : path) (m m2 : node) (c : str),
            r2 <> [] -> t !! (src ++ r) = Some m -> t !! (src ++ r2) = Some (File c) ->
            entered src dst t t1 r = true -> r = r2 ++ [name r2] -> False) as Hcross.
  { intros r r2 m m2 c Hr2 Hm Hm2 Her ->.
    destruct (entered_ancestor src dst t t1 (r2 ++ [name r2]) (length r2) Her)
      as [Hd _].
    - rewrite length_app. simpl. destruct r2; [done|]. simpl. lia.
    - rewrite take_app_length in Hd. congruence. }
  apply copy_entry_target in Hw as [_ Hw].
  apply copy_entry_target in Hw2 as [_ Hw2].
  destruct Hw as [Hk|(Hk & _ & c & Hc)], Hw2 as [Hk2|(Hk2 & _ & c2 & Hc2)];
    subst k; subst; apply app_inv_head in Hk2.
  - done.
  - exfalso. by eapply (Hcross rel rel2).
  - exfalso. by eapply (Hcross rel2 rel).
  - by apply app_inj_tail in Hk2 as [-> _].
Qed.

Lemma written_lookup (src dst : path) (t t1 : fs) (rel : path) (n : node) (k : path) :
  rel <> [] -> t !! (src ++ rel) = Some n -> entered src dst t t1 rel = true ->
  copy_entry dst t1 rel n = Wrote k n ->
  written (copy_steps src dst t t1) !! k = Some n.
Proof.
  intros Hne Hn He Hw. unfold written. apply elem_of_list_to_map_1'.
  - intros n2 Hin. apply list_elem_of_omap in Hin as (st & Hst & Hk).
    destruct st as [k' n'|]; [|done]. injection Hk as -> ->.
    apply copy_steps_inv in Hst as (rel2 & m & Hne2 & Hm & He2 & Hw2).
    pose proof (copy_entry_target _ _ _ _ _ _ (eq_sym Hw2)) as [-> _].
    assert (rel = rel2) as <- by (by eapply copy_entry_unique).
    congruence.
  - apply list_elem_of_omap. exists (Wrote k n). split; [|done].
    rewrite <-Hw. by apply copy_steps_elem.
Qed.

Lemma copytree_Ok (src dst : path) (t t' : fs) :
  copytree src dst t = (Ok tt, t') ->
  node_at t src = Some Dir
  /\ exists t1, makedirs_from [] dst t = (Ok tt, t1)
       /\ failed (copy_steps src dst t t1) = false
       /\ t' = written (copy_steps src dst t t1) ∪ t1.
Proof.
  unfold copytree. intros H.
  destruct (node_at t src) as [[c|]|]; [done| |done]. split; [done|].
  destruct (makedirs_from [] dst t) as [[[]|e] t1]; [|done].
  destruct (failed _) eqn:Hf; [done|]. injection H as <-. by exists t1.
Qed.

Lemma failed_false (steps : list copy_step) :
  failed steps = false -> Failed ∉ steps.
Proof.
  unfold failed. intros H Hin. apply not_true_iff_false in H. apply H.
  apply existsb_exists. exists Failed. split; [by apply list_elem_of_In|done].
Qed.

Lemma failed_true (steps : list copy_step) :
  Failed ∉ steps -> failed steps = false.
Proof.
  intros H. unfold failed. apply not_true_iff_false.
  intros (st & Hin%list_elem_of_In & Hst)%existsb_exists.
  destruct st; [done|]. by apply H.
Qed.

(** When the copy returns, every listed entry was reached. *)
Lemma ok_entered (src dst : path) (t t1 : fs) (rel : path) :
  failed (copy_steps src dst t t1) = false ->
  listed t src rel ->
  entered src dst t t1 rel = true.
Proof.
  intros Hf%failed_false.
  assert (forall n rel, (length rel <= n)%nat -> listed t src rel ->
            entered src dst t t1 rel = true) as Hgen; [|by eapply Hgen].
  clear rel. induction n as [|n IH]; intros rel Hlen Hl;
    (apply entered_listed; [done|]); intros i c Hi Hc; [lia|].
  apply Hf. assert (take i rel <> []) as Hne.
  { destruct rel; [simpl in Hi; lia|]. destruct i; [lia|done]. }
  assert (copy_entry dst t1 (take i rel) Dir = Failed) as <-.
  { unfold copy_entry. by rewrite Hc. }
  apply copy_steps_elem; [done|by apply Hl|].
  apply IH.
  - rewrite length_take. lia.
  - intros j Hj. rewrite length_take in Hj. rewrite take_take.
    replace (j `min` i)%nat with j by lia. apply Hl. lia.
Qed.

Lemma makedirs_below (dst : path) (t t1 : fs) (r : outcome unit) (rel : path) :
  makedirs_from [] dst t = (r, t1) -> rel <> [] ->
  t1 !! (dst ++ rel) = t !! (dst ++ rel).
Proof.
  intros Hmk Hne.
  destruct (makedirs_from_lookup _ _ _ _ _ (dst ++ rel) Hmk) as [|[_ [k Hk]]]; [done|].
  exfalso. simpl in Hk. apply (f_equal length) in Hk.
  rewrite !length_app in Hk. destruct rel; [done|]. simpl in Hk. lia.
Qed.

Lemma makedirs_from_Ok (made todo : path) (t t1 : fs) :
  makedirs_from made todo t = (Ok tt, t1) -> todo <> [] ->
  t1 !! (made ++ todo) = Some Dir.
Proof.
  revert made t. induction todo as [|n todo IH]; intros made t H Hne; [done|].
  simpl in H. destruct (t !! (made ++ [n])) as [[c|]|] eqn:Hd; [done| |].
  - destruct todo as [|m todo].
    + simpl in H. by injection H as <-.
    + apply IH in H; [|done]. by rewrite <-app_assoc in H.
  - destruct todo as [|m todo].
    + simpl in H. injection H as <-. by rewrite lookup_insert_eq.
    + apply IH in H; [|done]. by rewrite <-app_assoc in H.
Qed.

Lemma copy_entry_Dir (dst : path) (t1 : fs) (rel : path) (k : path) (n : node) :
  copy_entry dst t1 rel Dir = Wrote k n -> k = dst ++ rel.
Proof.
  unfold copy_entry. destruct (t1 !! (dst ++ rel)) as [[c|]|]; by intros [= <- _].
Qed.

Lemma copy_entry_File (dst : path) (t t1 : fs) (rel : path) (c : str)
    (k : path) (n : node) :
  t1 !! (dst ++ rel) = t !! (dst ++ rel) ->
  copy_entry dst t1 rel (File c) = Wrote k n -> k = file_target t dst rel.
Proof.
  unfold copy_entry, file_target. intros ->.
  destruct (t !! (dst ++ rel)) as [[c'|]|]; [by intros [= <- _]| |by intros [= <- _]].
  destruct (t1 !! (dst ++ rel ++ [name rel])) as [[c'|]|]; by intros [= <- _].
Qed.

(** When the copy returns, every listed entry is in its place. *)
Lemma copytree_places (src dst : path) (t t' : fs) (rel : path) (n : node) :
  copytree src dst t = (Ok tt, t') ->
  rel <> [] -> t !! (src ++ rel) = Some n -> listed t src rel ->
  placed t t' dst rel n.
Proof.
  intros (_ & t1 & Hmk & Hf & ->)%copytree_Ok Hne Hn Hl.
  pose proof (ok_entered src dst t t1 rel Hf Hl) as He.
  pose proof (copy_steps_elem src dst t t1 rel n Hne Hn He) as Hin.
  destruct (copy_entry dst t1 rel n) as [k n'|] eqn:Hw.
  2:{ by apply failed_false in Hf. }
  pose proof (copy_entry_target _ _ _ _ _ _ Hw) as [-> _].
  pose proof (written_lookup src dst t t1 rel n k Hne Hn He Hw) as Hk.
  unfold placed. destruct n as [c|].
  - apply copy_entry_File with (t := t) in Hw as ->; [|by eapply makedirs_below].
    by apply lookup_union_Some_l.
  - apply copy_entry_Dir in Hw as ->. by apply lookup_union_Some_l.
Qed.

Lemma written_at_root (src dst : path) (t t1 : fs) :
  written (copy_steps src dst t t1) !! dst = None.
Proof.
  destruct (written (copy_steps src dst t t1) !! dst) as [n|] eqn:Hw; [|done].
  apply written_below in Hw as (q & Hq & Heq).
  rewrite <-(app_nil_r dst) in Heq at 1. by apply app_inv_head in Heq.
Qed.

Lemma copytree_root (src dst : path) (t t' : fs) :
  copytree src dst t = (Ok tt, t') -> dst <> [] -> t' !! dst = Some Dir.
Proof.
  intros (_ & t1 & Hmk & _ & ->)%copytree_Ok Hne.
  rewrite lookup_union_r by apply written_at_root.
  by apply (makedirs_from_Ok [] dst t t1).
Qed.

(** What the copy leaves as it was below the destination: a place where
    the source has nothing and where no file of the source is put. *)
Lemma copytree_keeps (src dst : path) (t t' : fs) (r : outcome unit) (q : path) :
  copytree src dst t = (r, t') -> q <> [] ->
  t !! (src ++ q) = None ->
  (forall rel c, t !! (src ++ rel) = Some (File c) ->
     file_target t dst rel <> dst ++ q) ->
  t' !! (dst ++ q) = t !! (dst ++ q).
Proof.
  intros H Hq Hnone Hfiles. unfold copytree in H.
  destruct (node_at t src) as [[c|]|]; [congruence| |congruence].
  destruct (makedirs_from [] dst t) as [[u|e] t1] eqn:Hmk.
  2:{ simplify_eq. by eapply makedirs_below. }
  assert ((written (copy_steps src dst t t1) ∪ t1) !! (dst ++ q) = t !! (dst ++ q))
    as Hw; [|destruct (failed _); by simplify_eq].
  rewrite lookup_union_r; [by eapply makedirs_below|].
  destruct (written (copy_steps src dst t t1) !! (dst ++ q)) as [n|] eqn:Hw; [|done].
  exfalso. apply written_lookup_Some in Hw as (rel & Hne & Hn & _ & Hw).
  destruct n as [c|].
  - apply copy_entry_File with (t := t) in Hw; [|by eapply makedirs_below].
    by apply (Hfiles rel c).
  - apply copy_entry_Dir in Hw. apply app_inv_head in Hw as ->. congruence.
Qed.

Lemma copy_static_assets_eq (t : fs) :
  copy_static_assets t
  = ((if bool_decide (is_Some (node_at t SOURCE_ASSETS))
      then copytree SOURCE_ASSETS UPLOADS_TARGET else io_ret tt) ;;;
     (fun u =>
        ((if bool_decide (is_Some (node_at u FIGURES_DIR))
          then copytree FIGURES_DIR FIGURES_TARGET else io_ret tt) ;;;
         write_text STYLESHEET_PATH (strip STYLESHEET_TEXT)) u)) t.
Proof. reflexivity. Qed.

Lemma copy_static_assets_Ok (t t' : fs) :
  copy_static_assets t = (Ok tt, t') ->
  exists u1 u2,
    (if bool_decide (is_Some (node_at t SOURCE_ASSETS))
     then copytree SOURCE_ASSETS UPLOADS_TARGET else io_ret tt) t = (Ok tt, u1)
    /\ (if bool_decide (is_Some (node_at u1 FIGURES_DIR))
        then copytree FIGURES_DIR FIGURES_TARGET else io_ret tt) u1 = (Ok tt, u2)
    /\ t' = <[STYLESHEET_PATH := File (strip STYLESHEET_TEXT)]> u2.
Proof.
  rewrite copy_static_assets_eq. intros H.
  apply io_bind_Ok in H as ([] & u1 & H1 & H).
  apply io_bind_Ok in H as ([] & u2 & H2 & H).
  apply write_text_Ok in H as [-> _]. by exists u1, u2.
Qed.

(** One step of [copy_static_assets]: the copy of a directory that
    exists. *)
Lemma optional_copy (src : path) (nm : str) (t u : fs) :
  src <> [] ->
  (if bool_decide (is_Some (node_at t src)) then copytree src (ASSETS_DIR ++ [nm])
   else io_ret tt) t = (Ok tt, u) ->
  (forall rel n, is_Some (t !! src) -> t !! (src ++ rel) = Some n ->
     listed t src rel -> placed t u (ASSETS_DIR ++ [nm]) rel n)
  /\ (forall q, q <> [] -> t !! (src ++ q) = None ->
        (forall rel c, t !! (src ++ rel) = Some (File c) ->
           file_target t (ASSETS_DIR ++ [nm]) rel <> (ASSETS_DIR ++ [nm]) ++ q) ->
        u !! ((ASSETS_DIR ++ [nm]) ++ q) = t !! ((ASSETS_DIR ++ [nm]) ++ q))
  /\ (forall k, ~ around (ASSETS_DIR ++ [nm]) k -> u !! k = t !! k).
Proof.
  intros Hne H. rewrite lookup_path_nonempty in H by done.
  destruct (decide (is_Some (t !! src))) as [Hs|Hs].
  - rewrite bool_decide_true in H by done.
    split; [|split].
    + intros rel n _ Hn Hl. destruct rel as [|x rel].
      * rewrite app_nil_r in Hn.
        pose proof H as (Hsrc & _)%copytree_Ok.
        rewrite lookup_path_nonempty, Hn in Hsrc by done. injection Hsrc as ->.
        unfold placed. rewrite app_nil_r. by apply (copytree_root src _ t).
      * by apply (copytree_places src _ t u (x :: rel) n H).
    + intros q Hq Hnone Hfiles. by apply (copytree_keeps src _ t u (Ok tt)).
    + by apply (stays_in_copytree _ _ _ _ _ H).
  - rewrite bool_decide_false in H by done. injection H as <-.
    split; [|split]; [by intros rel n Hs' | done | done].
Qed.

Lemma not_around_sibling (a b : str) (q : path) :
  a <> b -> ~ around (ASSETS_DIR ++ [a]) (ASSETS_DIR ++ b :: q).
Proof.
  intros Hab [[_ [k Hk]]|[k Hk]]; simpl in Hk; by simplify_eq.
Qed.

Lemma not_around_input (d nm : str) (q : path) :
  d <> lit "site" -> ~ around (ASSETS_DIR ++ [nm]) (d :: q).
Proof.
  intros Hd [[_ [k Hk]]|[k Hk]]; simpl in Hk; by simplify_eq.
Qed.

Lemma file_target_below (t : fs) (nm : str) (rel : path) :
  exists q, file_target t (ASSETS_DIR ++ [nm]) rel = ASSETS_DIR ++ nm :: q.
Proof.
  unfold file_target.
  destruct (t !! ((ASSETS_DIR ++ [nm]) ++ rel)) as [[c|]|];
    [by exists rel|by exists (rel ++ [name rel])|by exists rel].
Qed.

Lemma file_target_agree (t u : fs) (dst rel : path) :
  u !! (dst ++ rel) = t !! (dst ++ rel) ->
  file_target u dst rel = file_target t dst rel.
Proof. unfold file_target. by intros ->. Qed.

Lemma listed_agree (t u : fs) (src rel : path) :
  (forall q, u !! (src ++ q) = t !! (src ++ q)) ->
  listed t src rel -> listed u src rel.
Proof. intros Ha Hl i Hi. rewrite Ha. by apply Hl. Qed.

Lemma copy_static_assets_copied (t t' : fs) :
  copy_static_assets t = (Ok tt, t') ->
  (forall rel n, is_Some (t !! SOURCE_ASSETS) -> t !! (SOURCE_ASSETS ++ rel) = Some n ->
     listed t SOURCE_ASSETS rel -> placed t t' UPLOADS_TARGET rel n)
  /\ (forall rel n, is_Some (t !! FIGURES_DIR) -> t !! (FIGURES_DIR ++ rel) = Some n ->
        listed t FIGURES_DIR rel -> placed t t' FIGURES_TARGET rel n)
  /\ t' !! STYLESHEET_PATH = Some (File (strip STYLESHEET_TEXT)).
Proof.
  intros (u1 & u2 & H1 & H2 & ->)%copy_static_assets_Ok.
  apply optional_copy in H1 as (Hc1 & _ & Hf1); [|done].
  apply optional_copy in H2 as (Hc2 & _ & Hf2); [|done].
  assert (forall q, u1 !! (FIGURES_DIR ++ q) = t !! (FIGURES_DIR ++ q)) as Hfig.
  { intros q. apply Hf1. by apply not_around_input. }
  split; [|split].
  - intros rel n Hs Hn Hl. specialize (Hc1 rel n Hs Hn Hl).
    unfold placed in *. destruct n as [c|].
    + destruct (file_target_below t (lit "uploads") rel) as [q Hq].
      change (ASSETS_DIR ++ [lit "uploads"]) with UPLOADS_TARGET in Hq, Hc1.
      rewrite Hq in *. rewrite lookup_insert_ne by done.
      by rewrite Hf2 by (by apply not_around_sibling).
    + rewrite lookup_insert_ne by (by destruct rel).
      change (UPLOADS_TARGET ++ rel) with (ASSETS_DIR ++ lit "uploads" :: rel) in *.
      by rewrite Hf2 by (by apply not_around_sibling).
  - intros rel n Hs Hn Hl.
    assert (placed u1 u2 FIGURES_TARGET rel n) as Hp.
    { apply Hc2.
      - rewrite <-(app_nil_r FIGURES_DIR), Hfig. by rewrite app_nil_r.
      - by rewrite Hfig.
      - by apply (listed_agree t). }
    unfold placed in *. destruct n as [c|].
    + rewrite (file_target_agree t u1) in Hp.
      2:{ change (FIGURES_TARGET ++ rel) with (ASSETS_DIR ++ lit "figures" :: rel).
          apply Hf1. by apply not_around_sibling. }
      destruct (file_target_below t (lit "figures") rel) as [q Hq].
      change (ASSETS_DIR ++ [lit "figures"]) with FIGURES_TARGET in Hq.
      rewrite Hq in *. by rewrite lookup_insert_ne.
    + by rewrite lookup_insert_ne by (by destruct rel).
  - by rewrite lookup_insert_eq.
Qed.

Lemma tree_parent_exists (t : fs) (d q : path) (n : node) :
  tree t -> d <> [] -> t !! (d ++ q) = Some n -> is_Some (t !! d).
Proof.
  intros Ht Hd Hq. destruct (t !! d) as [m|] eqn:Hm; [by eauto|].
  rewrite (tree_no_orphans t d (d ++ q)) in Hq; [done..|]. by apply prefix_app_r.
Qed.

Lemma parent_snoc (q : path) (x : str) : parent (q ++ [x]) = q.
Proof.
  unfold parent. rewrite length_app. simpl.
  replace (length q + 1 - 1)%nat with (length q) by lia. apply take_app_length.
Qed.

(** In a tree every entry below a directory is listed. *)
Lemma tree_listed (t : fs) (src rel : path) (n : node) :
  tree t -> src <> [] -> t !! (src ++ rel) = Some n -> listed t src rel.
Proof.
  intros Ht Hsrc Hn.
  assert (forall d j, (S j + d = length rel)%nat ->
            t !! (src ++ take j rel) = Some Dir) as Hgen.
  { induction d as [|d IH]; intros j Hj.
    - destruct (lookup_lt_is_Some_2 rel j) as [x Hx]; [lia|].
      assert (rel = take j rel ++ [x]) as Hrel.
      { rewrite <-(take_S_r _ _ _ Hx). symmetry. apply take_ge. lia. }
      rewrite Hrel, app_assoc in Hn. apply Ht in Hn as [_ Hpar].
      rewrite parent_snoc in Hpar.
      by rewrite lookup_path_nonempty in Hpar by (by destruct src).
    - destruct (lookup_lt_is_Some_2 rel j) as [x Hx]; [lia|].
      pose proof (IH (S j) ltac:(lia)) as Hnext.
      rewrite (take_S_r _ _ _ Hx), app_assoc in Hnext.
      apply Ht in Hnext as [_ Hpar]. rewrite parent_snoc in Hpar.
      by rewrite lookup_path_nonempty in Hpar by (by destruct src). }
  intros i Hi. apply (Hgen (length rel - S i)%nat). lia.
Qed.

(** X13.  When [copy_static_assets] returns on a tree, every node of
    the source [assets] directory is in its place below
    [assets/uploads], and every node of [figures] below
    [assets/figures]: a directory at the same relative path; a file at
    the same relative path too, unless a directory stood there in the
    output, in which case the file is inside that directory under its own
    name.  [assets/style.css] holds the stylesheet of the script,
    stripped. *)
Theorem copy_static_assets_copies (t t' : fs) :
  tree t -> copy_static_assets t = (Ok tt, t') ->
  (forall rel n, t !! (SOURCE_ASSETS ++ rel) = Some n ->
     match n with
     | Dir => t' !! (UPLOADS_TARGET ++ rel) = Some Dir
     | File c =>
         match t !! (UPLOADS_TARGET ++ rel) with
         | Some Dir => t' !! (UPLOADS_TARGET ++ rel ++ [name rel]) = Some (File c)
         | _ => t' !! (UPLOADS_TARGET ++ rel) = Some (File c)
         end
     end)
  /\ (forall rel n, t !! (FIGURES_DIR ++ rel) = Some n ->
        match n with
        | Dir => t' !! (FIGURES_TARGET ++ rel) = Some Dir
        | File c =>
            match t !! (FIGURES_TARGET ++ rel) with
            | Some Dir => t' !! (FIGURES_TARGET ++ rel ++ [name rel]) = Some (File c)
            | _ => t' !! (FIGURES_TARGET ++ rel) = Some (File c)
            end
        end)
  /\ t' !! STYLESHEET_PATH = Some (File (strip STYLESHEET_TEXT)).
Proof.
  intros Ht (H1 & H2 & H3)%copy_static_assets_copied.
  split; [|split; [|done]].
  - intros rel n Hn.
    assert (SOURCE_ASSETS <> []) as Hne by done.
    specialize (H1 rel n (tree_parent_exists t SOURCE_ASSETS rel n Ht Hne Hn) Hn
                  (tree_listed t SOURCE_ASSETS rel n Ht Hne Hn)).
    unfold placed, file_target in H1. destruct n as [c|]; [|done].
    by destruct (t !! (UPLOADS_TARGET ++ rel)) as [[c'|]|].
  - intros rel n Hn.
    assert (FIGURES_DIR <> []) as Hne by done.
    specialize (H2 rel n (tree_parent_exists t FIGURES_DIR rel n Ht Hne Hn) Hn
                  (tree_listed t FIGURES_DIR rel n Ht Hne Hn)).
    unfold placed, file_target in H2. destruct n as [c|]; [|done].
    by destruct (t !! (FIGURES_TARGET ++ rel)) as [[c'|]|].
Qed.

(** X14.  The copies merge into what the output holds: a node below
    [assets/uploads] (or [assets/figures]) is left as it was when the
    source directory has nothing at its relative path and no file of the
    source is put there, which happens to the place inside a directory of
    the output that stands where the source has a file. *)
Theorem copy_static_assets_keeps (t t' : fs) (q : path) :
  copy_static_assets t = (Ok tt, t') -> q <> [] ->
  (t !! (SOURCE_ASSETS ++ q) = None ->
   (forall rel c, t !! (SOURCE_ASSETS ++ rel) = Some (File c) ->
      t !! (UPLOADS_TARGET ++ rel) = Some Dir -> q <> rel ++ [name rel]) ->
   t' !! (UPLOADS_TARGET ++ q) = t !! (UPLOADS_TARGET ++ q))
  /\ (t !! (FIGURES_DIR ++ q) = None ->
      (forall rel c, t !! (FIGURES_DIR ++ rel) = Some (File c) ->
         t !! (FIGURES_TARGET ++ rel) = Some Dir -> q <> rel ++ [name rel]) ->
      t' !! (FIGURES_TARGET ++ q) = t !! (FIGURES_TARGET ++ q)).
Proof.
  intros (u1 & u2 & H1 & H2 & ->)%copy_static_assets_Ok Hq.
  apply optional_copy in H1 as (_ & Hk1 & Hf1); [|done].
  apply optional_copy in H2 as (_ & Hk2 & Hf2); [|done].
  assert (forall (src dst : path) (s : fs),
            s !! (src ++ q) = None ->
            (forall rel c, s !! (src ++ rel) = Some (File c) ->
               s !! (dst ++ rel) = Some Dir -> q <> rel ++ [name rel]) ->
            forall rel c, s !! (src ++ rel) = Some (File c) ->
              file_target s dst rel <> dst ++ q) as Htargets.
  { intros src dst s Hnone Hin rel c Hc Heq. unfold file_target in Heq.
    destruct (s !! (dst ++ rel)) as [[c'|]|] eqn:Hd.
    - apply app_inv_head in Heq as ->. congruence.
    - apply app_inv_head in Heq. by eapply Hin.
    - apply app_inv_head in Heq as ->. congruence. }
  split; intros Hnone Hin.
  - rewrite lookup_insert_ne by (destruct q as [|? []]; done).
    change (UPLOADS_TARGET ++ q) with (ASSETS_DIR ++ lit "uploads" :: q).
    rewrite Hf2 by (by apply not_around_sibling).
    apply Hk1; [done..|]. by apply Htargets.
  - rewrite lookup_insert_ne by (destruct q as [|? []]; done).
    assert (forall k, u1 !! (FIGURES_DIR ++ k) = t !! (FIGURES_DIR ++ k)) as Hsrc.
    { intros k. apply Hf1. by apply not_around_input. }
    assert (forall k, u1 !! (FIGURES_TARGET ++ k) = t !! (FIGURES_TARGET ++ k)) as Hdst.
    { intros k. apply Hf1. by apply not_around_sibling. }
    rewrite <-Hdst. apply Hk2; [done|by rewrite Hsrc|].
    apply Htargets; [by rewrite Hsrc|].
    intros rel c Hc Hd. rewrite Hsrc in Hc. rewrite Hdst in Hd. by eapply Hin.
Qed.

Lemma around_assets (q : path) :
  around ASSETS_DIR q -> q = OUTPUT_DIR \/ ASSETS_DIR `prefix_of` q.
Proof.
  intros [[Hne Hq]|Hq]; [|by right].
  change ASSETS_DIR with (OUTPUT_DIR ++ [lit "assets"]) in Hq.
  apply prefix_snoc_inv in Hq as [Hq| ->]; [|by right].
  left. destruct Hq as [k Hk]. destruct q as [|x [|y q]]; [done| |done].
  by injection Hk as <-.
Qed.

(** X15.  Whether it returns or raises, [copy_static_assets] leaves
    every node as it was, but the output directory itself, which it may
    make, and what lies at [assets] in it and below. *)
Theorem copy_static_assets_frame (t : fs) (q : path) :
  q <> OUTPUT_DIR -> ~ ASSETS_DIR `prefix_of` q ->
  (copy_static_assets t).2 !! q = t !! q.
Proof.
  intros Ho Ha.
  eapply (stays_in_copy_static_assets t); [apply surjective_pairing|].
  intros [->|Hq]%around_assets; done.
Qed.

(** ** Text that can be encoded *)

Lemma utf8_text_scalars (s : str) : utf8_text s = true <-> scalars s.
Proof.
  unfold utf8_text, scalars. rewrite forallb_forall, Forall_forall.
  split; intros H c Hc; apply H; by apply list_elem_of_In.
Qed.

Lemma scalars_lit_ok (s : str) : utf8_text s = true -> scalars s.
Proof. apply utf8_text_scalars. Qed.

Lemma scalars_universal_newlines (s : str) :
  scalars s -> scalars (universal_newlines s).
Proof.
  induction s as [s IH] using (induction_ltof1 _ (@length N)).
  unfold ltof in IH. intros Hs. destruct s as [|c s]; [done|].
  apply Forall_cons in Hs as [Hc Hs]. cbn [universal_newlines].
  destruct (c =? 13).
  - constructor; [done|]. destruct s as [|c2 s]; [constructor|].
    apply Forall_cons in Hs as [Hc2 Hs].
    destruct (c2 =? 10).
    + apply IH; [simpl; lia|done].
    + apply IH; [simpl; lia|]. by constructor.
  - constructor; [done|]. apply IH; [simpl; lia|done].
Qed.

Lemma scalars_splitlines_from (cur s : str) :
  scalars cur -> scalars s -> Forall scalars (splitlines_from cur s).
Proof.
  revert cur. induction s as [s IH] using (induction_ltof1 _ (@length N)).
  unfold ltof in IH. intros cur Hcur Hs. destruct s as [|c s].
  - simpl. destruct cur; [constructor|]. constructor; [done|constructor].
  - apply Forall_cons in Hs as [Hc Hs]. cbn [splitlines_from].
    destruct (is_linebreak c).
    + destruct (c =? 13).
      * destruct s as [|c2 s].
        -- constructor; [done|]. apply IH; [simpl; lia|constructor|done].
        -- apply Forall_cons in Hs as [Hc2 Hs]. destruct (c2 =? 10).
           ++ constructor; [done|]. apply IH; [simpl; lia|constructor|done].
           ++ constructor; [done|].
              apply IH; [simpl; lia|constructor|by constructor].
      * constructor; [done|]. apply IH; [simpl; lia|constructor|done].
    + apply IH; [simpl; lia| |done]. apply Forall_app. by repeat constructor.
Qed.

Lemma scalars_lstrip (s : str) : scalars s -> scalars (lstrip s).
Proof.
  induction 1 as [|c s Hc Hs IH]; simpl; [constructor|].
  destruct (isspace c); [done|]. by constructor.
Qed.

Lemma scalars_strip (s : str) : scalars s -> scalars (strip s).
Proof.
  intros Hs. unfold strip, rstrip. apply Forall_rev, scalars_lstrip, Forall_rev.
  by apply scalars_lstrip.
Qed.

Lemma scalars_drop_while (cls : N -> bool) (s : str) :
  scalars s -> scalars (drop_while cls s).
Proof.
  induction 1 as [|c s Hc Hs IH]; simpl; [constructor|].
  destruct (cls c); [done|]. by constructor.
Qed.

Lemma scalars_extract_title (text fallback : str) :
  scalars text -> scalars fallback -> scalars (extract_title text fallback).
Proof.
  intros Ht Hf. unfold extract_title.
  pose proof (scalars_splitlines_from [] text ltac:(constructor) Ht) as Hl.
  fold (splitlines text) in Hl.
  induction Hl as [|line lines Hline _ IH]; cbn [extract_title_loop]; [done|].
  cbv zeta. destruct (startswith (strip line) [HASH]); [|done].
  rewrite re_sub_TITLE_PATTERN. apply scalars_strip in Hline.
  unfold TITLE_PATTERN_sub_empty, TITLE_PATTERN_match.
  destruct (strip line) as [|c s]; [done|].
  apply Forall_cons in Hline as [Hc Hs].
  destruct (c =? HASH); [|by constructor].
  pose proof (scalars_drop_while (N.eqb HASH) s Hs) as Hd.
  destruct (drop_while (N.eqb HASH) s) as [|b u]; [by constructor|].
  apply Forall_cons in Hd as [Hb Hu].
  destruct (b =? BACKSLASH); [|by constructor].
  by apply scalars_drop_while.
Qed.

Lemma scalars_href_attr (v : str) : scalars (href_attr v) <-> scalars v.
Proof.
  unfold href_attr, scalars. rewrite !Forall_app. split; [by intros (_ & H & _)|].
  intros H. split; [|split; [done|]].
  - apply scalars_lit_ok. reflexivity.
  - by repeat constructor.
Qed.

Lemma scalars__replace (v g1 : str) (g2 : option str) :
  parse_value v = Some (g1, g2) -> scalars v -> scalars (_replace (match_of g1 g2)).
Proof.
  intros Hp Hv. pose proof (parse_value_Some_eq _ _ _ Hp) as Heq.
  rewrite Heq in Hv. apply Forall_app in Hv as [Hg1 Hrest].
  apply Forall_app in Hrest as [_ Hg2].
  destruct (is_external g1) eqn:He.
  - rewrite _replace_external, (match_of_group0 v) by done.
    apply scalars_href_attr. rewrite Heq.
    apply Forall_app. split; [done|]. apply Forall_app. split; [|done].
    apply scalars_lit_ok. reflexivity.
  - rewrite _replace_internal by done. apply scalars_href_attr.
    apply Forall_app. split.
    + set (href := if startswith g1 (lit "chapters/") then drop 9 g1 else g1).
      assert (scalars href) as Hh.
      { unfold href. destruct (startswith g1 (lit "chapters/")); [|done].
        by apply Forall_drop. }
      destruct (final_segment_suffix href) as [p Hp'].
      rewrite Hp' in Hh. by apply Forall_app in Hh as [_ Hh].
    + apply Forall_app. split; [|done]. apply scalars_lit_ok. reflexivity.
Qed.

(** Rewriting the links of a text that can be encoded gives such a
    text. *)
Lemma scalars_convert_links (s : str) : scalars s -> scalars (convert_links s).
Proof.
  rewrite convert_links_rewritten. unfold rewritten.
  induction s as [|c s Hm IH|s m rest Hm IH] using scan_ind; intros Hs.
  - done.
  - rewrite (sub_miss _ _ _ Hm). apply Forall_cons in Hs as [Hc Hs].
    constructor; [done|]. by apply IH.
  - rewrite (sub_hit _ _ _ _ Hm).
    apply LINK_PATTERN_match_Some in Hm as (v & g1 & g2 & _ & -> & Hp & ->).
    apply Forall_app in Hs as [Hv Hrest]. apply (proj1 (scalars_href_attr v)) in Hv.
    apply Forall_app. split; [eapply scalars__replace; eassumption|by apply IH].
Qed.

Lemma is_scalar_byte (c : N) : c < 256 -> is_scalar c = true.
Proof.
  intros Hc. unfold is_scalar. apply andb_true_iff. split.
  - apply N.leb_le. lia.
  - apply negb_true_iff, andb_false_iff. left. apply N.leb_gt. lia.
Qed.

Lemma scalars_str_of_N (n : N) : scalars (str_of_N n).
Proof.
  unfold str_of_N. destruct n as [|p]; [by repeat constructor|].
  apply Forall_forall. intros c Hc. apply list_elem_of_fmap in Hc as (a & -> & _).
  apply is_scalar_byte, N_ascii_bounded.
Qed.

Lemma scalars_stem (p : path) : scalars (name p) -> scalars (stem p).
Proof.
  intros Hn. unfold stem. destruct (rfind_from DOT 0 (name p)) as [i|]; [|done].
  destruct (_ && _); [|done]. by apply Forall_take.
Qed.

Lemma scalars_join (sep : str) (parts : list str) :
  scalars sep -> Forall scalars parts -> scalars (join sep parts).
Proof.
  intros Hsep Hparts. induction Hparts as [|p ps Hp Hps IH]; [constructor|].
  destruct ps as [|q ps]; [done|].
  change (join sep (p :: q :: ps)) with (p ++ sep ++ join sep (q :: ps)).
  apply Forall_app. split; [done|]. apply Forall_app. by split.
Qed.

Lemma scalars_HTML_PAGE (a b c d : str) :
  scalars a -> scalars b -> scalars c -> scalars d ->
  scalars (HTML_PAGE a b c d).
Proof.
  intros Ha Hb Hc Hd. unfold HTML_PAGE.
  repeat (apply Forall_app; split); try done;
    apply scalars_lit_ok; vm_compute; reflexivity.
Qed.

Lemma scalars_INDEX_PAGE (a b : str) :
  scalars a -> scalars b -> scalars (INDEX_PAGE a b).
Proof.
  intros Ha Hb. unfold INDEX_PAGE.
  repeat (apply Forall_app; split); try done;
    apply scalars_lit_ok; vm_compute; reflexivity.
Qed.

Lemma scalars_chapter_item (c : Chapter) :
  scalars (title c) -> scalars (output_name c) -> scalars (chapter_item c).
Proof.
  intros Ht Ho. unfold chapter_item.
  repeat (apply Forall_app; split); try done;
    apply scalars_lit_ok; vm_compute; reflexivity.
Qed.

(** ** The whole run *)

Lemma stays_in_rmtree (p : path) : stays_in (fun q => p `prefix_of` q) (rmtree p).
Proof.
  intros t r t' H q Hq. unfold rmtree in H.
  destruct (node_at t p) as [[c|]|]; simplify_eq; try done.
  rewrite map_lookup_filter. destruct (t !! q) as [n|]; simpl; [|done].
  by rewrite option_guard_True.
Qed.

Lemma stays_in_clean_output_dir :
  stays_in (fun q => OUTPUT_DIR `prefix_of` q) clean_output_dir.
Proof.
  unfold clean_output_dir.
  apply stays_in_bind; [apply reads_stays_in, reads_path_exists|]. intros ex.
  apply stays_in_bind.
  { destruct ex; [apply stays_in_rmtree|apply stays_in_ret]. }
  intros _. apply stays_in_bind.
  - eapply stays_in_weaken; [|apply stays_in_mkdir]. intros q. by apply around_site.
  - intros _. eapply stays_in_weaken; [|apply stays_in_mkdir].
    intros q. apply around_site. by exists [lit "assets"].
Qed.

Lemma html_name_not_assets (s : str) : s ++ DOT_HTML <> lit "assets".
Proof.
  intros Heq. assert (endswith (lit "assets") DOT_HTML = true) as H.
  { rewrite <-Heq. apply endswith_iff. by exists s. }
  vm_compute in H. discriminate.
Qed.

Lemma makedirs_assets_child (nm : str) (s : fs) :
  s !! OUTPUT_DIR = Some Dir -> s !! ASSETS_DIR = Some Dir ->
  s !! (ASSETS_DIR ++ [nm]) = None ->
  makedirs_from [] (ASSETS_DIR ++ [nm]) s = (Ok tt, <[ASSETS_DIR ++ [nm] := Dir]> s).
Proof.
  intros H1 H2 H3. simpl.
  change [lit "site"] with OUTPUT_DIR. rewrite H1.
  change [lit "site"; lit "assets"] with ASSETS_DIR. rewrite H2.
  change [lit "site"; lit "assets"; nm] with (ASSETS_DIR ++ [nm]). by rewrite H3.
Qed.

(** One step of [copy_static_assets] into a child of [assets] that does
    not exist: nothing stands in the way of an entry, so the copy
    returns. *)
Lemma copy_step_returns (src : path) (nm : str) (s : fs) :
  src <> [] -> (forall c, s !! src <> Some (File c)) ->
  s !! OUTPUT_DIR = Some Dir -> s !! ASSETS_DIR = Some Dir ->
  (forall q, s !! (ASSETS_DIR ++ nm :: q) = None) ->
  exists u,
    (if bool_decide (is_Some (node_at s src)) then copytree src (ASSETS_DIR ++ [nm])
     else io_ret tt) s = (Ok tt, u)
    /\ (forall k, ~ (ASSETS_DIR ++ [nm]) `prefix_of` k -> u !! k = s !! k).
Proof.
  intros Hne Hf H1 H2 Hbelow. rewrite lookup_path_nonempty by done.
  destruct (s !! src) as [[c|]|] eqn:Hs.
  - by destruct (Hf c).
  - rewrite bool_decide_true by eauto.
    unfold copytree. rewrite lookup_path_nonempty, Hs by done.
    rewrite makedirs_assets_child by (done || apply (Hbelow [])).
    cbv zeta. set (t1 := <[ASSETS_DIR ++ [nm] := Dir]> s).
    assert (failed (copy_steps src (ASSETS_DIR ++ [nm]) s t1) = false) as ->.
    { apply failed_true. intros (rel & n & Hrel & _ & _ & Hst)%copy_steps_inv.
      assert (t1 !! ((ASSETS_DIR ++ [nm]) ++ rel) = None) as Hnone.
      { unfold t1. rewrite lookup_insert_ne.
        - rewrite <-app_assoc. apply Hbelow.
        - intros Heq. apply Hrel.
          rewrite <-(app_nil_r (ASSETS_DIR ++ [nm])) in Heq at 1.
          by apply app_inv_head in Heq. }
      unfold copy_entry in Hst. rewrite Hnone in Hst. by destruct n. }
    eexists. split; [done|].
    intros k Hk. rewrite lookup_union_r.
    + unfold t1. rewrite lookup_insert_ne; [done|]. by intros <-.
    + destruct (written (copy_steps src (ASSETS_DIR ++ [nm]) s t1) !! k)
        as [n|] eqn:Hw; [|done].
      apply written_below in Hw as (q & _ & ->). destruct Hk. by apply prefix_app_r.
  - rewrite bool_decide_false by (by intros [? ?]). by exists s.
Qed.

Lemma not_under_sibling (a b : str) (q : path) :
  a <> b -> ~ (ASSETS_DIR ++ [a]) `prefix_of` (ASSETS_DIR ++ b :: q).
Proof. intros Hab [k Hk]. simpl in Hk. by simplify_eq. Qed.

(** On a clean output directory the assets are staged whenever the two
    source directories are directories or do not exist. *)
Lemma copy_static_assets_cleaned (t : fs) :
  (forall c, t !! SOURCE_ASSETS <> Some (File c)) ->
  (forall c, t !! FIGURES_DIR <> Some (File c)) ->
  exists s2, copy_static_assets (cleaned t) = (Ok tt, s2)
             /\ s2 !! OUTPUT_DIR = Some Dir.
Proof.
  intros Ha Hf.
  destruct (copy_step_returns SOURCE_ASSETS (lit "uploads") (cleaned t))
    as (u1 & H1 & Hu1); [done| | | | |].
  { intros c. rewrite <-(agree_cleaned t) by (by intros [k Hk]). apply Ha. }
  { apply cleaned_site. }
  { apply cleaned_assets. }
  { intros q. apply cleaned_below; [by exists (lit "assets" :: lit "uploads" :: q)|done..]. }
  destruct (copy_step_returns FIGURES_DIR (lit "figures") u1)
    as (u2 & H2 & Hu2); [done| | | | |].
  { intros c. rewrite Hu1 by (by intros [k Hk]).
    rewrite <-(agree_cleaned t) by (by intros [k Hk]). apply Hf. }
  { rewrite Hu1 by (by intros [k Hk]). apply cleaned_site. }
  { rewrite Hu1 by (by intros [k Hk]). apply cleaned_assets. }
  { intros q. rewrite Hu1 by (by apply not_under_sibling).
    apply cleaned_below; [by exists (lit "assets" :: lit "figures" :: q)|done..]. }
  assert (u2 !! STYLESHEET_PATH = None) as Hstyle.
  { rewrite Hu2, Hu1 by (by intros [k Hk]).
    apply cleaned_below; [by exists [lit "assets"; lit "style.css"]|done..]. }
  assert (u2 !! ASSETS_DIR = Some Dir) as Hassets.
  { rewrite Hu2, Hu1 by (by intros [k Hk]). apply cleaned_assets. }
  assert (u2 !! OUTPUT_DIR = Some Dir) as Hsite.
  { rewrite Hu2, Hu1 by (by intros [k Hk]). apply cleaned_site. }
  assert (utf8_text (strip STYLESHEET_TEXT) = true) as Htext.
  { vm_compute. reflexivity. }
  exists (<[STYLESHEET_PATH := File (strip STYLESHEET_TEXT)]> u2).
  split; [|by rewrite lookup_insert_ne].
  rewrite copy_static_assets_eq.
  change (ASSETS_DIR ++ [lit "uploads"]) with UPLOADS_TARGET in H1.
  change (ASSETS_DIR ++ [lit "figures"]) with FIGURES_TARGET in H2.
  rewrite (io_bind_eq _ _ _ _ _ H1), (io_bind_eq _ _ _ _ _ H2).
  unfold write_text.
  rewrite (lookup_path_nonempty u2 STYLESHEET_PATH), Hstyle by done.
  change (parent STYLESHEET_PATH) with ASSETS_DIR.
  by rewrite (lookup_path_nonempty u2 ASSETS_DIR), Hassets, Htext.
Qed.

(** The first entry of a list that is not a UTF-8 file. *)
Lemma first_unreadable (t : fs) (l : list path) :
  Exists (fun p => t !! p = Some Dir) l ->
  exists before p after,
    l = before ++ p :: after
    /\ Forall (utf8_file t) before
    /\ ~ utf8_file t p.
Proof.
  induction l as [|a l IH]; intros Hex; [by apply Exists_nil in Hex|].
  destruct (t !! a) as [[c|]|] eqn:Ha.
  - destruct (utf8_text c) eqn:Hu.
    + apply Exists_cons in Hex as [Hd|Hex]; [congruence|].
      destruct (IH Hex) as (before & p & after & -> & Hb & Hp).
      exists (a :: before), p, after. split; [done|]. split; [|done].
      constructor; [|done]. by exists c.
    + exists [], a, l. split; [done|]. split; [constructor|].
      intros (c' & Hc' & Hu'). congruence.
  - exists [], a, l. split; [done|]. split; [constructor|].
    intros (c' & Hc' & _). congruence.
  - exists [], a, l. split; [done|]. split; [constructor|].
    intros (c' & Hc' & _). congruence.
Qed.

Lemma utf8_file_agree (t s : fs) (p : path) :
  agree t s -> ~ OUTPUT_DIR `prefix_of` p -> utf8_file t p <-> utf8_file s p.
Proof. intros Ha Hp. unfold utf8_file. by rewrite (Ha p Hp). Qed.

(** With a directory among the entries named [*.md], [build_chapters]
    raises at the first entry that is not a UTF-8 file. *)
Lemma build_chapters_unreadable (t : fs) :
  is_Some (t !! CHAPTERS_DIR) ->
  Exists (fun p => t !! p = Some Dir) (discovered t) ->
  exists e,
    build_chapters t = (Raised e, t)
    /\ (e = IsADirectoryError \/ e = UnicodeDecodeError)
    /\ (Forall (fun p => t !! p = Some Dir \/ utf8_file t p) (discovered t) ->
        e = IsADirectoryError).
Proof.
  intros Hc Hex.
  destruct (first_unreadable t _ Hex) as (before & p & after & Hd & Hb & Hp).
  assert (p ∈ discovered t) as Hin by (rewrite Hd; set_solver).
  pose proof (discovered_elem t p Hin) as ([n Hn] & dir & base & Hname).
  assert (p <> []) as Hne by (subst p; by destruct dir).
  destruct n as [c|].
  - destruct (utf8_text c) eqn:Hu; [destruct Hp; by exists c|].
    exists UnicodeDecodeError. split; [|split; [by right|]].
    + eapply build_chapters_first; [done..|]. by eapply chapter_of_undecodable.
    + intros Hall. rewrite Forall_forall in Hall.
      destruct (Hall p Hin) as [Hdir|Hfile]; [congruence|by destruct Hp].
  - exists IsADirectoryError. split; [|split; [by left|done]].
    eapply build_chapters_first; [done..|]. by apply chapter_of_directory.
Qed.

Section BuilderRuns.

Variable markdown : str -> str.

Lemma reads_render_chapter (c : Chapter) (year : N) :
  reads (render_chapter markdown c year).
Proof.
  intros t. rewrite render_chapter_spec.
  destruct (node_at t (source c)) as [[text|]|]; [|done..].
  by destruct (utf8_text text).
Qed.

Lemma reads_render_index (chs : list Chapter) (year : N) :
  reads (render_index_from_readme markdown chs year).
Proof.
  intros t. rewrite render_index_spec.
  destruct (t !! README_PATH) as [[text|]|]; [|done..].
  by destruct (utf8_text text).
Qed.

Lemma stays_in_main (year : N) :
  stays_in (fun q => OUTPUT_DIR `prefix_of` q) (main markdown year).
Proof.
  unfold main.
  apply stays_in_bind; [apply reads_stays_in, reads_path_exists|]. intros ex.
  destruct (negb ex); [apply stays_in_raise|].
  apply stays_in_bind; [apply stays_in_clean_output_dir|]. intros _.
  apply stays_in_bind.
  { eapply stays_in_weaken; [|apply stays_in_copy_static_assets].
    intros q. apply around_site. by exists [lit "assets"]. }
  intros _.
  apply stays_in_bind; [apply reads_stays_in, reads_build_chapters|]. intros chs.
  apply stays_in_bind.
  { apply stays_in_foreach. intros c.
    apply stays_in_bind; [apply reads_stays_in, reads_render_chapter|]. intros html.
    apply stays_in_write_text. by apply prefix_app_r. }
  intros _.
  apply stays_in_bind; [apply reads_stays_in, reads_render_index|]. intros idx.
  apply stays_in_write_text. by apply prefix_app_r.
Qed.

(** X16.  Whether it returns or raises, [main] leaves every node
    outside the output directory as it was: the sources are read, never
    written, moved or removed. *)
Theorem main_sources_untouched (year : N) (t : fs) (q : path) :
  ~ OUTPUT_DIR `prefix_of` q ->
  (main markdown year t).2 !! q = t !! q.
Proof.
  intros Hq. eapply (stays_in_main year t); [apply surjective_pairing|done].
Qed.

(** The pages are written one after the other; the loop returns when
    every source is a file that can be read, every page can be encoded
    and no page is to be written over a directory. *)
Lemma foreach_pages_returns (t : fs) (year : N) (chs : list Chapter) (s : fs) :
  agree t s -> s !! OUTPUT_DIR = Some Dir ->
  (forall nm, s !! (OUTPUT_DIR ++ [nm]) = Some Dir -> nm = lit "assets") ->
  Forall (fun c => ~ OUTPUT_DIR `prefix_of` source c
                   /\ (exists page, page_of markdown t year c = Some page
                                    /\ utf8_text page = true)
                   /\ output_name c <> lit "assets") chs ->
  io_foreach (fun chapter =>
                html <- render_chapter markdown chapter year ;;
                let target_path := OUTPUT_DIR ++ [output_name chapter] in
                write_file target_path html) chs s
  = (Ok tt, write_pages markdown t year chs s)
  /\ (forall nm, write_pages markdown t year chs s !! (OUTPUT_DIR ++ [nm]) = Some Dir ->
        nm = lit "assets").
Proof.
  intros Ha Hs Hinv Hall. revert s Ha Hs Hinv.
  induction Hall as [|c chs (Hc & (page & Hpage & Hu) & Hname) _ IH];
    intros s Ha Hs Hinv.
  - done.
  - cbn [io_foreach].
    assert (render_chapter markdown c year s = (Ok page, s)) as Hr.
    { rewrite render_chapter_spec. unfold page_of in Hpage.
      rewrite <-(agree_node_at t s) by done.
      destruct (node_at t (source c)) as [[text|]|]; [|done..].
      destruct (utf8_text text); by simplify_eq. }
    assert (write_file (OUTPUT_DIR ++ [output_name c]) page s
            = (Ok tt, <[OUTPUT_DIR ++ [output_name c] := File page]> s)) as Hw.
    { unfold write_file, write_text.
      rewrite (lookup_path_nonempty s (OUTPUT_DIR ++ [output_name c])) by done.
      change (parent (OUTPUT_DIR ++ [output_name c])) with OUTPUT_DIR.
      rewrite (lookup_path_nonempty s OUTPUT_DIR), Hs, Hu by done.
      destruct (s !! (OUTPUT_DIR ++ [output_name c])) as [[x|]|] eqn:Hn; [done| |done].
      by apply Hinv in Hn. }
    rewrite (io_bind_eq _ _ s (<[OUTPUT_DIR ++ [output_name c] := File page]> s) tt).
    2:{ by rewrite (io_bind_eq _ _ _ _ _ Hr). }
    unfold write_pages. cbn [foldl]. rewrite Hpage.
    apply IH.
    + apply agree_insert; [done|]. by apply prefix_app_r.
    + by rewrite lookup_insert_ne.
    + intros nm Hn. destruct (decide (nm = output_name c)) as [->|Hne].
      * by rewrite lookup_insert_eq in Hn.
      * rewrite lookup_insert_ne in Hn; [by apply Hinv|].
        intros Heq. apply Hne. by apply app_inv_head in Heq as [= ->].
Qed.

(** The title and the output name of a chapter can be encoded when its
    file name can. *)
Lemma chapter_at_scalars (t : fs) (p : path) (c : Chapter) :
  chapter_at t p c -> utf8_text (name p) = true ->
  scalars (title c) /\ scalars (output_name c).
Proof.
  intros (text & (content & _ & Hu & ->) & ->) Hn. cbn [title output_name].
  apply utf8_text_scalars in Hu, Hn. apply scalars_stem in Hn. split.
  - apply scalars_extract_title; [by apply scalars_universal_newlines|done].
  - apply Forall_app. split; [done|]. apply scalars_lit_ok. reflexivity.
Qed.

Lemma scalars_chapter_page (c : Chapter) (text : str) (year : N) :
  text_renderer markdown -> scalars (title c) -> scalars text ->
  scalars (chapter_page markdown c text year).
Proof.
  intros Hm Hc Ht. unfold chapter_page. apply scalars_HTML_PAGE; [done| | |].
  - apply scalars_lit_ok. vm_compute. reflexivity.
  - by apply scalars_convert_links, utf8_text_scalars, Hm, utf8_text_scalars.
  - apply scalars_str_of_N.
Qed.

Lemma chapters_scalars (t : fs) (chs : list Chapter) :
  Forall (fun p => utf8_text (name p) = true) (discovered t) ->
  Forall2 (chapter_at t) (discovered t) chs ->
  Forall (fun c => scalars (title c) /\ scalars (output_name c)) chs.
Proof.
  intros Hn H. induction H as [|p c l chs' Hpc _ IH]; [constructor|].
  apply Forall_cons in Hn as [Hp Hn]. constructor; [|by apply IH].
  by eapply chapter_at_scalars.
Qed.

Lemma chapters_writable (t : fs) (year : N) (chs : list Chapter) :
  text_renderer markdown ->
  Forall (fun p => utf8_text (name p) = true) (discovered t) ->
  Forall2 (chapter_at t) (discovered t) chs ->
  Forall (fun c => ~ OUTPUT_DIR `prefix_of` source c
                   /\ (exists page, page_of markdown t year c = Some page
                                    /\ utf8_text page = true)
                   /\ output_name c <> lit "assets") chs.
Proof.
  intros Hm Hn H. apply Forall_forall. intros c Hc.
  apply list_elem_of_lookup in Hc as [i Hi].
  destruct (Forall2_lookup_r _ _ _ _ _ H Hi) as (p & Hp & Hpc).
  assert (p ∈ discovered t) as Hin by (by eapply list_elem_of_lookup_2).
  rewrite Forall_forall in Hn.
  destruct (chapter_at_scalars t p c Hpc (Hn p Hin)) as [Htitle _].
  destruct Hpc as (text & (content & Ht & Hu & ->) & ->).
  split; [|split].
  - by eapply discovered_input.
  - exists (chapter_page markdown
              (mkChapter p (extract_title (universal_newlines content) (stem p))
                         (stem p ++ DOT_HTML))
              (universal_newlines content) year).
    split.
    + unfold page_of. cbn [source]. by rewrite Ht, Hu.
    + apply utf8_text_scalars, scalars_chapter_page; [done..|].
      by apply scalars_universal_newlines, utf8_text_scalars.
  - apply html_name_not_assets.
Qed.

(** The run up to the index, on a tree whose sources are in order. *)
Lemma main_pages (year : N) (t : fs) :
  text_renderer markdown ->
  tree t ->
  is_Some (t !! CHAPTERS_DIR) ->
  (forall c, t !! OUTPUT_DIR <> Some (File c)) ->
  (forall c, t !! SOURCE_ASSETS <> Some (File c)) ->
  (forall c, t !! FIGURES_DIR <> Some (File c)) ->
  Forall (utf8_file t) (discovered t) ->
  Forall (fun p => utf8_text (name p) = true) (discovered t) ->
  exists s2 chs,
    copy_static_assets (cleaned t) = (Ok tt, s2)
    /\ build_chapters t = (Ok chs, t)
    /\ Forall2 (chapter_at t) (discovered t) chs
    /\ agree t (write_pages markdown t year chs s2)
    /\ write_pages markdown t year chs s2 !! OUTPUT_DIR = Some Dir
    /\ (forall nm, write_pages markdown t year chs s2 !! (OUTPUT_DIR ++ [nm]) = Some Dir ->
          nm = lit "assets")
    /\ main markdown year t
       = (index_html <- render_index_from_readme markdown chs year ;;
          write_file (OUTPUT_DIR ++ [lit "index.html"]) index_html)
           (write_pages markdown t year chs s2).
Proof.
  intros Hm Ht Hc Hsite Ha Hf Hfiles Hnames.
  destruct (copy_static_assets_cleaned t Ha Hf) as (s2 & Hcopy & Hs2).
  assert (agree t s2) as Ha2.
  { eapply agree_trans; [apply agree_cleaned|].
    eapply stays_in_apply; [apply stays_in_copy_static_assets| |done].
    intros q. apply around_site. by exists [lit "assets"]. }
  destruct (files_chapters t (discovered t)) as [chs Hchs].
  { apply utf8_files_text; [apply discovered_nonempty|done]. }
  assert (build_chapters s2 = (Ok chs, s2)) as Hbuild.
  { apply build_chapters_complete.
    - by rewrite <-(Ha2 CHAPTERS_DIR) by (by intros [k Hk]).
    - apply (chapter_at_agree s2 t); [by apply agree_sym|done]. }
  exists s2, chs.
  split; [done|]. split; [by apply build_chapters_complete|]. split; [done|].
  destruct (foreach_pages_returns t year chs s2 Ha2 Hs2) as [Hloop Hinv].
  { intros nm Hn. by apply (staged_children t s2 nm Hcopy). }
  { by apply chapters_writable. }
  destruct (foreach_pages markdown t year chs s2 _ Ha2
              (chapters_input t chs Hchs) Hloop) as (_ & _ & Ha3 & Hs3).
  split; [done|]. split; [by apply Hs3|]. split; [done|].
  rewrite main_eq, bool_decide_true by done.
  rewrite (io_bind_eq _ _ _ _ _ (clean_output_dir_returns t Ht Hsite)).
  unfold staged_build.
  rewrite (io_bind_eq _ _ _ _ _ Hcopy), (io_bind_eq _ _ _ _ _ Hbuild).
  by rewrite (io_bind_eq _ _ _ _ _ Hloop).
Qed.

End BuilderRuns.

Section BuilderRunsProps.

Variable markdown : str -> str.

Lemma write_index (idx : str) (s : fs) :
  utf8_text idx = true ->
  s !! OUTPUT_DIR = Some Dir ->
  (forall nm, s !! (OUTPUT_DIR ++ [nm]) = Some Dir -> nm = lit "assets") ->
  write_file INDEX_PATH idx s = (Ok tt, <[INDEX_PATH := File idx]> s).
Proof.
  intros Hu Hs Hinv. unfold write_file, write_text.
  rewrite (lookup_path_nonempty s INDEX_PATH) by done.
  change (parent INDEX_PATH) with OUTPUT_DIR.
  rewrite (lookup_path_nonempty s OUTPUT_DIR), Hs, Hu by done.
  destruct (s !! INDEX_PATH) as [[x|]|] eqn:Hn; [done| |done].
  by apply (Hinv (lit "index.html")) in Hn.
Qed.

Lemma scalars_readme_page (readme : str) (year : N) :
  text_renderer markdown -> scalars readme ->
  scalars (readme_page markdown readme year).
Proof.
  intros Hm Hr. unfold readme_page. apply scalars_HTML_PAGE.
  - apply scalars_lit_ok. vm_compute. reflexivity.
  - constructor.
  - by apply scalars_convert_links, utf8_text_scalars, Hm, utf8_text_scalars.
  - apply scalars_str_of_N.
Qed.

Lemma scalars_chapter_list_page (chs : list Chapter) (year : N) :
  Forall (fun c => scalars (title c) /\ scalars (output_name c)) chs ->
  scalars (chapter_list_page chs year).
Proof.
  intros H. unfold chapter_list_page. apply scalars_INDEX_PAGE.
  - apply scalars_join; [apply scalars_lit_ok; vm_compute; reflexivity|].
    apply Forall_fmap. eapply Forall_impl; [done|].
    intros c [Hc Ho]. by apply scalars_chapter_item.
  - apply scalars_str_of_N.
Qed.

(** X17.  [render_chapter] reads the source as UTF-8 with the line
    ends translated, and returns the page template with the title of the
    chapter, the link back to the index, the rendered text with its links
    rewritten, and the year, each put in as it is.  It raises
    [FileNotFoundError] when the source does not exist,
    [IsADirectoryError] when it is a directory and [UnicodeDecodeError]
    when its bytes are not UTF-8, never an error of the template; the
    tree is left as it was. *)
Theorem render_chapter_outcome (c : Chapter) (year : N) (t : fs) :
  render_chapter markdown c year t
  = match node_at t (source c) with
    | Some (File content) =>
        if utf8_text content
        then (Ok (HTML_PAGE (title c) NAVIGATION_LINK
                    (convert_links (markdown (universal_newlines content)))
                    (str_of_N year)), t)
        else (Raised UnicodeDecodeError, t)
    | Some Dir => (Raised IsADirectoryError, t)
    | None => (Raised FileNotFoundError, t)
    end.
Proof.
  rewrite render_chapter_spec.
  destruct (node_at t (source c)) as [[text|]|]; [|done..].
  unfold chapter_page. reflexivity.
Qed.

(** X18.  [main] returns on every tree in which the chapters directory
    exists, the output path, the source [assets] and [figures] are
    directories or do not exist, [README.md] is a UTF-8 file or does not
    exist, and every entry named [*.md] of the three source directories
    is a UTF-8 file whose name can be encoded, provided the renderer
    gives a text that can be encoded whenever it is given one. *)
Theorem main_returns (year : N) (t : fs) :
  text_renderer markdown ->
  tree t ->
  is_Some (t !! CHAPTERS_DIR) ->
  (forall c, t !! OUTPUT_DIR <> Some (File c)) ->
  (forall c, t !! SOURCE_ASSETS <> Some (File c)) ->
  (forall c, t !! FIGURES_DIR <> Some (File c)) ->
  t !! README_PATH <> Some Dir ->
  (forall c, t !! README_PATH = Some (File c) -> utf8_text c = true) ->
  Forall (utf8_file t) (discovered t) ->
  Forall (fun p => utf8_text (name p) = true) (discovered t) ->
  exists t', main markdown year t = (Ok tt, t').
Proof.
  intros Hm Ht Hc Hsite Ha Hf Hreadme Hutf Hfiles Hnames.
  destruct (main_pages markdown year t Hm Ht Hc Hsite Ha Hf Hfiles Hnames)
    as (s2 & chs & _ & _ & Hchs & Ha3 & Hs3 & Hinv & ->).
  unfold io_bind. rewrite render_index_spec.
  rewrite <-(Ha3 README_PATH) by (by intros [k Hk]).
  change (OUTPUT_DIR ++ [lit "index.html"]) with INDEX_PATH.
  destruct (t !! README_PATH) as [[readme|]|]; [|done|].
  - rewrite (Hutf readme eq_refl). rewrite write_index; [by eauto| |done..].
    apply utf8_text_scalars, scalars_readme_page; [done|].
    apply scalars_universal_newlines, utf8_text_scalars. by apply Hutf.
  - rewrite write_index; [by eauto| |done..].
    apply utf8_text_scalars, scalars_chapter_list_page.
    by eapply chapters_scalars.
Qed.

(** X19.  A run that fails leaves a part of the output.  When
    [README.md] is a directory and everything else is in order, [main]
    raises [IsADirectoryError] after the pages are written: the output
    directory holds the page of every chapter, and no [index.html]
    unless a chapter has this output name. *)
Theorem main_readme_directory (year : N) (t : fs) :
  text_renderer markdown ->
  tree t ->
  is_Some (t !! CHAPTERS_DIR) ->
  (forall c, t !! OUTPUT_DIR <> Some (File c)) ->
  (forall c, t !! SOURCE_ASSETS <> Some (File c)) ->
  (forall c, t !! FIGURES_DIR <> Some (File c)) ->
  t !! README_PATH = Some Dir ->
  Forall (utf8_file t) (discovered t) ->
  Forall (fun p => utf8_text (name p) = true) (discovered t) ->
  exists t' chs,
    main markdown year t = (Raised IsADirectoryError, t')
    /\ build_chapters t = (Ok chs, t)
    /\ (forall c, c ∈ chs -> exists page,
          t' !! (OUTPUT_DIR ++ [output_name c]) = Some (File page))
    /\ (Forall (fun c => output_name c <> lit "index.html") chs ->
        t' !! INDEX_PATH = None).
Proof.
  intros Hm Ht Hc Hsite Ha Hf Hreadme Hfiles Hnames.
  destruct (main_pages markdown year t Hm Ht Hc Hsite Ha Hf Hfiles Hnames)
    as (s2 & chs & Hcopy & Hbuild & Hchs & Ha3 & Hs3 & Hinv & ->).
  exists (write_pages markdown t year chs s2), chs.
  split; [|split; [done|split]].
  - unfold io_bind. rewrite render_index_spec.
    rewrite <-(Ha3 README_PATH) by (by intros [k Hk]). by rewrite Hreadme.
  - intros c Hin.
    destruct (last_with_name chs c Hin) as (l1 & c' & l2 & -> & Hn & Hl2).
    pose proof (chapters_writable markdown t year _ Hm Hnames Hchs) as Hw.
    rewrite Forall_forall in Hw.
    destruct (Hw c') as (_ & (page & Hpage & _) & _); [set_solver|].
    exists page. rewrite <-Hn. apply write_pages_last; [|done]. by rewrite Hn.
  - intros Hnone. rewrite write_pages_other.
    + destruct (s2 !! INDEX_PATH) as [n|] eqn:Hn; [exfalso|done].
      assert (lit "index.html" = lit "assets"); [|done].
      apply (staged_children t s2 _ Hcopy).
      change (is_Some (s2 !! INDEX_PATH)). by rewrite Hn.
    + eapply Forall_impl; [done|]. intros c Hne Heq. apply Hne.
      by apply app_inv_head in Heq as [= ->].
Qed.

(** X20.  When an entry named [*.md] of a source directory is a
    directory, [main] raises once the old output is removed and the
    assets are staged: the output directory then holds [assets] with the
    stylesheet, and nothing else, no page and no index.  The error is
    that of the first entry, in the order of discovery, that is not a
    UTF-8 file: [IsADirectoryError] or [UnicodeDecodeError], and
    [IsADirectoryError] when every entry is a directory or a UTF-8
    file. *)
Theorem main_entry_directory (year : N) (t : fs) :
  tree t ->
  is_Some (t !! CHAPTERS_DIR) ->
  (forall c, t !! OUTPUT_DIR <> Some (File c)) ->
  (forall c, t !! SOURCE_ASSETS <> Some (File c)) ->
  (forall c, t !! FIGURES_DIR <> Some (File c)) ->
  Exists (fun p => t !! p = Some Dir) (discovered t) ->
  exists e t',
    main markdown year t = (Raised e, t')
    /\ (e = IsADirectoryError \/ e = UnicodeDecodeError)
    /\ (Forall (fun p => t !! p = Some Dir \/ utf8_file t p) (discovered t) ->
        e = IsADirectoryError)
    /\ t' !! STYLESHEET_PATH = Some (File (strip STYLESHEET_TEXT))
    /\ (forall nm, is_Some (t' !! (OUTPUT_DIR ++ [nm])) <-> nm = lit "assets").
Proof.
  intros Ht Hc Hsite Ha Hf Hex.
  destruct (copy_static_assets_cleaned t Ha Hf) as (s2 & Hcopy & Hs2).
  assert (agree t s2) as Ha2.
  { eapply agree_trans; [apply agree_cleaned|].
    eapply stays_in_apply; [apply stays_in_copy_static_assets| |done].
    intros q. apply around_site. by exists [lit "assets"]. }
  destruct (build_chapters_unreadable s2) as (e & Hb2 & He & Hdir).
  { by rewrite <-(Ha2 CHAPTERS_DIR) by (by intros [k Hk]). }
  { rewrite <-(discovered_agree t s2 Ha2).
    apply Exists_exists in Hex as (p & Hp & Hd). apply Exists_exists.
    exists p. split; [done|].
    by rewrite <-(Ha2 p) by (by eapply discovered_input). }
  exists e, s2. split; [|split; [done|split; [|split]]].
  - rewrite main_eq, bool_decide_true by done.
    rewrite (io_bind_eq _ _ _ _ _ (clean_output_dir_returns t Ht Hsite)).
    unfold staged_build. rewrite (io_bind_eq _ _ _ _ _ Hcopy).
    unfold io_bind at 1. by rewrite Hb2.
  - intros Hall. apply Hdir. rewrite <-(discovered_agree t s2 Ha2).
    apply Forall_forall. intros p Hp. rewrite Forall_forall in Hall.
    pose proof (discovered_input t p Hp) as Hin.
    destruct (Hall p Hp) as [Hd|Hu].
    + left. by rewrite <-(Ha2 p).
    + right. by apply (utf8_file_agree t s2).
  - by apply copy_static_assets_copied in Hcopy as (_ & _ & Hstyle).
  - intros nm. by apply (staged_children t s2).
Qed.

(** X21.  After a run that returns, the output holds the stylesheet at
    [assets/style.css], every node of the source [assets] directory below
    [assets/uploads] and every node of [figures] below [assets/figures],
    at the same relative paths. *)
Theorem main_assets (year : N) (t t' : fs) :
  tree t -> main markdown year t = (Ok tt, t') ->
  t' !! STYLESHEET_PATH = Some (File (strip STYLESHEET_TEXT))
  /\ (forall q n, t !! (SOURCE_ASSETS ++ q) = Some n ->
        t' !! (UPLOADS_TARGET ++ q) = Some n)
  /\ (forall q n, t !! (FIGURES_DIR ++ q) = Some n ->
        t' !! (FIGURES_TARGET ++ q) = Some n).
Proof.
  intros Ht H.
  destruct (main_Ok markdown year t t' Ht H)
    as (s2 & chs & idx & _ & _ & Hcopy & _ & _ & _ & _ & -> & _ & _).
  apply copy_static_assets_copied in Hcopy as (Hup & Hfig & Hstyle).
  assert (forall p, (2 < length p)%nat ->
            <[INDEX_PATH := File idx]> (write_pages markdown t year chs s2) !! p
            = s2 !! p) as Hdeep.
  { intros p Hp. rewrite lookup_insert_ne by (intros <-; simpl in Hp; lia).
    apply write_pages_other. apply Forall_forall. intros c _ ->.
    rewrite length_app in Hp. simpl in Hp. lia. }
  assert (forall (src dst : path) (q : path) (n : node),
            src <> [] -> ~ OUTPUT_DIR `prefix_of` src ->
            OUTPUT_DIR `prefix_of` dst -> (2 < length dst)%nat ->
            t !! (src ++ q) = Some n ->
            placed (cleaned t) s2 dst q n -> s2 !! (dst ++ q) = Some n) as Hplain.
  { intros src dst q n Hsrc Hout Hdst Hlen Hq Hpl. unfold placed in Hpl.
    destruct n as [c|]; [|done].
    unfold file_target in Hpl. rewrite cleaned_below in Hpl; [done| | |].
    - destruct Hdst as [k ->]. rewrite <-app_assoc. by apply prefix_app_r.
    - intros Heq. apply (f_equal length) in Heq. rewrite length_app in Heq.
      simpl in Heq. lia.
    - intros Heq. apply (f_equal length) in Heq. rewrite length_app in Heq.
      simpl in Heq. lia. }
  assert (forall (src : path) (q : path) (n : node),
            src <> [] -> ~ OUTPUT_DIR `prefix_of` src ->
            t !! (src ++ q) = Some n ->
            is_Some (cleaned t !! src) /\ cleaned t !! (src ++ q) = Some n
            /\ listed (cleaned t) src q) as Hsrc.
  { intros src q n Hne Hout Hq.
    assert (forall k, ~ OUTPUT_DIR `prefix_of` src ++ k) as Hk.
    { intros k [j Hj]. apply Hout. destruct src as [|x src]; [done|].
      injection Hj as -> _. by exists src. }
    split; [|split].
    - rewrite <-(agree_cleaned t) by done. by eapply tree_parent_exists.
    - by rewrite <-(agree_cleaned t) by apply Hk.
    - intros i Hi. rewrite <-(agree_cleaned t) by apply Hk.
      by apply (tree_listed t src q n). }
  split; [|split].
  - by rewrite Hdeep by (simpl; lia).
  - intros q n Hq. rewrite Hdeep by (rewrite length_app; simpl; lia).
    destruct (Hsrc SOURCE_ASSETS q n) as (H1 & H2 & H3);
      [done|by intros [k Hk]|done|].
    apply (Hplain SOURCE_ASSETS); [done|by intros [k Hk]| |simpl; lia|done|by apply Hup].
    by exists [lit "assets"; lit "uploads"].
  - intros q n Hq. rewrite Hdeep by (rewrite length_app; simpl; lia).
    destruct (Hsrc FIGURES_DIR q n) as (H1 & H2 & H3);
      [done|by intros [k Hk]|done|].
    apply (Hplain FIGURES_DIR); [done|by intros [k Hk]| |simpl; lia|done|by apply Hfig].
    by exists [lit "assets"; lit "figures"].
Qed.

(** X22.  When the chapters directory exists and the output path is a
    file, [main] raises [NotADirectoryError] and leaves the tree as it
    was: the file is not removed and nothing is written. *)
Theorem main_output_file (year : N) (t : fs) (c : str) :
  is_Some (t !! CHAPTERS_DIR) -> t !! OUTPUT_DIR = Some (File c) ->
  main markdown year t = (Raised NotADirectoryError, t).
Proof.
  intros Hc Hs. rewrite main_eq, bool_decide_true by done.
  unfold io_bind at 1. unfold clean_output_dir.
  rewrite (io_bind_eq (path_exists OUTPUT_DIR) _ t t true).
  2:{ unfold path_exists. by rewrite (lookup_path_nonempty t OUTPUT_DIR), Hs. }
  unfold io_bind, rmtree. by rewrite (lookup_path_nonempty t OUTPUT_DIR), Hs.
Qed.

End BuilderRunsProps.


(** ** The further properties on the small tree *)

Lemma sample_discovered :
  discovered sample_tree
  = [[lit "chapters"; lit "a.md"]; [lit "chapters"; lit "b.md"];
     [lit "glossary"; lit "a.md"]].
Proof. vm_compute. reflexivity. Qed.

Lemma utf8_file_check (t : fs) (p : path) :
  match t !! p with Some (File c) => utf8_text c | _ => false end = true ->
  utf8_file t p.
Proof. destruct (t !! p) as [[c|]|] eqn:Hp; [|done..]. intros Hu. by exists c. Qed.

Lemma sample_files : Forall (utf8_file sample_tree) (discovered sample_tree).
Proof.
  rewrite sample_discovered.
  repeat (constructor; [apply utf8_file_check; vm_compute; reflexivity|]); constructor.
Qed.

Lemma sample_names :
  Forall (fun p => utf8_text (name p) = true) (discovered sample_tree).
Proof. rewrite sample_discovered. repeat constructor. Qed.

Lemma plain_markdown_text : text_renderer plain_markdown.
Proof. intros s Hs. exact Hs. Qed.

Lemma sample_not_file (p : path) :
  (sample_tree !! p = Some Dir \/ sample_tree !! p = None) ->
  forall c, sample_tree !! p <> Some (File c).
Proof. intros [H|H] c; rewrite H; discriminate. Qed.

Lemma build_chapters_returns_witness :
  exists chs,
    build_chapters sample_tree = (Ok chs, sample_tree)
    /\ Forall2 (fun p c =>
                  exists content, sample_tree !! p = Some (File content)
                    /\ c = mkChapter p
                             (extract_title (universal_newlines content) (stem p))
                             (stem p ++ DOT_HTML))
               (discovered sample_tree) chs.
Proof.
  apply build_chapters_returns.
  - vm_compute. eauto.
  - apply sample_files.
Defined.

Lemma build_chapters_raises_witness :
  build_chapters (delete CHAPTERS_DIR sample_tree)
  = (Raised FileNotFoundError, delete CHAPTERS_DIR sample_tree)
  /\ build_chapters sample_tree_entry_directory
     = (Raised IsADirectoryError, sample_tree_entry_directory)
  /\ build_chapters
       (<[[lit "chapters"; lit "b.md"] := File [56575; 56574; 35; 32; 65]]> sample_tree)
     = (Raised UnicodeDecodeError,
        <[[lit "chapters"; lit "b.md"] := File [56575; 56574; 35; 32; 65]]> sample_tree).
Proof.
  split; [|split].
  - apply (proj1 (build_chapters_raises _)). apply lookup_delete_eq.
  - assert (is_Some (sample_tree_entry_directory !! CHAPTERS_DIR)) as Hc
      by (vm_compute; eauto).
    assert (discovered sample_tree_entry_directory
            = [[lit "chapters"; lit "a.md"]; [lit "chapters"; lit "b.md"]]
              ++ [lit "chapters"; lit "c.md"] :: [[lit "glossary"; lit "a.md"]])
      as Hd by (vm_compute; reflexivity).
    assert (Forall (utf8_file sample_tree_entry_directory)
              [[lit "chapters"; lit "a.md"]; [lit "chapters"; lit "b.md"]]) as Hb.
    { repeat (constructor; [apply utf8_file_check; vm_compute; reflexivity|]); constructor. }
    apply (proj1 (proj2 (build_chapters_raises sample_tree_entry_directory)
                    Hc _ _ _ Hd Hb)).
    vm_compute. reflexivity.
  - set (t := <[[lit "chapters"; lit "b.md"] := File [56575; 56574; 35; 32; 65]]>
                sample_tree).
    assert (is_Some (t !! CHAPTERS_DIR)) as Hc by (vm_compute; eauto).
    assert (discovered t
            = [[lit "chapters"; lit "a.md"]]
              ++ [lit "chapters"; lit "b.md"] :: [[lit "glossary"; lit "a.md"]])
      as Hd by (vm_compute; reflexivity).
    assert (Forall (utf8_file t) [[lit "chapters"; lit "a.md"]]) as Hb.
    { repeat (constructor; [apply utf8_file_check; vm_compute; reflexivity|]); constructor. }
    apply (proj2 (proj2 (build_chapters_raises t) Hc _ _ _ Hd Hb)
             [56575; 56574; 35; 32; 65]).
    + apply lookup_insert_eq.
    + vm_compute. reflexivity.
Defined.

Lemma build_chapters_output_names_witness :
  Forall (fun c =>
            exists dir base,
              source c = dir ++ [base ++ DOT_MD]
              /\ output_name c
                 = match base with [] => DOT_MD | _ :: _ => base end ++ DOT_HTML)
    [mkChapter [lit "chapters"; lit "a.md"] (lit "a") (lit "a.html");
     mkChapter [lit "chapters"; lit "b.md"] (lit "# B") (lit "b.html");
     mkChapter [lit "glossary"; lit "a.md"] (lit "## Terms") (lit "a.html")].
Proof.
  apply (build_chapters_output_names sample_tree sample_tree).
  apply build_chapters_fst. vm_compute. reflexivity.
Defined.

Lemma clean_output_dir_outcome_witness :
  match sample_tree !! OUTPUT_DIR with
  | Some (File _) => clean_output_dir sample_tree = (Raised NotADirectoryError, sample_tree)
  | _ =>
      exists t',
        clean_output_dir sample_tree = (Ok tt, t')
        /\ t' !! OUTPUT_DIR = Some Dir /\ t' !! ASSETS_DIR = Some Dir
        /\ (forall p, OUTPUT_DIR `prefix_of` p -> p <> OUTPUT_DIR -> p <> ASSETS_DIR ->
              t' !! p = None)
        /\ (forall p, ~ OUTPUT_DIR `prefix_of` p -> t' !! p = sample_tree !! p)
  end.
Proof. apply clean_output_dir_outcome. apply sample_tree_tree. Defined.

Lemma clean_output_dir_twice_witness :
  clean_output_dir (cleaned sample_tree) = (Ok tt, cleaned sample_tree).
Proof.
  apply (clean_output_dir_twice sample_tree).
  - apply sample_tree_tree.
  - apply clean_output_dir_site. vm_compute. reflexivity.
Defined.

Lemma sample_tree_uploads_tree : tree sample_tree_uploads.
Proof. unfold tree. compute_done. Qed.

Lemma sample_copy_uploads :
  copy_static_assets sample_tree_uploads
  = (Ok tt, (copy_static_assets sample_tree_uploads).2).
Proof. apply returns_split. vm_compute. reflexivity. Qed.

Lemma copy_static_assets_copies_witness :
  match sample_tree_uploads !! (UPLOADS_TARGET ++ [lit "logo.svg"]) with
  | Some Dir =>
      (copy_static_assets sample_tree_uploads).2
        !! (UPLOADS_TARGET ++ [lit "logo.svg"] ++ [name [lit "logo.svg"]])
      = Some (File (lit "<svg/>"))
  | _ =>
      (copy_static_assets sample_tree_uploads).2 !! (UPLOADS_TARGET ++ [lit "logo.svg"])
      = Some (File (lit "<svg/>"))
  end.
Proof.
  destruct (copy_static_assets_copies sample_tree_uploads _
              sample_tree_uploads_tree sample_copy_uploads) as (H & _ & _).
  apply (H [lit "logo.svg"] (File (lit "<svg/>"))). vm_compute. reflexivity.
Defined.

Lemma copy_static_assets_keeps_witness :
  (copy_static_assets sample_tree_uploads).2 !! (UPLOADS_TARGET ++ [lit "keep.png"])
  = sample_tree_uploads !! (UPLOADS_TARGET ++ [lit "keep.png"]).
Proof.
  apply (proj1 (copy_static_assets_keeps sample_tree_uploads _ [lit "keep.png"]
                  sample_copy_uploads ltac:(discriminate))).
  - vm_compute. reflexivity.
  - intros rel c Hc _ Heq. destruct rel as [|x [|y rel]]; [|discriminate..].
    vm_compute in Hc. discriminate.
Defined.

Lemma copy_static_assets_frame_witness :
  (copy_static_assets sample_tree).2 !! [lit "assets"; lit "logo.svg"]
  = sample_tree !! [lit "assets"; lit "logo.svg"].
Proof.
  apply copy_static_assets_frame.
  - discriminate.
  - intros [k Hk]. discriminate.
Defined.

Lemma main_sources_untouched_witness :
  (main plain_markdown 2024 sample_tree).2 !! [lit "chapters"; lit "a.md"]
  = sample_tree !! [lit "chapters"; lit "a.md"].
Proof. apply main_sources_untouched. intros [k Hk]. discriminate. Defined.

Lemma main_returns_witness :
  exists t', main plain_markdown 2024 sample_tree = (Ok tt, t').
Proof.
  apply main_returns.
  - apply plain_markdown_text.
  - apply sample_tree_tree.
  - vm_compute. eauto.
  - apply sample_not_file. left. vm_compute. reflexivity.
  - apply sample_not_file. left. vm_compute. reflexivity.
  - apply sample_not_file. right. vm_compute. reflexivity.
  - vm_compute. discriminate.
  - intros c Hc. vm_compute in Hc. discriminate.
  - apply sample_files.
  - apply sample_names.
Defined.

Lemma sample_tree_readme_directory_tree : tree sample_tree_readme_directory.
Proof. unfold tree. compute_done. Qed.

Lemma sample_tree_entry_directory_tree : tree sample_tree_entry_directory.
Proof. unfold tree. compute_done. Qed.

Lemma main_readme_directory_witness :
  exists t' chs,
    main plain_markdown 2024 sample_tree_readme_directory
    = (Raised IsADirectoryError, t')
    /\ build_chapters sample_tree_readme_directory
       = (Ok chs, sample_tree_readme_directory)
    /\ (forall c, c ∈ chs -> exists page,
          t' !! (OUTPUT_DIR ++ [output_name c]) = Some (File page))
    /\ (Forall (fun c => output_name c <> lit "index.html") chs ->
        t' !! INDEX_PATH = None).
Proof.
  assert (discovered sample_tree_readme_directory
          = [[lit "chapters"; lit "a.md"]; [lit "chapters"; lit "b.md"];
             [lit "glossary"; lit "a.md"]]) as Hd by (vm_compute; reflexivity).
  apply main_readme_directory.
  - apply plain_markdown_text.
  - apply sample_tree_readme_directory_tree.
  - vm_compute. eauto.
  - intros c. vm_compute. discriminate.
  - intros c. vm_compute. discriminate.
  - intros c. vm_compute. discriminate.
  - vm_compute. reflexivity.
  - rewrite Hd. repeat (constructor; [apply utf8_file_check; vm_compute; reflexivity|]); constructor.
  - rewrite Hd. repeat constructor.
Defined.

Lemma main_entry_directory_witness :
  exists e t',
    main plain_markdown 2024 sample_tree_entry_directory = (Raised e, t')
    /\ (e = IsADirectoryError \/ e = UnicodeDecodeError)
    /\ (Forall (fun p => sample_tree_entry_directory !! p = Some Dir
                         \/ utf8_file sample_tree_entry_directory p)
               (discovered sample_tree_entry_directory) ->
        e = IsADirectoryError)
    /\ t' !! STYLESHEET_PATH = Some (File (strip STYLESHEET_TEXT))
    /\ (forall nm, is_Some (t' !! (OUTPUT_DIR ++ [nm])) <-> nm = lit "assets").
Proof.
  apply main_entry_directory.
  - apply sample_tree_entry_directory_tree.
  - vm_compute. eauto.
  - intros c. vm_compute. discriminate.
  - intros c. vm_compute. discriminate.
  - intros c. vm_compute. discriminate.
  - assert (discovered sample_tree_entry_directory
            = [[lit "chapters"; lit "a.md"]; [lit "chapters"; lit "b.md"];
               [lit "chapters"; lit "c.md"]; [lit "glossary"; lit "a.md"]])
      as -> by (vm_compute; reflexivity).
    do 2 apply Exists_cons_tl. apply Exists_cons_hd. vm_compute. reflexivity.
Defined.

Lemma main_assets_witness :
  sample_site 2024 !! STYLESHEET_PATH = Some (File (strip STYLESHEET_TEXT))
  /\ sample_site 2024 !! (UPLOADS_TARGET ++ [lit "logo.svg"])
     = Some (File (lit "<svg/>")).
Proof.
  destruct (main_assets plain_markdown 2024 sample_tree (sample_site 2024)
              sample_tree_tree sample_main_2024) as (Hstyle & Hup & _).
  split; [exact Hstyle|]. apply Hup. vm_compute. reflexivity.
Defined.

Lemma main_output_file_witness :
  main plain_markdown 2024 (<[OUTPUT_DIR := File (lit "not a directory")]> sample_tree)
  = (Raised NotADirectoryError,
     <[OUTPUT_DIR := File (lit "not a directory")]> sample_tree).
Proof.
  apply (main_output_file plain_markdown 2024 _ (lit "not a directory")).
  - rewrite lookup_insert_ne by discriminate. vm_compute. eauto.
  - apply lookup_insert_eq.
Defined.
